(** * Kenwei AIGC gateway: the protocol-translation layer of the server

    A shallow embedding of the Express server (the 1200-line server file):
    status normalisation, MIME sniffing, the usage log, endpoint-candidate
    probing, the synchronous image wait loop and the caller-facing route
    handlers, followed by the properties the specification states about them.

    Conventions of the embedding.
    - A JavaScript value is a [value]; a JSON document is a [value] without
      [VUndef].  Numbers are the integers ([Z]); [NaN] appears only as the
      [None] of [toNumber].
    - A conversion to text or to a number ([String(v)], a template literal,
      [new Error(v)], [encodeURIComponent(v)], [Number(v)]) is partial: it
      throws a TypeError on a parsed object that has a [toString] member of
      its own, and on an array that holds one.  The pure functions of the
      server that convert return an [option], [None] being that TypeError.
      An object without a prototype, as the form parser builds for a nested
      field, is written as an object whose own [toString] member is
      [VUndef]: reading a member, testing it, converting it and serialising
      it all give what they give on the object without a prototype.
    - A string is the UTF-8 encoding of the JavaScript text; text with an
      unpaired surrogate has no encoding and is not covered.  [trim] and the
      [\s] of the bearer pattern strip the white space of ECMAScript, which
      goes beyond ASCII; [toLowerCase] lowers the ASCII letters and the two
      letters outside ASCII whose lower case holds an ASCII letter, which is
      all that a comparison of lowered text with an ASCII word can observe.
    - Effects (clock, network, usage log) are threaded through a state and
      exception monad [M] over a [World]. *)

From Stdlib Require Import ZArith String Ascii List DecimalString Bool Lia.
From Stdlib.Strings Require Import Byte.
From stdpp Require Import gmap strings list.

Open Scope string_scope.
Open Scope Z_scope.

(* ================================================================== *)
(** * JavaScript values and the coercions the server relies on *)
(* ================================================================== *)

Module JS.

#[warnings="-register-all"]
Inductive value : Type :=
| VUndef
| VNull
| VBool (b : bool)
| VNum (n : Z)
| VStr (s : string)
| VArr (items : list value)
| VObj (fields : list (string * value)).

(** [o[k]] on the own properties of a parsed object. *)
Fixpoint assoc (k : string) (fields : list (string * value)) : value :=
  match fields with
  | [] => VUndef
  | (k', v) :: rest => if String.eqb k k' then v else assoc k rest
  end.

(** [v?.k] for the property names the server reads: only objects carry them. *)
Definition get (v : value) (k : string) : value :=
  match v with
  | VObj fields => assoc k fields
  | _ => VUndef
  end.

(** the number of bytes of the UTF-8 character that begins with [c] *)
Definition char_width (c : ascii) : nat :=
  let n := nat_of_ascii c in
  if (n <? 192)%nat then 1 else if (n <? 224)%nat then 2 else if (n <? 240)%nat then 3 else 4.

(** [v?.[0]].  Of a string it is the first character; where JavaScript gives
    the first half of a character outside the basic plane, which UTF-8
    cannot write, the whole character stands for it. *)
Definition first (v : value) : value :=
  match v with
  | VArr (x :: _) => x
  | VStr (String c rest) => VStr (String c (substring 0 (char_width c - 1) rest))
  | VObj fields => assoc "0" fields
  | _ => VUndef
  end.

Definition nullish (v : value) : bool :=
  match v with
  | VUndef | VNull => true
  | _ => false
  end.

Definition truthy (v : value) : bool :=
  match v with
  | VUndef | VNull => false
  | VBool b => b
  | VNum n => negb (n =? 0)
  | VStr s => negb (String.eqb s "")
  | VArr _ | VObj _ => true
  end.

(** [a ?? b] and [a || b] *)
Definition coalesce (a b : value) : value := if nullish a then b else a.
Definition or (a b : value) : value := if truthy a then a else b.

(** [v === n] for a number literal [n] *)
Definition is_num (v : value) (n : Z) : bool :=
  match v with VNum m => m =? n | _ => false end.

(** [v === s] for a string literal [s] *)
Definition is_str (v : value) (s : string) : bool :=
  match v with VStr t => String.eqb t s | _ => false end.

Definition number_to_string (n : Z) : string :=
  NilZero.string_of_int (Z.to_int n).

Fixpoint join (sep : string) (parts : list string) : string :=
  match parts with
  | [] => ""
  | [p] => p
  | p :: rest => p ++ sep ++ join sep rest
  end.

(** [k in o] for the own properties of a parsed object *)
Definition has_own (k : string) (fields : list (string * value)) : bool :=
  existsb (fun kv => String.eqb (fst kv) k) fields.

(** [String(v)], and every other conversion of [v] to text.  [None] is the
    TypeError the conversion throws.  An object is converted by its
    [toString] method: a parsed object inherits one, which answers
    [[object Object]], unless a member of its own named [toString] hides it,
    and no member of a parsed object can be called; the fallback [valueOf]
    never gives a primitive.  An array joins the conversions of its
    elements, [null] and [undefined] counting as the empty text. *)
Fixpoint toString (v : value) : option string :=
  match v with
  | VUndef => Some "undefined"
  | VNull => Some "null"
  | VBool true => Some "true"
  | VBool false => Some "false"
  | VNum n => Some (number_to_string n)
  | VStr s => Some s
  | VArr items =>
      option_map (join ",")
        ((fix elements (l : list value) : option (list string) :=
            match l with
            | [] => Some []
            | x :: rest =>
                match (if nullish x then Some "" else toString x) with
                | Some s => option_map (cons s) (elements rest)
                | None => None
                end
            end) items)
  | VObj fields => if has_own "toString" fields then None else Some "[object Object]"
  end.

(** ** Strings, as UTF-8 *)

Definition is_upper (c : ascii) : bool :=
  let n := nat_of_ascii c in (65 <=? n)%nat && (n <=? 90)%nat.

Definition lower_ascii (c : ascii) : ascii :=
  if is_upper c then ascii_of_nat (nat_of_ascii c + 32) else c.

(** the byte [c] is [n] *)
Definition byte_is (c : ascii) (n : nat) : bool := (nat_of_ascii c =? n)%nat.

(** U+0130, the capital I with a dot, whose lower case is [i] followed by the
    combining dot U+0307; and U+212A, the Kelvin sign, whose lower case is [k] *)
Definition is_dotted_capital_i (a b : ascii) : bool := byte_is a 196 && byte_is b 176.
Definition is_kelvin_sign (a b c : ascii) : bool :=
  byte_is a 226 && byte_is b 132 && byte_is c 170.
Definition combining_dot : string :=
  String (ascii_of_nat 204) (String (ascii_of_nat 135) EmptyString).

(** one of the two special letters begins [s] *)
Definition special_letter (s : string) : bool :=
  match s with
  | String a (String b (String c _)) => is_dotted_capital_i a b || is_kelvin_sign a b c
  | String a (String b EmptyString) => is_dotted_capital_i a b
  | _ => false
  end.

(** [s.toLowerCase()], up to the letters outside ASCII whose lower case is
    outside ASCII as well: those are left as they are *)
Fixpoint toLowerCase (s : string) : string :=
  match s with
  | EmptyString => EmptyString
  | String a r1 =>
      match r1 with
      | EmptyString => String (lower_ascii a) EmptyString
      | String b r2 =>
          if is_dotted_capital_i a b then String "i" (combining_dot ++ toLowerCase r2)
          else
            match r2 with
            | EmptyString => String (lower_ascii a) (toLowerCase r1)
            | String c r3 =>
                if is_kelvin_sign a b c then String "k" (toLowerCase r3)
                else String (lower_ascii a) (toLowerCase r1)
            end
      end
  end.

(** The white space of ECMAScript (WhiteSpace and LineTerminator), by the
    length of its encoding: U+0009 to U+000D and U+0020; U+00A0; U+1680,
    U+2000 to U+200A, U+2028, U+2029, U+202F, U+205F, U+3000 and U+FEFF. *)
Definition is_space1 (a : ascii) : bool :=
  let n := nat_of_ascii a in ((9 <=? n)%nat && (n <=? 13)%nat) || (n =? 32)%nat.

Definition is_space2 (a b : ascii) : bool := byte_is a 194 && byte_is b 160.

Definition is_space3 (a b c : ascii) : bool :=
  let z := nat_of_ascii c in
  (byte_is a 225 && byte_is b 154 && byte_is c 128)
  || (byte_is a 226 && byte_is b 128
      && (((128 <=? z)%nat && (z <=? 138)%nat)
          || (z =? 168)%nat || (z =? 169)%nat || (z =? 175)%nat))
  || (byte_is a 226 && byte_is b 129 && byte_is c 159)
  || (byte_is a 227 && byte_is b 128 && byte_is c 128)
  || (byte_is a 239 && byte_is b 187 && byte_is c 191).

(** the line terminators: U+000A, U+000D, U+2028 and U+2029 *)
Definition is_line_terminator1 (a : ascii) : bool := byte_is a 10 || byte_is a 13.
Definition is_line_terminator3 (a b c : ascii) : bool :=
  byte_is a 226 && byte_is b 128 && (byte_is c 168 || byte_is c 169).

(** [s] begins with a white space character *)
Definition starts_with_space (s : string) : bool :=
  match s with
  | String a (String b (String c _)) => is_space1 a || is_space2 a b || is_space3 a b c
  | String a (String b EmptyString) => is_space1 a || is_space2 a b
  | String a EmptyString => is_space1 a
  | EmptyString => false
  end.

(** [s] begins with a line terminator *)
Definition starts_with_line_terminator (s : string) : bool :=
  match s with
  | String a (String b (String c _)) => is_line_terminator1 a || is_line_terminator3 a b c
  | String a _ => is_line_terminator1 a
  | EmptyString => false
  end.

(** some character of [s] satisfies the test [starts], which reads the
    string from that character on *)
Fixpoint somewhere (starts : string -> bool) (s : string) : bool :=
  starts s ||
  match s with
  | EmptyString => false
  | String _ rest => somewhere starts rest
  end.

Definition has_space : string -> bool := somewhere starts_with_space.
Definition has_line_terminator : string -> bool := somewhere starts_with_line_terminator.

Fixpoint trimStart (s : string) : string :=
  match s with
  | EmptyString => EmptyString
  | String a r1 =>
      if is_space1 a then trimStart r1
      else
        match r1 with
        | EmptyString => s
        | String b r2 =>
            if is_space2 a b then trimStart r2
            else
              match r2 with
              | EmptyString => s
              | String c r3 => if is_space3 a b c then trimStart r3 else s
              end
        end
  end.

(** [s] is white space throughout *)
Definition blank (s : string) : bool := String.eqb (trimStart s) "".

(** [s.trimEnd()]: the text up to the point from which all is white space *)
Fixpoint trimEnd (s : string) : string :=
  match s with
  | EmptyString => EmptyString
  | String c rest => if blank s then EmptyString else String c (trimEnd rest)
  end.

Definition trim (s : string) : string := trimEnd (trimStart s).

Definition startsWith (s p : string) : bool := String.prefix p s.

Fixpoint includes (s sub : string) : bool :=
  String.prefix sub s ||
  match s with
  | EmptyString => false
  | String _ rest => includes rest sub
  end.

End JS.

Import JS.

(* ================================================================== *)
(** * Pure helpers of the server *)
(* ================================================================== *)

(** [detectImageMime]: [None] is an absent buffer ([!buffer]). *)
Definition detectImageMime (buffer : option (list byte)) : string :=
  match buffer with
  | None => "image/png"
  | Some b =>
      if (length b <? 4)%nat then "image/png" else
      match b with
      | b0 :: b1 :: b2 :: b3 :: _ =>
          if Byte.eqb b0 x89 && Byte.eqb b1 x50 && Byte.eqb b2 x4e && Byte.eqb b3 x47
          then "image/png"
          else if Byte.eqb b0 xff && Byte.eqb b1 xd8 && Byte.eqb b2 xff
          then "image/jpeg"
          else if Byte.eqb b0 x47 && Byte.eqb b1 x49 && Byte.eqb b2 x46
          then "image/gif"
          else if Byte.eqb b0 x52 && Byte.eqb b1 x49 && Byte.eqb b2 x46 && Byte.eqb b3 x46
          then "image/webp"
          else "image/png"
      | _ => "image/png"
      end
  end.

Definition extFromMime (mime : string) : string :=
  if String.eqb mime "" then "bin"
  else if includes mime "png" then "png"
  else if includes mime "jpeg" || includes mime "jpg" then "jpg"
  else if includes mime "gif" then "gif"
  else if includes mime "webp" then "webp"
  else "bin".

(** [mapAspectRatio]; [None] when [String(sizeOrRatio || '')] throws *)
Definition mapAspectRatio (sizeOrRatio : value) : option string :=
  match toString (or sizeOrRatio (VStr "")) with
  | None => None
  | Some text =>
      let v := trim text in
      Some (if String.eqb v "" then "16:9"
            else if String.eqb v "16:9" || String.eqb v "9:16" || String.eqb v "1:1"
                    || String.eqb v "4:3" || String.eqb v "3:4" then v
            else if String.eqb (toLowerCase v) "auto" then "Auto"
            else "16:9")
  end.

Definition isVeoModel (model : string) : bool := includes (toLowerCase model) "veo".
Definition isSoraModel (model : string) : bool := includes (toLowerCase model) "sora".
Definition isKlingModel (model : string) : bool := includes (toLowerCase model) "kling".

Definition mapSoraMarketModel (model : string) (isImageToVideo : bool) : string :=
  let m := toLowerCase model in
  let kind := if isImageToVideo then "image-to-video" else "text-to-video" in
  if String.eqb m "sora-2-pro" || String.eqb m "sora_2_pro" || includes m "pro"
  then "sora-2-pro/" ++ kind
  else if String.eqb m "sora-2-all" || String.eqb m "sora_2_all" || includes m "all"
  then "sora-2-pro/" ++ kind
  else "sora-2/" ++ kind.

(** ** Status normalisation *)

(** [data?.successFlag] of [normalizeKieStatusToSimple] *)
Definition successFlag_of (json : value) : value :=
  get (coalesce (get json "data") json) "successFlag".

(** [stateRaw] of [normalizeKieStatusToSimple] *)
Definition stateRaw_of (json : value) : value :=
  let data := coalesce (get json "data") json in
  coalesce (get data "state")
    (coalesce (get data "status")
       (coalesce (get data "task_status") (get data "taskStatus"))).

(** the lower-cased text state, [String(stateRaw || '').toLowerCase()];
    [None] when the conversion throws *)
Definition state_of (json : value) : option string :=
  option_map toLowerCase (toString (or (stateRaw_of json) (VStr ""))).

(** [normalizeKieStatusToSimple]; the text state is converted before any
    signal is looked at, and [None] is the TypeError of that conversion *)
Definition normalizeKieStatusToSimple (json : value) : option string :=
  let successFlag := successFlag_of json in
  match state_of json with
  | None => None
  | Some state =>
      Some (if is_num successFlag 1 || String.eqb state "success"
               || String.eqb state "succeed" || String.eqb state "completed"
               || String.eqb state "done"
            then "completed"
            else if is_num successFlag 2 || is_num successFlag 3
                    || String.eqb state "failed" || String.eqb state "error"
                    || String.eqb state "fail"
            then "failed"
            else "processing")
  end.

Definition extractFirstResultUrl (json : value) : value :=
  let data := coalesce (get json "data") json in
  let response := coalesce (get data "response") (coalesce (get data "result") (VObj [])) in
  let urls :=
    or (get response "resultUrls")
      (or (get response "result_urls")
         (or (get response "urls")
            (or (get data "resultUrls")
               (or (get data "result_urls")
                  (or (get data "urls") (VArr [])))))) in
  match urls with
  | VArr (u :: _) => u
  | _ =>
      let taskResult := or (get data "task_result") (get data "taskResult") in
      let maybe :=
        or (get (first (get taskResult "videos")) "url")
           (get (first (get taskResult "images")) "url") in
      if truthy maybe then maybe
      else or (get data "video_url") (or (get data "url") VNull)
  end.

(* ================================================================== *)
(** * The world the server runs in *)
(* ================================================================== *)

(** An outbound HTTP request.  [req_auth] is the bearer key of the
    [Authorization] header ([""] when the call carries none) and the body is
    kept as the value it is serialised from. *)
Inductive Payload : Type :=
| NoBody
| JsonBody (v : value)
| FileBody (name : string) (type : value) (content : list byte).

Record Request : Type := mkRequest {
  req_method : string;
  req_url : string;
  req_auth : string;
  req_body : Payload
}.

(** A response body: the text of a JSON document, identified with the
    document, or any other content.  [headers] lists the response headers as
    the [Headers] object iterates them. *)
Inductive Body : Type :=
| JsonDoc (document : value)
| Raw (content : list byte).

Record Response : Type := mkResponse {
  status : Z;
  headers : list (string * string);
  body : Body
}.

(** [resp.ok] *)
Definition ok (r : Response) : bool := (200 <=? status r) && (status r <=? 299).

(** What [fetch] does: it rejects (network failure, abort on timeout), with
    an error whose message is [reason], or resolves with a response.  The
    body comes with the response; where the server reads it ([resp.text()],
    [resp.arrayBuffer()]) a failure to read it counts as a rejection. *)
Inductive Outcome : Type :=
| Rejected (reason : string)
| Resolved (r : Response).

Record UsageLog : Type := mkUsageLog {
  created_at : Z;
  model_name : string;
  prompt : string;
  image_count : Z;
  path : string;
  kind : string
}.

(** The runtime and the deployment: the upstream as a function of the calls
    made so far (most recent first, each with the time it was issued), the
    clock reading and the request, giving the outcome and the time it took;
    the built-ins the server calls; the configuration. *)
Class Platform : Type := {
  serve : list (Z * Request) -> Z -> Request -> Outcome * Z;
  JSON_stringify : value -> string;
  Number_of_string : string -> option Z;
  sha256Short : string -> string;
  base64_decode : string -> list byte;
  base64_encode : list byte -> string;
  encodeURIComponent : string -> string;
  KIE_API_BASE : string;
  IMAGE_SYNC_MAX_WAIT_MS : Z;
  IMAGE_SYNC_POLL_MS : Z
}.

Record World : Type := mkWorld {
  now : Z;
  calls : list (Z * Request);
  usageLogs : gmap string (list UsageLog)
}.

(** ** The effect monad: state, exceptions, and running out of fuel *)

Inductive Result (A : Type) : Type :=
| Ok (a : A)
| Throw (message : string)
| Diverge.

Arguments Ok {A} a.
Arguments Throw {A} message.
Arguments Diverge {A}.

Definition M (A : Type) : Type := World -> Result A * World.

Definition ret {A} (a : A) : M A := fun w => (Ok a, w).

Definition throw {A} (message : string) : M A := fun w => (Throw message, w).

Definition bind {A B} (m : M A) (k : A -> M B) : M B :=
  fun w =>
    match m w with
    | (Ok a, w') => k a w'
    | (Throw e, w') => (Throw e, w')
    | (Diverge, w') => (Diverge, w')
    end.

(** [try { m } catch (err) { h err.message }] *)
Definition try_catch {A} (m : M A) (h : string -> M A) : M A :=
  fun w =>
    match m w with
    | (Throw e, w') => h e w'
    | r => r
    end.

Notation "'let*' x ':=' m 'in' k" := (bind m (fun x => k))
  (at level 10, x pattern, m at level 100, k at level 200).

(** [String(err?.message || err)] for an error with the message [message]:
    an error without a message is converted as a whole, which gives its
    name, [Error] for the errors the server makes *)
Definition error_text (message : string) : string :=
  if String.eqb message "" then "Error" else message.

(** the message of the TypeError a conversion throws *)
Definition cannot_convert : string := "Cannot convert object to primitive value".

(** a conversion that does not throw *)
Definition converts {A} (o : option A) : bool :=
  match o with Some _ => true | None => false end.

(** a conversion inside a computation: its TypeError is an exception *)
Definition converted {A} (o : option A) : M A :=
  match o with
  | Some a => ret a
  | None => throw cannot_convert
  end.

(** [throw new Error(v)], for a truthy [v]: the constructor converts [v] to
    the message, and that conversion can throw in its place *)
Definition throw_value {A} (v : value) : M A :=
  match toString v with
  | Some message => throw message
  | None => throw cannot_convert
  end.

(** the message of reading a member of [undefined] or [null] *)
Definition cannot_read (v : value) (k : string) : string :=
  "Cannot read properties of "
  ++ (match v with VNull => "null" | _ => "undefined" end)
  ++ " (reading '" ++ k ++ "')".

Section Server.

Context `{Platform}.

(** ** Primitive effects *)

Definition fetch (r : Request) : M Response :=
  fun w =>
    let '(outcome, elapsed) := serve (calls w) (now w) r in
    let w' := {| now := now w + elapsed;
                 calls := (now w, r) :: calls w;
                 usageLogs := usageLogs w |} in
    match outcome with
    | Rejected reason => (Throw reason, w')
    | Resolved resp => (Ok resp, w')
    end.

(** The delay Node gives a timer: a delay below 1 or above 2^31-1 becomes 1. *)
Definition timer_delay (ms : Z) : Z :=
  if (ms <? 1) || (2147483647 <? ms) then 1 else ms.

(** [await new Promise(r => setTimeout(r, ms))] *)
Definition sleep (ms : Z) : M unit :=
  fun w => (Ok tt, {| now := now w + timer_delay ms;
                      calls := calls w;
                      usageLogs := usageLogs w |}).

(** [Date.now()] *)
Definition Date_now : M Z := fun w => (Ok (now w), w).

Definition nowUnix : M Z := fun w => (Ok (now w / 1000), w).

Record FetchResult : Type := mkFetchResult {
  fr_ok : bool;
  fr_status : Z;
  fr_json : value
}.

(** [try { json = JSON.parse(text) } catch { json = { raw: text } }] *)
Definition body_json (b : Body) : value :=
  match b with
  | JsonDoc j => j
  | Raw text => VObj [("raw", VStr (string_of_list_byte text))]
  end.

Definition fetchJson (r : Request) : M FetchResult :=
  let* resp := fetch r in
  let json := body_json (body resp) in
  ret {| fr_ok := ok resp; fr_status := status resp; fr_json := json |}.

(** ** The usage log *)

Definition pushUsageLog (apiKey : string) (log : UsageLog)
    (logs : gmap string (list UsageLog)) : gmap string (list UsageLog) :=
  if String.eqb apiKey "" then logs else
  let keyHash := sha256Short apiKey in
  let arr := log :: default [] (logs !! keyHash) in
  let arr := if (2000 <? length arr)%nat then take 2000 arr else arr in
  <[keyHash := arr]> logs.

Definition logUsage (apiKey : string) (log : UsageLog) : M unit :=
  fun w => (Ok tt, {| now := now w;
                      calls := calls w;
                      usageLogs := pushUsageLog apiKey log (usageLogs w) |}).

(** ** KIE helpers *)

(** [mime.includes(x)] inside [extFromMime] when [mime] is not a string:
    an array tests membership, anything else has no such method. *)
Definition array_has (items : list value) (s : string) : bool :=
  existsb (fun x => is_str x s) items.

Definition extFromMime_value (mime : value) : M string :=
  if negb (truthy mime) then ret "bin" else
  match mime with
  | VStr s => ret (extFromMime s)
  | VArr items =>
      ret (if array_has items "png" then "png"
           else if array_has items "jpeg" || array_has items "jpg" then "jpg"
           else if array_has items "gif" then "gif"
           else if array_has items "webp" then "webp"
           else "bin")
  | _ => throw "mime.includes is not a function"
  end.

Definition upload_candidates : list string :=
  [ KIE_API_BASE ++ "/api/v1/files/upload";
    KIE_API_BASE ++ "/api/v1/file/upload";
    KIE_API_BASE ++ "/api/v1/upload" ].

(** the hosted URL of an upload answer, under its synonymous names *)
Definition upload_fileUrl (json : value) : value :=
  let data := coalesce (get json "data") json in
  or (get data "url")
    (or (get data "fileUrl")
       (or (get data "file_url")
          (or (get data "downloadUrl")
             (or (get data "download_url")
                (or (get data "resultUrl") (get data "result_url")))))).

Definition upload_failed_message : string :=
  "KIE file upload failed (unknown upload endpoint/response). You may need to set KIE_API_BASE or update upload endpoint candidates.".

(** one turn of the [for (const url of candidates)] loop of
    [kieUploadBuffer]: [Some u] is [return u], [None] goes to the next one *)
Definition kieUploadBuffer_try (apiKey : string) (name : string) (mime : value)
    (buffer : list byte) (url : string) : M (option string) :=
  try_catch
    (let* r := fetchJson (mkRequest "POST" url apiKey (FileBody name mime buffer)) in
     if negb (fr_ok r) then ret None
     else
       match upload_fileUrl (fr_json r) with
       | VStr fileUrl => if String.eqb fileUrl "" then ret None else ret (Some fileUrl)
       | _ => ret None
       end)
    (fun _ => ret None).

Fixpoint kieUploadBuffer_loop (apiKey : string) (name : string) (mime : value)
    (buffer : list byte) (candidates : list string) : M string :=
  match candidates with
  | [] => throw upload_failed_message
  | url :: rest =>
      let* r := kieUploadBuffer_try apiKey name mime buffer url in
      match r with
      | Some fileUrl => ret fileUrl
      | None => kieUploadBuffer_loop apiKey name mime buffer rest
      end
  end.

Definition kieUploadBuffer (apiKey : string) (buffer : list byte)
    (filename : string) (mimeType : value) : M string :=
  if String.eqb apiKey "" then throw "Missing APIKey"
  else if (length buffer =? 0)%nat then throw "Empty upload"
  else
    let mime := or mimeType (VStr (detectImageMime (Some buffer))) in
    let* name := if String.eqb filename ""
                 then (let* ext := extFromMime_value mime in ret ("upload." ++ ext))
                 else ret filename in
    (* [new Blob([buffer], { type: mime })] converts the type to text *)
    let* _ := converted (toString mime) in
    kieUploadBuffer_loop apiKey name mime buffer upload_candidates.

(** [json?.data?.taskId || json?.data?.task_id || json?.taskId || json?.task_id] *)
Definition taskId_of (json : value) : value :=
  or (get (get json "data") "taskId")
    (or (get (get json "data") "task_id")
       (or (get json "taskId") (get json "task_id"))).

Definition failure (what : string) (st : Z) (json : value) : string :=
  what ++ " (" ++ number_to_string st ++ "): " ++ JSON_stringify json.

Definition kieCreateTask (apiKey : string) (model : string) (input : value) : M value :=
  let url := KIE_API_BASE ++ "/api/v1/jobs/createTask" in
  let* r := fetchJson (mkRequest "POST" url apiKey
                         (JsonBody (VObj [("model", VStr model); ("input", input)]))) in
  if negb (fr_ok r) then throw (failure "KIE createTask failed" (fr_status r) (fr_json r))
  else
    let taskId := taskId_of (fr_json r) in
    if negb (truthy taskId)
    then throw ("KIE createTask: missing taskId: " ++ JSON_stringify (fr_json r))
    else ret taskId.

Definition kieRecordInfo (apiKey : string) (taskId : string) : M value :=
  let url := KIE_API_BASE ++ "/api/v1/jobs/recordInfo?taskId=" ++ encodeURIComponent taskId in
  let* r := fetchJson (mkRequest "GET" url apiKey NoBody) in
  if negb (fr_ok r) then throw (failure "KIE recordInfo failed" (fr_status r) (fr_json r))
  else ret (fr_json r).

Definition kieVeoGenerate (apiKey : string) (body : value) : M value :=
  let url := KIE_API_BASE ++ "/api/v1/veo/generate" in
  let* r := fetchJson (mkRequest "POST" url apiKey (JsonBody body)) in
  if negb (fr_ok r) then throw (failure "KIE Veo generate failed" (fr_status r) (fr_json r))
  else
    let taskId := taskId_of (fr_json r) in
    if negb (truthy taskId)
    then throw ("KIE Veo: missing taskId: " ++ JSON_stringify (fr_json r))
    else ret taskId.

Definition kieVeoRecordInfo (apiKey : string) (taskId : string) : M value :=
  let url := KIE_API_BASE ++ "/api/v1/veo/record-info?taskId=" ++ encodeURIComponent taskId in
  let* r := fetchJson (mkRequest "GET" url apiKey NoBody) in
  if negb (fr_ok r) then throw (failure "KIE Veo record-info failed" (fr_status r) (fr_json r))
  else ret (fr_json r).

(** ** Image generation: candidate endpoints and the synchronous wait *)

Record ImageEndpoint : Type := mkImageEndpoint { gen : string; rec : string }.

Definition image_candidates : list ImageEndpoint :=
  [ mkImageEndpoint (KIE_API_BASE ++ "/api/v1/gpt-image/generate")
                    (KIE_API_BASE ++ "/api/v1/gpt-image/record-info");
    mkImageEndpoint (KIE_API_BASE ++ "/api/v1/gpt-image/generate")
                    (KIE_API_BASE ++ "/api/v1/gpt-image/recordInfo");
    mkImageEndpoint (KIE_API_BASE ++ "/api/v1/image/generate")
                    (KIE_API_BASE ++ "/api/v1/image/record-info");
    mkImageEndpoint (KIE_API_BASE ++ "/api/v1/images/generate")
                    (KIE_API_BASE ++ "/api/v1/images/record-info") ].

Record ImageTask : Type := mkImageTask { taskId : value; recordBase : string }.

Definition image_failed_message : string :=
  "KIE image generate failed (unknown endpoint/response).".

(** one turn of the candidate loop of [kieImageGenerate] *)
Definition kieImageGenerate_try (apiKey : string) (body : value) (c : ImageEndpoint)
    : M (option ImageTask) :=
  try_catch
    (let* r := fetchJson (mkRequest "POST" (gen c) apiKey (JsonBody body)) in
     if negb (fr_ok r) then ret None
     else
       let t := taskId_of (fr_json r) in
       if truthy t then ret (Some (mkImageTask t (rec c))) else ret None)
    (fun _ => ret None).

Fixpoint kieImageGenerate_loop (apiKey : string) (body : value)
    (candidates : list ImageEndpoint) : M ImageTask :=
  match candidates with
  | [] => throw image_failed_message
  | c :: rest =>
      let* r := kieImageGenerate_try apiKey body c in
      match r with
      | Some task => ret task
      | None => kieImageGenerate_loop apiKey body rest
      end
  end.

Definition kieImageGenerate (apiKey : string) (body : value) : M ImageTask :=
  kieImageGenerate_loop apiKey body image_candidates.

Definition kieImageRecordInfo (apiKey : string) (recordBase : string) (taskId : value)
    : M value :=
  let* id := converted (toString taskId) in
  let url := recordBase ++ "?taskId=" ++ encodeURIComponent id in
  let* r := fetchJson (mkRequest "GET" url apiKey NoBody) in
  if negb (fr_ok r)
  then throw (failure "KIE image record-info failed" (fr_status r) (fr_json r))
  else ret (fr_json r).

Definition timed_out_message : string := "Image generation timed out".

(** [data?.errorMessage || data?.message || json?.msg || fallback],
    with [data = json?.data ?? {}] *)
Definition failure_message (json : value) (fallback : string) : value :=
  let data := coalesce (get json "data") (VObj []) in
  or (get data "errorMessage")
    (or (get data "message") (or (get json "msg") (VStr fallback))).

(** the result of a completed record in [waitForKieImageResult] *)
Definition completed_urls (json : value) : list value :=
  let data := coalesce (get json "data") (VObj []) in
  let response := coalesce (get data "response") (VObj []) in
  let urls := or (get response "resultUrls") (or (get response "result_urls") (VArr [])) in
  match urls with
  | VArr (u :: more) => u :: more
  | _ =>
      let first := extractFirstResultUrl json in
      if truthy first then [first] else []
  end.

(** The [while (Date.now() - start < IMAGE_SYNC_MAX_WAIT_MS)] loop; [fuel]
    bounds the number of turns and [Diverge] is the answer when it runs out. *)
Fixpoint waitForKieImageResult_loop (fuel : nat) (apiKey recordBase : string)
    (taskId : value) (start : Z) : M (list value) :=
  match fuel with
  | O => fun w => (Diverge, w)
  | S fuel' =>
      let* t := Date_now in
      if negb (t - start <? IMAGE_SYNC_MAX_WAIT_MS) then throw timed_out_message
      else
        let* json := kieImageRecordInfo apiKey recordBase taskId in
        let* st := converted (normalizeKieStatusToSimple json) in
        if String.eqb st "completed" then ret (completed_urls json)
        else if String.eqb st "failed"
        then throw_value (failure_message json "image generation failed")
        else
          let* _ := sleep IMAGE_SYNC_POLL_MS in
          waitForKieImageResult_loop fuel' apiKey recordBase taskId start
  end.

Definition waitForKieImageResult (fuel : nat) (apiKey recordBase : string)
    (taskId : value) : M (list value) :=
  let* start := Date_now in
  waitForKieImageResult_loop fuel apiKey recordBase taskId start.

(* ------------------------------------------------------------------ *)
(** ** Caller-facing routes *)
(* ------------------------------------------------------------------ *)

Record UploadedFile : Type := mkUploadedFile {
  buffer : list byte;
  originalname : string;
  mimetype : string
}.

(** An inbound request as a route handler sees it, after the body parsers:
    the [Authorization] header, [req.query] (an object), the route parameter
    ([req.params.taskId] or [req.params[0]]), [req.body] (the parsed JSON
    document, or the text fields of a form; [VUndef] when no parser has set
    it) and [req.files]. *)
Record Incoming : Type := mkIncoming {
  authorization : option string;
  query : value;
  param : string;
  payload : value;
  files : list UploadedFile
}.

(** What a handler sends: [res.status(code).json(content)], or the
    upstream's answer passed on, where [hdrs] lists the calls of
    [res.setHeader] in order and [content] is the body piped to the caller. *)
Inductive Reply : Type :=
| ReplyJson (code : Z) (content : value)
| ReplyStream (code : Z) (hdrs : list (string * string)) (content : Body).

(** [/^Bearer\s+(.+)$/i.exec(h)], then [m[1].trim()].  The pattern matches
    when white space follows the word and what follows the white space holds
    no line terminator; the flag [i] folds the ASCII letters only. *)
Definition getBearerToken (req : Incoming) : string :=
  let h := default "" (authorization req) in
  if String.eqb (toLowerCase (substring 0 6 h)) "bearer" then
    let rest := substring 6 (String.length h - 6) h in
    if starts_with_space rest then
      let token := trimStart rest in
      if has_line_terminator token then "" else trim token
    else ""
  else "".

(** [getApiKeyFromReq]; [None] when [String(req.query.key || '')] throws *)
Definition getApiKeyFromReq (req : Incoming) : option string :=
  let bearer := getBearerToken req in
  if negb (String.eqb bearer "") then Some bearer
  else option_map trim (toString (or (get (query req) "key") (VStr ""))).

(** [String(o.k || '').trim()]; [None] when the conversion throws *)
Definition text_field (o : value) (k : string) : option string :=
  option_map trim (toString (or (get o k) (VStr ""))).

Definition obj1 (k : string) (v : value) : value := VObj [(k, v)].

Definition missing_bearer : string := "Missing Authorization Bearer APIKey".

(** [catch (err) { return res.status(500).json({ k: String(err?.message || err) }) }] *)
Definition guarded (k : string) (m : M Reply) : M Reply :=
  try_catch m (fun e => ret (ReplyJson 500 (obj1 k (VStr (error_text e))))).

Definition optional_field (k : string) (s : string) : list (string * value) :=
  if String.eqb s "" then [] else [(k, VStr s)].

(** [POST /v1/videos].  The five fields of the body are read and converted
    before the [try]: a body that is not there, or a field that does not
    convert, makes the handler throw instead of replying. *)
Definition post_videos (req : Incoming) : M Reply :=
  let apiKey := getBearerToken req in
  if String.eqb apiKey "" then ret (ReplyJson 401 (obj1 "error" (VStr missing_bearer))) else
  if nullish (payload req) then throw (cannot_read (payload req) "model") else
  let* model := converted (text_field (payload req) "model") in
  let* prompt := converted (text_field (payload req) "prompt") in
  let* seconds := converted (text_field (payload req) "seconds") in
  let* size := converted (text_field (payload req) "size") in
  let* resolution := converted (text_field (payload req) "resolution") in
  let hasFile := negb (length (files req) =? 0)%nat in
  guarded "error"
    (if isVeoModel model then
       let* aspectRatio := converted (mapAspectRatio (VStr size)) in
       let kieModel := if includes (toLowerCase model) "fast" then "veo3_fast" else "veo3" in
       let* taskId := kieVeoGenerate apiKey
                        (VObj [("prompt", VStr prompt); ("model", VStr kieModel);
                               ("aspectRatio", VStr aspectRatio); ("imageUrls", VArr [])]) in
       let* t := nowUnix in
       let* _ := logUsage apiKey
                   (mkUsageLog t ("veo:" ++ kieModel) prompt 0 "/v1/videos" "create") in
       ret (ReplyJson 200 (VObj [("id", taskId); ("status", VStr "processing")]))
     else if isSoraModel model then
       let marketModel := mapSoraMarketModel model hasFile in
       let* aspect_ratio := converted (mapAspectRatio (VStr size)) in
       let input := ([("prompt", VStr prompt); ("aspect_ratio", VStr aspect_ratio)]
                     ++ optional_field "duration" seconds
                     ++ optional_field "resolution" resolution)%list in
       let* input :=
         match files req with
         | f :: _ =>
             let* fileUrl := kieUploadBuffer apiKey (buffer f) (originalname f)
                               (VStr (mimetype f)) in
             ret (input ++ [("image_urls", VArr [VStr fileUrl])])%list
         | [] => ret input
         end in
       let* taskId := kieCreateTask apiKey marketModel (VObj input) in
       let* t := nowUnix in
       let* _ := logUsage apiKey
                   (mkUsageLog t marketModel prompt (if hasFile then 1 else 0)
                      "/v1/videos" "create") in
       ret (ReplyJson 200 (VObj [("task_id", taskId); ("id", taskId);
                                 ("status", VStr "processing")]))
     else
       ret (ReplyJson 400
              (obj1 "error"
                 (VStr ("Unsupported model: " ++
                        (if String.eqb model "" then "(empty)" else model)))))).

(** [GET /v1/videos/:taskId] *)
Definition get_video (req : Incoming) : M Reply :=
  let apiKey := getBearerToken req in
  if String.eqb apiKey "" then ret (ReplyJson 401 (obj1 "error" (VStr missing_bearer))) else
  let taskId := param req in
  guarded "error"
    (if startsWith (toLowerCase taskId) "veo" then
       let* json := kieVeoRecordInfo apiKey taskId in
       let data := coalesce (get json "data") (VObj []) in
       let sf := get data "successFlag" in
       if is_num sf 1 then
         let url := or (first (or (get (get data "response") "resultUrls") (VArr []))) VNull in
         ret (ReplyJson 200 (VObj [("status", VStr "completed"); ("video_url", url);
                                   ("progress", VNum 1)]))
       else if is_num sf 2 || is_num sf 3 then
         ret (ReplyJson 200
                (VObj [("status", VStr "failed");
                       ("message", or (get data "errorMessage")
                                     (or (get json "msg") (VStr "generation failed")))]))
       else ret (ReplyJson 200 (VObj [("status", VStr "processing"); ("progress", VNum 0)]))
     else
       let* json := kieRecordInfo apiKey taskId in
       let* st := converted (normalizeKieStatusToSimple json) in
       let url := extractFirstResultUrl json in
       let data := coalesce (get json "data") (VObj []) in
       let progress := match get data "progress" with VNum p => VNum p | _ => VUndef end in
       if String.eqb st "completed" then
         ret (ReplyJson 200 (VObj [("status", VStr "completed"); ("video_url", url);
                                   ("progress", VNum 1)]))
       else if String.eqb st "failed" then
         ret (ReplyJson 200 (VObj [("status", VStr "failed");
                                   ("message", failure_message json "generation failed")]))
       else
         ret (ReplyJson 200 (VObj [("status", VStr "processing");
                                   ("progress", coalesce progress (VNum 0))]))).

Definition missing_bearer_kling : Reply :=
  ReplyJson 401 (obj1 "message" (VStr missing_bearer)).

(** [POST /kling/v1/videos/text2video] *)
Definition post_text2video (req : Incoming) : M Reply :=
  let apiKey := getBearerToken req in
  if String.eqb apiKey "" then ret missing_bearer_kling else
  guarded "message"
    (let body := or (payload req) (VObj []) in
     let* prompt := converted (text_field body "prompt") in
     let* aspect_ratio := converted (mapAspectRatio (get body "aspect_ratio")) in
     let* duration := converted (toString (or (get body "duration") (VStr "5"))) in
     let model := "kling-2.6/text-to-video" in
     let input := VObj [("prompt", VStr prompt); ("aspect_ratio", VStr aspect_ratio);
                        ("duration", VStr duration); ("sound", VBool false)] in
     let* taskId := kieCreateTask apiKey model input in
     let* t := nowUnix in
     let* _ := logUsage apiKey
                 (mkUsageLog t model prompt 0 "/kling/v1/videos/text2video" "create") in
     ret (ReplyJson 200 (obj1 "data" (obj1 "task_id" taskId)))).

(** [POST /kling/v1/videos/image2video] *)
Definition post_image2video (req : Incoming) : M Reply :=
  let apiKey := getBearerToken req in
  if String.eqb apiKey "" then ret missing_bearer_kling else
  guarded "message"
    (let body := or (payload req) (VObj []) in
     let* prompt := converted (text_field body "prompt") in
     let* duration := converted (toString (or (get body "duration") (VStr "5"))) in
     let aspect_ratio := "16:9" in
     let* b64 := converted (text_field body "image") in
     if String.eqb b64 "" then ret (ReplyJson 400 (obj1 "message" (VStr "Missing image (base64)")))
     else
       let buffer := base64_decode b64 in
       let mime := detectImageMime (Some buffer) in
       let* fileUrl := kieUploadBuffer apiKey buffer ("kling-input." ++ extFromMime mime)
                         (VStr mime) in
       let model := "kling-2.6/image-to-video" in
       let input := VObj [("prompt", VStr prompt); ("aspect_ratio", VStr aspect_ratio);
                          ("duration", VStr duration); ("sound", VBool false);
                          ("image_urls", VArr [VStr fileUrl])] in
       let* taskId := kieCreateTask apiKey model input in
       let* t := nowUnix in
       let* _ := logUsage apiKey
                   (mkUsageLog t model prompt 1 "/kling/v1/videos/image2video" "create") in
       ret (ReplyJson 200 (obj1 "data" (obj1 "task_id" taskId)))).

(** [GET /kling/v1/videos/text2video/:taskId] and
    [GET /kling/v1/videos/image2video/:taskId], which share one body *)
Definition get_kling_video (req : Incoming) : M Reply :=
  let apiKey := getBearerToken req in
  if String.eqb apiKey "" then ret missing_bearer_kling else
  let taskId := param req in
  guarded "message"
    (let* json := kieRecordInfo apiKey taskId in
     let* st := converted (normalizeKieStatusToSimple json) in
     let url := extractFirstResultUrl json in
     if String.eqb st "completed" then
       ret (ReplyJson 200
              (obj1 "data" (VObj [("task_status", VStr "succeed");
                                  ("task_result", obj1 "videos" (VArr [obj1 "url" url]))])))
     else if String.eqb st "failed" then
       ret (ReplyJson 200
              (obj1 "data" (VObj [("task_status", VStr "failed");
                                  ("task_status_msg", failure_message json "failed")])))
     else ret (ReplyJson 200 (obj1 "data" (obj1 "task_status" (VStr "processing"))))).

(** *** The Gemini-style route *)

Record InlineImage : Type := mkInlineImage { mime : value; data : value }.

Definition array_items (v : value) : list value :=
  match v with VArr items => items | _ => [] end.

Definition newline : string := String (ascii_of_nat 10) EmptyString.

(** the text a part contributes to [texts] *)
Definition part_text (p : value) : list string :=
  match get p "text" with
  | VStr t => if String.eqb (trim t) "" then [] else [trim t]
  | _ => []
  end.

(** the image a part contributes to [images] *)
Definition part_image (p : value) : list InlineImage :=
  let inline :=
    or (get p "inline_data")
       (if truthy (get p "inlineData")
        then VObj [("mime_type", get (get p "inlineData") "mimeType");
                   ("data", get (get p "inlineData") "data")]
        else VNull) in
  if truthy (get inline "data")
  then [mkInlineImage (or (get inline "mime_type") (VStr "image/png")) (get inline "data")]
  else [].

Definition gemini_parts (body : value) : list value :=
  flat_map (fun c => array_items (get c "parts")) (array_items (get body "contents")).

Definition extractGeminiTextAndInlineImages (body : value) : string * list InlineImage :=
  let parts := gemini_parts body in
  (trim (join (newline ++ newline) (flat_map part_text parts)), flat_map part_image parts).

Definition simplePromptPolish (text : string) : string :=
  if String.eqb text "" then "" else
  join newline
    [ "请将以下提示词优化为更适合生成高质量视频/图片的描述（保持原意，补充细节）：";
      "";
      text;
      "";
      "优化要点：主体清晰、场景/光线/镜头语言、风格、分辨率/画幅、避免违规内容。" ].

(** [Number(v)].  The outer [None] is the TypeError of the conversion, the
    inner one is [NaN]; an object or array is converted through its text. *)
Definition toNumber (v : value) : option (option Z) :=
  match v with
  | VUndef => Some None
  | VNull => Some (Some 0)
  | VBool b => Some (Some (if b then 1 else 0))
  | VNum n => Some (Some n)
  | VStr s => Some (Number_of_string s)
  | VArr _ => option_map Number_of_string (toString v)
  | VObj _ => option_map (fun _ => None) (toString v)
  end.

(** [resp.headers.get(name)] *)
Fixpoint header_get (name : string) (hs : list (string * string)) : option string :=
  match hs with
  | [] => None
  | (k, v) :: rest =>
      if String.eqb (toLowerCase k) name then Some v else header_get name rest
  end.

Definition fetchBinaryAsBase64 (url : value) : M (string * string) :=
  let* href := converted (toString url) in
  let* resp := fetch (mkRequest "GET" href "" NoBody) in
  if negb (ok resp)
  then throw ("Fetch file failed (" ++ number_to_string (status resp) ++ ")")
  else
    let buf := match body resp with
               | JsonDoc j => list_byte_of_string (JSON_stringify j)
               | Raw content => content
               end in
    let mime := match header_get "content-type" (headers resp) with
                | Some m => if String.eqb m "" then detectImageMime (Some buf) else m
                | None => detectImageMime (Some buf)
                end in
    ret (mime, base64_encode buf).

(** the upload loop over the inline images, [i] counting from [i0] *)
Fixpoint upload_inline_images (apiKey : string) (i0 : Z) (images : list InlineImage)
    : M (list string) :=
  match images with
  | [] => ret []
  | img :: rest =>
      let* text := converted (toString (data img)) in
      let buf := base64_decode text in
      let mime := or (mime img) (VStr (detectImageMime (Some buf))) in
      let* ext := extFromMime_value mime in
      let* url := kieUploadBuffer apiKey buf
                    ("gemini-inline-" ++ number_to_string i0 ++ "." ++ ext) mime in
      let* urls := upload_inline_images apiKey (i0 + 1) rest in
      ret (url :: urls)
  end.

(** the download loop over [urls.slice(0, n)] *)
Fixpoint fetch_results (urls : list value) : M (list value) :=
  match urls with
  | [] => ret []
  | u :: rest =>
      let* file := fetchBinaryAsBase64 u in
      let* parts := fetch_results rest in
      ret (obj1 "inline_data" (VObj [("mime_type", VStr (fst file));
                                     ("data", VStr (snd file))]) :: parts)
  end.

Definition text_candidate (text : string) : value :=
  obj1 "candidates" (VArr [obj1 "content" (obj1 "parts" (VArr [obj1 "text" (VStr text)]))]).

Definition generate_path (modelId : string) : string :=
  "/v1beta/models/" ++ modelId ++ ":generateContent".

(** [POST /v1beta/models/<model>:generateContent]; [fuel] bounds the wait loop *)
Definition post_generateContent (fuel : nat) (req : Incoming) : M Reply :=
  let* apiKey := converted (getApiKeyFromReq req) in
  if String.eqb apiKey ""
  then ret (ReplyJson 401 (obj1 "error" (VStr "Missing APIKey (Authorization Bearer or ?key=...)")))
  else
  let modelId := param req in
  let body := or (payload req) (VObj []) in
  let '(prompt, images) := extractGeminiTextAndInlineImages body in
  let responseModalities := array_items (get (get body "generationConfig") "responseModalities") in
  let wantsImage := array_has responseModalities "IMAGE"
                    || includes (toLowerCase modelId) "image" in
  guarded "error"
    (if negb wantsImage && (length images =? 0)%nat then
       let polished := simplePromptPolish prompt in
       let* t := nowUnix in
       let* _ := logUsage apiKey
                   (mkUsageLog t
                      ("local-prompt-polish:" ++
                         (if String.eqb modelId "" then "text" else modelId))
                      prompt 0 (generate_path modelId) "text") in
       ret (ReplyJson 200
              (text_candidate (if negb (String.eqb polished "") then polished else prompt)))
     else
       let candidateCount := get (get body "generationConfig") "candidateCount" in
       let* count := converted (toNumber (or candidateCount (VNum 1))) in
       let n := match count with
                | Some k => Some (Z.min 4 (Z.max 1 k))
                | None => None
                end in
       let* filesUrl := upload_inline_images apiKey 0 images in
       let* task := kieImageGenerate apiKey
                      (VObj [("prompt", VStr (if String.eqb prompt ""
                                              then "Generate an image" else prompt));
                             ("n", match n with Some k => VNum k | None => VNull end);
                             ("size", or (get (get body "generationConfig") "imageSize")
                                         (VStr "1024x1024"));
                             ("filesUrl", VArr (List.map VStr filesUrl))]) in
       let* t := nowUnix in
       let* _ := logUsage apiKey
                   (mkUsageLog t
                      ("kie-image:" ++ (if String.eqb modelId "" then "image" else modelId))
                      prompt (Z.of_nat (length filesUrl)) (generate_path modelId) "image-create") in
       let* urls := waitForKieImageResult fuel apiKey (recordBase task) (taskId task) in
       let wanted := match n with Some k => take (Z.to_nat k) urls | None => [] end in
       let* parts := fetch_results wanted in
       ret (ReplyJson 200
              (obj1 "candidates"
                 (VArr [obj1 "content"
                          (obj1 "parts" (VArr (obj1 "text" (VStr "✅ 生成完成") :: parts)))])))).

(** *** The chat proxy *)

Definition chat_candidates : list string :=
  [ KIE_API_BASE ++ "/v1/chat/completions";
    KIE_API_BASE ++ "/api/v1/chat/completions" ].

Definition chat_unavailable : string :=
  "Chat endpoint is not available on this KIE base. If KIE provides OpenAI-compatible chat, set KIE_API_BASE to that host/path.".

(** One turn of the loop over the upstream chat candidates.  The model name
    of the log entry is converted inside the [try], after the answer has
    come: when that throws, nothing is logged or sent and the loop goes on
    to the next candidate. *)
Definition chat_try (apiKey : string) (req : Incoming) (url : string) : M (option Reply) :=
  try_catch
    (let* upstreamResp := fetch (mkRequest "POST" url apiKey
                                   (JsonBody (or (payload req) (VObj [])))) in
     if status upstreamResp =? 404 then ret None
     else
       let hdrs := List.filter
                     (fun kv => negb (String.eqb (toLowerCase (fst kv)) "content-encoding"))
                     (headers upstreamResp) in
       let* t := nowUnix in
       let* model_name := converted (toString (or (get (payload req) "model") (VStr "chat"))) in
       let* _ := logUsage apiKey
                   (mkUsageLog t model_name "(chat)" 0 "/v1/chat/completions" "chat") in
       ret (Some (ReplyStream (status upstreamResp) hdrs (body upstreamResp))))
    (fun _ => ret None).

Fixpoint chat_loop (apiKey : string) (req : Incoming) (candidates : list string) : M Reply :=
  match candidates with
  | [] => ret (ReplyJson 502 (obj1 "error" (VStr chat_unavailable)))
  | url :: rest =>
      let* r := chat_try apiKey req url in
      match r with
      | Some reply => ret reply
      | None => chat_loop apiKey req rest
      end
  end.

(** [POST /v1/chat/completions] *)
Definition post_chat_completions (req : Incoming) : M Reply :=
  let apiKey := getBearerToken req in
  if String.eqb apiKey "" then ret (ReplyJson 401 (obj1 "error" (VStr missing_bearer))) else
  chat_loop apiKey req chat_candidates.

(** *** The routing table of the compatibility layer *)

Inductive Route : Type :=
| PostVideos
| GetVideo
| PostText2Video
| GetText2Video
| PostImage2Video
| GetImage2Video
| PostGenerateContent
| PostChatCompletions.

Definition app (fuel : nat) (route : Route) (req : Incoming) : M Reply :=
  match route with
  | PostVideos => post_videos req
  | GetVideo => get_video req
  | PostText2Video => post_text2video req
  | GetText2Video => get_kling_video req
  | PostImage2Video => post_image2video req
  | GetImage2Video => get_kling_video req
  | PostGenerateContent => post_generateContent fuel req
  | PostChatCompletions => post_chat_completions req
  end.

End Server.

(* ================================================================== *)
(** * The rewrite in front of the routes *)
(* ================================================================== *)

Definition STRIP_API_PREFIXES : list string :=
  [ "/v1"; "/v1beta"; "/sora"; "/veo"; "/kling";
    "/uploads"; "/scripts"; "/styles"; "/images"; "/assets";
    "/gemini"; "/zhinengti"; "/kling-video" ].

(** [s.slice(n)] *)
Fixpoint slice_from (n : nat) (s : string) : string :=
  match n, s with
  | O, _ => s
  | S n', String _ rest => slice_from n' rest
  | S _, EmptyString => EmptyString
  end.

(** [s.split('?')[0]] *)
Fixpoint before_question (s : string) : string :=
  match s with
  | EmptyString => EmptyString
  | String c rest => if Ascii.eqb c "?" then EmptyString else String c (before_question rest)
  end.

(** the prefix test of the rewrite: [pathname === p || pathname.startsWith(p + '/')] *)
Definition under_prefix (pathname p : string) : bool :=
  String.eqb pathname p || startsWith pathname (p ++ "/").

(** the middleware that strips a leading [/api]; the result is the new [req.url] *)
Definition strip_api_prefix (url : string) : string :=
  if negb (String.eqb url "") && startsWith url "/api/" then
    let rest := slice_from 4 url in
    let pathname := before_question rest in
    if negb (String.eqb pathname "/health")
       && negb (startsWith pathname "/proxy/")
       && existsb (under_prefix pathname) STRIP_API_PREFIXES
    then (if String.eqb rest "" then "/" else rest)
    else url
  else url.

(* ================================================================== *)
(** * The credit route *)
(* ================================================================== *)

Section CreditRoute.

Context `{Platform}.

Definition credit_candidates : list string :=
  [ KIE_API_BASE ++ "/api/v1/chat/credit";
    KIE_API_BASE ++ "/api/v1/user/credits";
    KIE_API_BASE ++ "/api/v1/user/credit" ].

(** [data?.credit ?? data?.credits ?? ... ?? null], with [data = json?.data ?? json] *)
Definition credit_of (json : value) : value :=
  let data := coalesce (get json "data") json in
  coalesce (get data "credit")
    (coalesce (get data "credits")
       (coalesce (get data "balance")
          (coalesce (get data "remaining")
             (coalesce (get data "remain")
                (coalesce (get data "quota") VNull))))).

Definition used_of (json : value) : value :=
  let data := coalesce (get json "data") json in
  coalesce (get data "used")
    (coalesce (get data "usedCredit")
       (coalesce (get data "used_credits")
          (coalesce (get data "used_quota") VNull))).

Definition credit_reply (json : value) : Reply :=
  ReplyJson 200
    (VObj [("success", VBool true);
           ("data", VObj [("credit", credit_of json); ("used", used_of json)])]).

Definition credit_request (apiKey url : string) : Request :=
  mkRequest "GET" url apiKey NoBody.

(** one turn of the loop over the credit candidates *)
Definition token_info_try (apiKey url : string) : M (option Reply) :=
  try_catch
    (let* r := fetchJson (credit_request apiKey url) in
     if negb (fr_ok r) then ret None
     else ret (Some (credit_reply (fr_json r))))
    (fun _ => ret None).

Definition credit_unreachable : Reply :=
  ReplyJson 502
    (VObj [("success", VBool false);
           ("message",
            VStr "Unable to fetch credits from KIE (credit endpoint not reachable).")]).

Fixpoint token_info_loop (apiKey : string) (candidates : list string) : M Reply :=
  match candidates with
  | [] => ret credit_unreachable
  | url :: rest =>
      let* r := token_info_try apiKey url in
      match r with
      | Some reply => ret reply
      | None => token_info_loop apiKey rest
      end
  end.

(** [GET /api/proxy/token/info] *)
Definition get_token_info (req : Incoming) : M Reply :=
  let apiKey := getBearerToken req in
  if String.eqb apiKey ""
  then ret (ReplyJson 401 (VObj [("success", VBool false); ("message", VStr missing_bearer)]))
  else token_info_loop apiKey credit_candidates.

(** the document a credit answer is accepted with: any success status will do *)
Definition credit_verdict (o : Outcome) : option value :=
  match o with
  | Rejected _ => None
  | Resolved resp => if ok resp then Some (body_json (body resp)) else None
  end.

(** the call the chat proxy makes to a candidate *)
Definition chat_upstream_request (apiKey : string) (req : Incoming) (url : string) : Request :=
  mkRequest "POST" url apiKey (JsonBody (or (payload req) (VObj []))).

(** the answer the chat proxy goes on with, if it does: any answer but a 404 *)
Definition chat_verdict (o : Outcome) : option Response :=
  match o with
  | Rejected _ => None
  | Resolved resp => if status resp =? 404 then None else Some resp
  end.

(** the headers of an upstream answer without [content-encoding] *)
Definition without_encoding (hdrs : list (string * string)) : list (string * string) :=
  List.filter (fun kv => negb (String.eqb (toLowerCase (fst kv)) "content-encoding")) hdrs.

(** the model name the chat proxy logs, [String(req.body?.model || 'chat')] *)
Definition chat_model_name (req : Incoming) : option string :=
  toString (or (get (payload req) "model") (VStr "chat")).

(** the record lookups of the poll routes *)
Definition record_request (apiKey taskId : string) : Request :=
  mkRequest "GET" (KIE_API_BASE ++ "/api/v1/jobs/recordInfo?taskId=" ++ encodeURIComponent taskId)
    apiKey NoBody.

Definition veo_record_request (apiKey taskId : string) : Request :=
  mkRequest "GET" (KIE_API_BASE ++ "/api/v1/veo/record-info?taskId=" ++ encodeURIComponent taskId)
    apiKey NoBody.

(** the one lookup a poll route makes for [taskId] *)
Definition poll_route_request (route : Route) (apiKey taskId : string) : Request :=
  match route with
  | GetVideo =>
      if startsWith (toLowerCase taskId) "veo"
      then veo_record_request apiKey taskId
      else record_request apiKey taskId
  | _ => record_request apiKey taskId
  end.

(** Whether a poll route can read the record it looked up.  The Veo lookup
    of the video route reads the sentinel only; every other lookup is
    normalised, which converts the text state of the record. *)
Definition record_readable (route : Route) (taskId : string) (json : value) : bool :=
  match route with
  | GetVideo =>
      startsWith (toLowerCase taskId) "veo" || converts (normalizeKieStatusToSimple json)
  | _ => converts (normalizeKieStatusToSimple json)
  end.

(** the record fetcher answers pending, within [limit] ms, as long as fewer
    than [n] calls have been made, and answers [json] once [n] have *)
Definition pending_until (r : Request) (n : nat) (limit : Z) : Prop :=
  forall history t,
    (length history < n)%nat ->
    exists resp elapsed,
      serve history t r = (Resolved resp, elapsed) /\
      ok resp = true /\
      normalizeKieStatusToSimple (body_json (body resp)) = Some "processing" /\
      0 <= elapsed <= limit.

Definition settles_at (r : Request) (n : nat) (json : value) : Prop :=
  forall history t,
    length history = n ->
    exists resp elapsed,
      serve history t r = (Resolved resp, elapsed) /\
      ok resp = true /\
      body_json (body resp) = json.

End CreditRoute.

(* ------------------------------------------------------------------ *)
(** ** Results and ledgers of computations *)
(* ------------------------------------------------------------------ *)

(** [m] never runs out of fuel *)
Definition halts {A} (m : M A) : Prop := forall w, fst (m w) <> Diverge.

(** [m] never runs out of fuel and leaves the ledger as it found it *)
Definition quiet {A} (m : M A) : Prop :=
  forall w, fst (m w) <> Diverge /\ usageLogs (snd (m w)) = usageLogs w.

(** the ledger after a create route: one more entry of kind [create] for
    [apiKey] when the reply is 200, untouched otherwise *)
Definition logged_iff_accepted `{Platform} (apiKey : string) (w : World)
    (result : Result Reply * World) : Prop :=
  match result with
  | (Ok (ReplyJson code _), w') =>
      (code = 200 /\
       exists log, kind log = "create" /\
                   usageLogs w' = pushUsageLog apiKey log (usageLogs w)) \/
      (code <> 200 /\ usageLogs w' = usageLogs w)
  | (Ok (ReplyStream _ _ _), _) => False
  | (Throw _, w') => usageLogs w' = usageLogs w
  | (Diverge, _) => False
  end.

(** started with the ledger of [w0], [m] ends as [logged_iff_accepted] says *)
Definition accepting `{Platform} (apiKey : string) (w0 : World) (m : M Reply) : Prop :=
  forall w, usageLogs w = usageLogs w0 -> logged_iff_accepted apiKey w0 (m w).

(** the fields [POST /v1/videos] converts before its [try] *)
Definition video_fields : list string := ["model"; "prompt"; "seconds"; "size"; "resolution"].

(** the body of [POST /v1/videos] can be read: it is there, and each of the
    five fields converts to text *)
Definition videos_body_readable (b : value) : bool :=
  negb (nullish b) && forallb (fun k => converts (text_field b k)) video_fields.

(** the inline images of a Gemini-style reply *)
Definition reply_images (reply : Reply) : list value :=
  match reply with
  | ReplyJson _ content =>
      List.filter (fun part => truthy (get part "inline_data"))
        (array_items (get (get (first (get content "candidates")) "content") "parts"))
  | ReplyStream _ _ _ => []
  end.

(** whenever [m] ends with a reply, the reply holds at most four images *)
Definition at_most_four_images (m : M Reply) : Prop :=
  forall w reply w', m w = (Ok reply, w') -> (length (reply_images reply) <= 4)%nat.

(* ================================================================== *)
(** * Vocabulary of the properties *)
(* ================================================================== *)


(** the byte signatures [detectImageMime] looks for *)
Definition png_signature : list byte := [x89; x50; x4e; x47].
Definition jpeg_signature : list byte := [xff; xd8; xff].
Definition gif_signature : list byte := [x47; x49; x46].
Definition riff_signature : list byte := [x52; x49; x46; x46].
Definition webp_tag : list byte := [x57; x45; x42; x50].

(** a RIFF container whose form type is WEBP: RIFF, four size bytes, WEBP *)
Definition riff_webp_header (b : list byte) : Prop :=
  exists size rest, length size = 4%nat /\
    b = (riff_signature ++ size ++ webp_tag ++ rest)%list.

(** a record as the market endpoints answer it while a job runs, and the
    record that carries both a failure sentinel and a success text *)
Definition queued_record : value :=
  VObj [("code", VNum 200); ("data", VObj [("taskId", VStr "t-1"); ("state", VStr "queued")])].




(** a parsed object that cannot be converted to text: its own [toString]
    member hides the inherited method and cannot be called *)
Definition no_text : value := VObj [("toString", VNum 1)].

(** records whose text state is such an object, without and with a sentinel *)
Definition unreadable_state : value := VObj [("data", VObj [("state", no_text)])].


(** a no-break space, U+00A0 *)
Definition nbsp : string := String (ascii_of_nat 194) (String (ascii_of_nat 160) EmptyString).

(* ------------------------------------------------------------------ *)
(** ** The usage ledger over time *)
(* ------------------------------------------------------------------ *)

Section Ledger.

Context `{Platform}.

(** appending the entries one after the other, oldest first *)
Definition appendAll (apiKey : string) (entries : list UsageLog)
    (logs : gmap string (list UsageLog)) : gmap string (list UsageLog) :=
  foldl (fun acc log => pushUsageLog apiKey log acc) logs entries.

(** [appended logs logs']: [logs'] comes from [logs] by appends alone *)
Inductive appended (logs : gmap string (list UsageLog))
    : gmap string (list UsageLog) -> Prop :=
| appended_none : appended logs logs
| appended_push apiKey log logs' :
    appended logs logs' -> appended logs (pushUsageLog apiKey log logs').

(** the ledger of [w'] comes from that of [w] by appends alone *)
Definition ledger_grows (w w' : World) : Prop := appended (usageLogs w) (usageLogs w').

(** [extended logs logs']: said without [pushUsageLog], what appends do to a
    ledger.  Under every credential hash the sequence is the one it was, or
    it is new entries in front of the one it was, cut to 2000. *)
Definition extended (logs logs' : gmap string (list UsageLog)) : Prop :=
  forall keyHash,
    logs' !! keyHash = logs !! keyHash \/
    exists new, new <> [] /\
      logs' !! keyHash = Some (take 2000 (new ++ default [] (logs !! keyHash))).

(** every credential hash holds at most 2000 entries *)
Definition bounded (logs : gmap string (list UsageLog)) : Prop :=
  forall keyHash arr, logs !! keyHash = Some arr -> (length arr <= 2000)%nat.

End Ledger.

(* ------------------------------------------------------------------ *)
(** ** Relating the world before and after a computation *)
(* ------------------------------------------------------------------ *)

(** [preserves R m]: running [m] takes every world to an [R]-related one,
    whatever it returns or throws. *)
Definition preserves (R : World -> World -> Prop) {A} (m : M A) : Prop :=
  forall w, R w (snd (m w)).

(** the calls a computation added to the log, most recent first *)
Definition issued (w w' : World) (new : list (Z * Request)) : Prop :=
  calls w' = (new ++ calls w)%list.

(** every call added to the log satisfies [P] *)
Definition issued_only (P : Request -> Prop) (w w' : World) : Prop :=
  exists new, issued w w' new /\ Forall (fun c => P (snd c)) new.

(** the aspect ratio a JSON job submission carries in its input *)
Definition carries_aspect (a : string) (r : Request) : Prop :=
  forall v, req_body r = JsonBody v -> get (get v "input") "aspect_ratio" = VStr a.

(* ------------------------------------------------------------------ *)
(** ** The upstream seen from outside *)
(* ------------------------------------------------------------------ *)

Section Upstream.

Context `{Platform}.

(** what the upstream answers to [r] in world [w], and the world after *)
Definition outcome_of (w : World) (r : Request) : Outcome :=
  fst (serve (calls w) (now w) r).

Definition after_call (w : World) (r : Request) : World :=
  {| now := now w + snd (serve (calls w) (now w) r);
     calls := (now w, r) :: calls w;
     usageLogs := usageLogs w |}.

Fixpoint after_calls (w : World) (rs : list Request) : World :=
  match rs with
  | [] => w
  | r :: rest => after_calls (after_call w r) rest
  end.

(** every request of [rs], issued in order from [w], gets an answer the
    prober passes over *)
Fixpoint all_skipped {X} (verdict : Outcome -> option X) (w : World)
    (rs : list Request) : Prop :=
  match rs with
  | [] => True
  | r :: rest => verdict (outcome_of w r) = None /\ all_skipped verdict (after_call w r) rest
  end.

Definition upload_request (apiKey name : string) (mime : value) (content : list byte)
    (url : string) : Request :=
  mkRequest "POST" url apiKey (FileBody name mime content).

(** the hosted URL an upload answer is accepted with, if it is accepted *)
Definition upload_verdict (o : Outcome) : option string :=
  match o with
  | Rejected _ => None
  | Resolved resp =>
      if ok resp then
        match upload_fileUrl (body_json (body resp)) with
        | VStr fileUrl => if String.eqb fileUrl "" then None else Some fileUrl
        | _ => None
        end
      else None
  end.

Definition generate_request (apiKey : string) (body : value) (c : ImageEndpoint) : Request :=
  mkRequest "POST" (gen c) apiKey (JsonBody body).

(** the task id an image-generation answer is accepted with, if it is *)
Definition generate_verdict (o : Outcome) : option value :=
  match o with
  | Rejected _ => None
  | Resolved resp =>
      if ok resp && truthy (taskId_of (body_json (body resp)))
      then Some (taskId_of (body_json (body resp)))
      else None
  end.

(** the record lookup of the wait, for a task id whose text is [id] *)
Definition poll_request (apiKey recordBase id : string) : Request :=
  mkRequest "GET" (recordBase ++ "?taskId=" ++ encodeURIComponent id) apiKey NoBody.

(** the record fetcher answers every poll, at any time and after any
    history, with a success status and a record that normalises to
    [processing], and takes no negative time to do so *)
Definition always_pending (r : Request) : Prop :=
  forall history t,
    exists resp elapsed,
      serve history t r = (Resolved resp, elapsed) /\
      ok resp = true /\
      normalizeKieStatusToSimple (body_json (body resp)) = Some "processing" /\
      0 <= elapsed.

(** poll times, oldest first, at least [delay] apart *)
Fixpoint spaced (delay : Z) (times : list Z) : Prop :=
  match times with
  | t1 :: (t2 :: _) as rest => t1 + delay <= t2 /\ spaced delay rest
  | _ => True
  end.

(** The clock readings of the wait loop, one per turn.  A turn that reads
    [t] after the calls of [history] polls [r] at [t]; the next turn reads
    the clock when the answer has come and the timer of [IMAGE_SYNC_POLL_MS]
    has run.  [times] are the readings that were followed by a poll and
    [stop] is the reading that ended the loop. *)
Fixpoint paced (r : Request) (history : list (Z * Request)) (t : Z)
    (times : list Z) (stop : Z) : Prop :=
  match times with
  | [] => stop = t
  | t1 :: rest =>
      t1 = t /\
      paced r ((t, r) :: history)
        (t + snd (serve history t r) + timer_delay IMAGE_SYNC_POLL_MS) rest stop
  end.

(** how the wait ends on a record that is not pending *)
Definition settled (json : value) : Result (list value) :=
  match normalizeKieStatusToSimple json with
  | None => Throw cannot_convert
  | Some st =>
      if String.eqb st "completed" then Ok (completed_urls json)
      else
        match toString (failure_message json "image generation failed") with
        | Some message => Throw message
        | None => Throw cannot_convert
        end
  end.

(** the job submission of the vendor routes *)
Definition createTask_request (apiKey model : string) (input : value) : Request :=
  mkRequest "POST" (KIE_API_BASE ++ "/api/v1/jobs/createTask") apiKey
    (JsonBody (VObj [("model", VStr model); ("input", input)])).

(** [req] with [aspect_ratio] set to [a] in its body *)
Definition with_aspect_ratio (a : value) (req : Incoming) : Incoming :=
  match payload req with
  | VObj fields =>
      mkIncoming (authorization req) (query req) (param req)
        (VObj (("aspect_ratio", a) :: fields)) (files req)
  | _ => req
  end.

End Upstream.

(* ------------------------------------------------------------------ *)
(** ** Stub deployments for the examples *)
(* ------------------------------------------------------------------ *)

(** A deployment around a scripted upstream; the built-ins are stand-ins. *)
Definition stub (upstream : list (Z * Request) -> Z -> Request -> Outcome * Z)
    (max_wait poll : Z) : Platform :=
  {| serve := upstream;
     JSON_stringify := fun v => default "" (toString v);
     Number_of_string := fun _ => None;
     sha256Short := fun s => "#" ++ s;
     base64_decode := list_byte_of_string;
     base64_encode := string_of_list_byte;
     encodeURIComponent := fun s => s;
     KIE_API_BASE := "https://api.kie.ai";
     IMAGE_SYNC_MAX_WAIT_MS := max_wait;
     IMAGE_SYNC_POLL_MS := poll |}.

Definition answer (code : Z) (document : value) : Outcome :=
  Resolved (mkResponse code [] (JsonDoc document)).

(** an upstream that cannot be reached *)
Definition offline : list (Z * Request) -> Z -> Request -> Outcome * Z :=
  fun _ _ _ => (Rejected "connect ECONNREFUSED", 1).

Definition offline_deployment : Platform := stub offline 180000 2000.

(** an upstream that answers by URL alone, each call taking 40 ms *)
Fixpoint scripted_answer (table : list (string * Outcome)) (url : string) : Outcome :=
  match table with
  | [] => Rejected "getaddrinfo ENOTFOUND"
  | (u, o) :: rest => if String.eqb u url then o else scripted_answer rest url
  end.

Definition scripted (table : list (string * Outcome))
    : list (Z * Request) -> Z -> Request -> Outcome * Z :=
  fun _ _ r => (scripted_answer table (req_url r), 40).

(** the first upload route is unknown (404), the second hosts the file;
    the first image route is unreachable, the third accepts the job *)
Definition second_route_works : Platform :=
  stub (scripted
          [ ("https://api.kie.ai/api/v1/files/upload",
             answer 404 (VObj [("msg", VStr "not found")]));
            ("https://api.kie.ai/api/v1/file/upload",
             answer 200 (VObj [("data", VObj [("url", VStr "https://cdn.kie.ai/f/1.png")])]));
            ("https://api.kie.ai/api/v1/image/generate",
             answer 200 (VObj [("data", VObj [("taskId", VStr "img-1")])])) ])
       180000 2000.

(** the first upload route answers 200 without any URL, the second hosts
    the file *)
Definition first_route_empty : Platform :=
  stub (scripted
          [ ("https://api.kie.ai/api/v1/files/upload", answer 200 (VObj [("code", VNum 200)]));
            ("https://api.kie.ai/api/v1/file/upload",
             answer 200 (VObj [("data", VObj [("url", VStr "https://cdn.kie.ai/f/1.png")])])) ])
       180000 2000.

Definition png_bytes : list byte := [x89; x50; x4e; x47; x0d; x0a; x1a; x0a].

(** three image jobs: the first never leaves the [generating] state, the
    second has failed and its record names no error, the third has failed
    and the upstream words its error as the server words a time-out; the
    wait budget is 5 s *)
Definition bare_failure : value := VObj [("data", VObj [("successFlag", VNum 2)])].

Definition failure_worded_as_time_out : value :=
  VObj [("data", VObj [("state", VStr "failed");
                       ("errorMessage", VStr "Image generation timed out")])].

Definition image_jobs : Platform :=
  stub (scripted
          [ ("https://api.kie.ai/api/v1/image/record-info?taskId=img-1",
             answer 200 (VObj [("data", VObj [("state", VStr "generating")])]));
            ("https://api.kie.ai/api/v1/image/record-info?taskId=img-2",
             answer 200 bare_failure);
            ("https://api.kie.ai/api/v1/image/record-info?taskId=img-3",
             answer 200 failure_worded_as_time_out) ])
       5000 2000.

(** job creation succeeds on every route *)
Definition accepts_jobs : Platform :=
  stub (scripted
          [ ("https://api.kie.ai/api/v1/files/upload",
             answer 200 (VObj [("data", VObj [("url", VStr "https://cdn.kie.ai/f/1.png")])]));
            ("https://api.kie.ai/api/v1/jobs/createTask",
             answer 200 (VObj [("data", VObj [("taskId", VStr "task-9")])])) ])
       180000 2000.

(** a vendor request that asks for a portrait clip *)
Definition portrait_request : Incoming :=
  mkIncoming (Some "Bearer key-1") (VObj []) ""
    (VObj [("prompt", VStr "a cat"); ("aspect_ratio", VStr "9:16");
           ("duration", VStr "5"); ("image", VStr "iVBORw0KGgo=")]) [].

(** a text-only Gemini request addressed to an image model *)
Definition image_model_request : Incoming :=
  mkIncoming (Some "Bearer key-1") (VObj []) "gemini-2.5-flash-image"
    (VObj [("contents", VArr [VObj [("parts", VArr [VObj [("text", VStr "a cat")]])]])]) [].

(** the same request addressed to a text model *)
Definition text_model_request : Incoming :=
  mkIncoming (Some "Bearer key-1") (VObj []) "gemini-2.5-flash"
    (VObj [("contents", VArr [VObj [("parts", VArr [VObj [("text", VStr "a cat")]])]])]) [].

(** the job is still generating for the first [k] calls and settles with
    [final] from then on *)
Definition settles_after (k : nat) (final : value) : Platform :=
  stub (fun history _ _ =>
          if (length history <? k)%nat
          then (answer 200 (VObj [("data", VObj [("state", VStr "generating")])]), 40)
          else (answer 200 final, 40))
       180000 2000.

Definition failed_record : value :=
  VObj [("data", VObj [("successFlag", VNum 3); ("errorMessage", VStr "content policy")])].

(** a failed job whose error value cannot be converted to text *)
Definition unspeakable_failure : value :=
  VObj [("data", VObj [("successFlag", VNum 3); ("errorMessage", no_text)])].

(** the upstream knows one finished market job, one failed one, and one
    whose record has a text state that cannot be converted *)
Definition poll_desk : Platform :=
  stub (scripted
          [ ("https://api.kie.ai/api/v1/jobs/recordInfo?taskId=task-9",
             answer 200 (VObj [("data", VObj [("state", VStr "success");
                                              ("resultUrls", VArr [VStr "https://a/9.mp4"])])]));
            ("https://api.kie.ai/api/v1/jobs/recordInfo?taskId=task-7",
             answer 200 failed_record);
            ("https://api.kie.ai/api/v1/jobs/recordInfo?taskId=task-5",
             answer 200 unreadable_state) ])
       180000 2000.

Definition poll_of (taskId : string) : Incoming :=
  mkIncoming (Some "Bearer key-1") (VObj []) taskId VNull [].

(** image generation works: the job is accepted by the first candidate,
    its record is completed with six result URLs, and every file downloads *)
Definition six_results : value :=
  VObj [("data", VObj [("successFlag", VNum 1);
                       ("response",
                        VObj [("resultUrls",
                               VArr [VStr "https://a/1.png"; VStr "https://a/2.png";
                                     VStr "https://a/3.png"; VStr "https://a/4.png";
                                     VStr "https://a/5.png"; VStr "https://a/6.png"])])])].

Definition png_file : Outcome :=
  Resolved (mkResponse 200 [("content-type", "image/png")] (Raw png_bytes)).

Definition image_studio : Platform :=
  stub (scripted
          [ ("https://api.kie.ai/api/v1/gpt-image/generate",
             answer 200 (VObj [("data", VObj [("taskId", VStr "img-1")])]));
            ("https://api.kie.ai/api/v1/gpt-image/record-info?taskId=img-1",
             answer 200 six_results);
            ("https://a/1.png", png_file); ("https://a/2.png", png_file);
            ("https://a/3.png", png_file); ("https://a/4.png", png_file);
            ("https://a/5.png", png_file); ("https://a/6.png", png_file) ])
       180000 2000.

(** a request for ten images *)
Definition ten_images_request : Incoming :=
  mkIncoming (Some "Bearer key-1") (VObj []) "gemini-2.5-flash-image"
    (VObj [("contents", VArr [VObj [("parts", VArr [VObj [("text", VStr "a cat")]])]]);
           ("generationConfig", VObj [("candidateCount", VNum 10)])]) [].

(** the first chat route is unknown (404), the second streams a compressed
    answer *)
Definition chat_desk : Platform :=
  stub (scripted
          [ ("https://api.kie.ai/v1/chat/completions",
             Resolved (mkResponse 404 [] (Raw [])));
            ("https://api.kie.ai/api/v1/chat/completions",
             Resolved (mkResponse 200 [("content-encoding", "gzip");
                                       ("content-type", "text/event-stream")]
                         (Raw png_bytes))) ])
       180000 2000.

Definition chat_request_example : Incoming :=
  mkIncoming (Some "Bearer key-1") (VObj []) "" (VObj [("model", VStr "gpt-4o")]) [].

(** the first credit route answers 200 with a document that names no
    credit at all *)
Definition credit_desk : Platform :=
  stub (scripted
          [ ("https://api.kie.ai/api/v1/chat/credit", answer 200 (VObj [("code", VNum 200)])) ])
       180000 2000.

Definition world0 : World := mkWorld 0 [] ∅.

Definition sample_log (n : nat) : UsageLog :=
  mkUsageLog (Z.of_nat n) "kling-2.6/text-to-video" "a cat" 0
    "/kling/v1/videos/text2video" "create".

Definition bearer (key : string) (b : value) : Incoming :=
  mkIncoming (Some ("Bearer " ++ key)) (VObj []) "" b [].

Definition anonymous (b : value) : Incoming :=
  mkIncoming None (VObj []) "" b [].

(* ------------------------------------------------------------------ *)
(** ** Vocabulary of the further properties *)
(* ------------------------------------------------------------------ *)

(** the aspect ratios a job input can carry *)
Definition aspect_ratios : list string := ["16:9"; "9:16"; "1:1"; "4:3"; "3:4"; "Auto"].

(** the aspect ratios [mapAspectRatio] passes through as the caller wrote them *)
Definition caller_ratios : list string := ["16:9"; "9:16"; "1:1"; "4:3"; "3:4"].

(** the job input of the vendor text-seed route *)
Definition text2video_input (prompt ratio duration : string) : value :=
  VObj [("prompt", VStr prompt); ("aspect_ratio", VStr ratio);
        ("duration", VStr duration); ("sound", VBool false)].

(** the MIME types sniffing can give, and the file extensions of images *)
Definition sniffed_mimes : list string :=
  ["image/png"; "image/jpeg"; "image/gif"; "image/webp"].
Definition image_extensions : list string := ["png"; "jpg"; "gif"; "webp"].

(** the three states of a job *)
Definition simple_states : list string := ["completed"; "failed"; "processing"].

(** a record whose result sits in the structured list, and one whose result
    is only found by the nested search *)
Definition structured_result : value :=
  VObj [("data", VObj [("successFlag", VNum 1);
                       ("response", VObj [("resultUrls", VArr [VStr "https://a/1.png";
                                                               VStr "https://a/2.png"])])])].

Definition nested_result : value :=
  VObj [("data", VObj [("state", VStr "success");
                       ("task_result", VObj [("images", VArr [VObj [("url", VStr "https://a/3.png")]])])])].

(* ================================================================== *)
(** * The embedding at work *)
(* ================================================================== *)

Example text_conversion :
  toString (VArr [VNum 1; VNull; VStr "a"; VArr [VBool true]]) = Some "1,,a,true" /\
  toString (VObj [("a", VNum 1)]) = Some "[object Object]" /\
  toString no_text = None /\
  toString (VArr [VStr "a"; VArr [no_text]]) = None.
Proof. repeat split. Qed.

Example white_space_trimmed :
  trim (nbsp ++ " a" ++ nbsp ++ "b " ++ nbsp) = "a" ++ nbsp ++ "b" /\
  toLowerCase "VEO-3 Fast" = "veo-3 fast".
Proof. repeat split. Qed.

Example bearer_token_read :
  getBearerToken (bearer "sk-123" VNull) = "sk-123" /\
  getBearerToken (mkIncoming (Some "bearer    sk-123  ") (VObj []) "" VNull []) = "sk-123" /\
  getBearerToken (mkIncoming (Some ("Bearer" ++ nbsp ++ "sk-123" ++ nbsp)) (VObj []) "" VNull [])
    = "sk-123" /\
  getBearerToken (mkIncoming (Some "Basic c2stMTIz") (VObj []) "" VNull []) = "" /\
  getBearerToken (mkIncoming (Some "Bearer   ") (VObj []) "" VNull []) = "" /\
  getBearerToken (anonymous VNull) = "".
Proof. repeat split. Qed.

Example aspect_ratio_mapped :
  mapAspectRatio (VStr "9:16") = Some "9:16" /\
  mapAspectRatio (VStr " auto ") = Some "Auto" /\
  mapAspectRatio (VStr "21:9") = Some "16:9" /\
  mapAspectRatio VUndef = Some "16:9" /\
  mapAspectRatio no_text = None.
Proof. repeat split. Qed.

Example status_normalised :
  normalizeKieStatusToSimple (VObj [("data", VObj [("successFlag", VNum 1)])])
    = Some "completed" /\
  normalizeKieStatusToSimple (VObj [("status", VStr "FAILED")]) = Some "failed" /\
  normalizeKieStatusToSimple (VObj [("data", VObj [("task_status", VStr "succeed")])])
    = Some "completed" /\
  normalizeKieStatusToSimple (VObj [("successFlag", VNum 1); ("data", VObj [])])
    = Some "processing" /\
  normalizeKieStatusToSimple VNull = Some "processing" /\
  normalizeKieStatusToSimple unreadable_state = None.
Proof. repeat split. Qed.

Example first_result_url_found :
  extractFirstResultUrl
    (VObj [("data", VObj [("response", VObj [("resultUrls", VArr [VStr "https://a/1.mp4"])])])])
    = VStr "https://a/1.mp4" /\
  extractFirstResultUrl
    (VObj [("data", VObj [("task_result",
                           VObj [("videos", VArr [VObj [("url", VStr "https://a/2.mp4")]])])])])
    = VStr "https://a/2.mp4" /\
  extractFirstResultUrl (VObj [("data", VObj [("state", VStr "queued")])]) = VNull.
Proof. repeat split. Qed.

Example gemini_prompt_extracted :
  extractGeminiTextAndInlineImages
    (VObj [("contents",
            VArr [VObj [("parts", VArr [VObj [("text", VStr " a cat ")];
                                        VObj [("text", VStr "on a roof")]])]])])
  = ("a cat" ++ newline ++ newline ++ "on a roof", []).
Proof. reflexivity. Qed.

(** the vendor text-seed route submits one job and logs one usage entry *)
Example text2video_submits_one_job :
  let run := @post_text2video accepts_jobs portrait_request world0 in
  fst run = Ok (ReplyJson 200 (obj1 "data" (obj1 "task_id" (VStr "task-9")))) /\
  length (calls (snd run)) = 1%nat /\
  length (default [] (usageLogs (snd run) !! "#key-1")) = 1%nat.
Proof. repeat split. Qed.

(* ================================================================== *)
(** * Properties of status normalisation *)
(* ================================================================== *)

Section Normalizer.




Lemma normalize_range (json : value) (st : string) :
  normalizeKieStatusToSimple json = Some st -> In st simple_states.
Proof.
  unfold normalizeKieStatusToSimple, simple_states.
  destruct (state_of json) as [state |]; [| discriminate].
  intros [= <-].
  repeat match goal with
         | |- context [if ?c then _ else _] => destruct c
         end; simpl; tauto.
Qed.








End Normalizer.

(* ================================================================== *)
(** * MIME sniffing *)
(* ================================================================== *)

Section Sniffing.

Lemma at_least_four (b : list byte) :
  (4 <= length b)%nat -> exists b0 b1 b2 b3 rest, b = b0 :: b1 :: b2 :: b3 :: rest.
Proof.
  destruct b as [| b0 [| b1 [| b2 [| b3 rest]]]]; simpl; try lia.
  intros _. eauto 6.
Qed.

Lemma detect_short (b : list byte) :
  (length b < 4)%nat -> detectImageMime (Some b) = "image/png".
Proof.
  intros Hlen. unfold detectImageMime.
  destruct (Nat.ltb_spec (length b) 4) as [_ | Hge]; [reflexivity | lia].
Qed.

Lemma detect_unmatched (b : list byte) :
  ~ png_signature `prefix_of` b -> ~ jpeg_signature `prefix_of` b ->
  ~ gif_signature `prefix_of` b -> ~ riff_signature `prefix_of` b ->
  detectImageMime (Some b) = "image/png".
Proof.
  intros Hpng Hjpeg Hgif Hriff.
  destruct (Nat.lt_ge_cases (length b) 4) as [Hlt | Hge]; [now apply detect_short |].
  destruct (at_least_four b Hge) as (b0 & b1 & b2 & b3 & rest & ->).
  unfold detectImageMime.
  change (length (b0 :: b1 :: b2 :: b3 :: rest) <? 4)%nat with false. cbv iota.
  repeat match goal with
         | |- context [if ?c then _ else _] =>
             let E := fresh "E" in destruct c eqn:E; [| clear E]
         end; try reflexivity; exfalso;
    repeat match goal with
           | H : _ && _ = true |- _ => apply andb_prop in H; destruct H
           | H : Byte.eqb _ _ = true |- _ => apply byte_dec_bl in H; subst
           end.
  - apply Hjpeg. exists (b3 :: rest). reflexivity.
  - apply Hgif. exists (b3 :: rest). reflexivity.
  - apply Hriff. exists rest. reflexivity.
Qed.

(** C5, as amended.  On a buffer of at least four bytes the PNG signature
    gives image/png, the JPEG marker FF D8 FF image/jpeg, the GIF signature
    image/gif and a RIFF/WEBP header image/webp; a buffer of fewer than four
    bytes, and a buffer that begins with none of 89 50 4E 47, FF D8 FF,
    47 49 46 and 52 49 46 46, gives the image/png default. *)
Theorem detectImageMime_signatures (b : list byte) :
  ((4 <= length b)%nat ->
     (png_signature `prefix_of` b -> detectImageMime (Some b) = "image/png") /\
     (jpeg_signature `prefix_of` b -> detectImageMime (Some b) = "image/jpeg") /\
     (gif_signature `prefix_of` b -> detectImageMime (Some b) = "image/gif") /\
     (riff_webp_header b -> detectImageMime (Some b) = "image/webp")) /\
  ((length b < 4)%nat -> detectImageMime (Some b) = "image/png") /\
  (~ png_signature `prefix_of` b -> ~ jpeg_signature `prefix_of` b ->
   ~ gif_signature `prefix_of` b -> ~ riff_signature `prefix_of` b ->
   detectImageMime (Some b) = "image/png").
Proof.
  split; [| split; [apply detect_short | apply detect_unmatched]].
  intros Hge. destruct (at_least_four b Hge) as (b0 & b1 & b2 & b3 & rest & ->).
  repeat split.
  - intros [k E]. injection E as -> -> -> -> _. reflexivity.
  - intros [k E]. injection E as -> -> -> _. reflexivity.
  - intros [k E]. injection E as -> -> -> _. reflexivity.
  - intros (size & k & _ & E). injection E as -> -> -> -> _. reflexivity.
Qed.

Lemma detectImageMime_signatures_witness :
  detectImageMime (Some [x89; x50; x4e; x47; x0d; x0a; x1a; x0a]) = "image/png" /\
  detectImageMime (Some [xff; xd8; xff; xe0]) = "image/jpeg" /\
  detectImageMime (Some [x47; x49; x46; x38; x39; x61]) = "image/gif" /\
  detectImageMime (Some [x52; x49; x46; x46; x24; x00; x00; x00; x57; x45; x42; x50])
    = "image/webp" /\
  detectImageMime (Some [x47; x49]) = "image/png" /\
  detectImageMime (Some [x25; x50; x44; x46; x2d]) = "image/png".
Proof.
  refine (conj _ (conj _ (conj _ (conj _ (conj _ _))))).
  - apply (proj1 (detectImageMime_signatures _)); [simpl; lia |].
    exists [x0d; x0a; x1a; x0a]. reflexivity.
  - apply (proj1 (detectImageMime_signatures _)); [simpl; lia |].
    exists [xe0]. reflexivity.
  - apply (proj1 (detectImageMime_signatures _)); [simpl; lia |].
    exists [x38; x39; x61]. reflexivity.
  - apply (proj1 (detectImageMime_signatures _)); [simpl; lia |].
    exists [x24; x00; x00; x00], []. split; reflexivity.
  - apply (proj1 (proj2 (detectImageMime_signatures _))). simpl; lia.
  - apply (proj2 (proj2 (detectImageMime_signatures _)));
      intros [k E]; discriminate E.
Defined.

(** C5 as the specification words it fails: the bare JPEG marker FF D8 FF
    and the bare GIF signature 47 49 46 begin with their signatures and are
    sniffed as image/png. *)
Lemma detectImageMime_bare_marker :
  jpeg_signature `prefix_of` [xff; xd8; xff] /\
  detectImageMime (Some [xff; xd8; xff]) = "image/png" /\
  detectImageMime (Some [xff; xd8; xff]) <> "image/jpeg" /\
  gif_signature `prefix_of` [x47; x49; x46] /\
  detectImageMime (Some [x47; x49; x46]) <> "image/gif".
Proof.
  repeat split; try discriminate; exists []; reflexivity.
Qed.

(** C10.  Every buffer shorter than four bytes is sniffed as image/png,
    whatever it holds: the empty buffer, and the three-byte JPEG marker. *)
Theorem detectImageMime_short_buffer (b : list byte) :
  (length b < 4)%nat -> detectImageMime (Some b) = "image/png".
Proof. apply detect_short. Qed.

Lemma detectImageMime_short_buffer_witness :
  detectImageMime (Some []) = "image/png" /\
  detectImageMime (Some [xff; xd8; xff]) = "image/png".
Proof.
  split; apply detectImageMime_short_buffer; simpl; lia.
Defined.

End Sniffing.

(* ================================================================== *)
(** * The usage ledger *)
(* ================================================================== *)

Section LedgerFacts.

Context `{Platform}.

Implicit Types (logs : gmap string (list UsageLog)) (log : UsageLog).

Lemma truncate_take (arr : list UsageLog) :
  (if (2000 <? length arr)%nat then take 2000 arr else arr) = take 2000 arr.
Proof.
  destruct (Nat.ltb_spec 2000 (length arr)); [reflexivity |].
  symmetry. apply take_ge. lia.
Qed.

Lemma push_lookup apiKey log logs :
  apiKey <> "" ->
  pushUsageLog apiKey log logs !! sha256Short apiKey
  = Some (take 2000 (log :: default [] (logs !! sha256Short apiKey))).
Proof.
  intros Hk. unfold pushUsageLog.
  apply String.eqb_neq in Hk. rewrite Hk.
  rewrite truncate_take. apply lookup_insert_eq.
Qed.

Lemma push_lookup_other apiKey log logs keyHash :
  keyHash <> sha256Short apiKey ->
  pushUsageLog apiKey log logs !! keyHash = logs !! keyHash.
Proof.
  intros Hne. unfold pushUsageLog.
  destruct (String.eqb apiKey ""); [reflexivity |].
  apply lookup_insert_ne. congruence.
Qed.

Lemma push_bounded apiKey log logs :
  bounded logs -> bounded (pushUsageLog apiKey log logs).
Proof.
  intros Hb keyHash arr. unfold pushUsageLog.
  destruct (String.eqb apiKey ""); [apply Hb |].
  rewrite truncate_take.
  destruct (decide (sha256Short apiKey = keyHash)) as [-> | Hne].
  - rewrite lookup_insert_eq. intros E. apply (inj Some) in E. subst arr.
    rewrite length_take. lia.
  - rewrite lookup_insert_ne by assumption. apply Hb.
Qed.

Lemma appended_bounded logs logs' :
  bounded logs -> appended logs logs' -> bounded logs'.
Proof.
  intros Hb Ha. induction Ha; [assumption | now apply push_bounded].
Qed.

Lemma appended_trans logs1 logs2 logs3 :
  appended logs1 logs2 -> appended logs2 logs3 -> appended logs1 logs3.
Proof.
  intros H12 H23. induction H23; [assumption | now constructor].
Qed.

Lemma take_app_take (n : nat) (a b : list UsageLog) :
  take n (a ++ take n b) = take n (a ++ b).
Proof.
  rewrite !take_app, take_take. f_equal. f_equal. lia.
Qed.

Lemma appendAll_lookup apiKey (entries : list UsageLog) logs :
  apiKey <> "" -> entries <> [] ->
  appendAll apiKey entries logs !! sha256Short apiKey
  = Some (take 2000 (rev entries ++ default [] (logs !! sha256Short apiKey))).
Proof.
  intros Hk. revert logs.
  induction entries as [| e es IH]; intros logs Hne; [congruence |].
  unfold appendAll. simpl foldl. fold (appendAll apiKey es (pushUsageLog apiKey e logs)).
  destruct es as [| e' es'].
  - unfold appendAll. simpl foldl. now rewrite push_lookup.
  - rewrite IH by discriminate.
    rewrite push_lookup by assumption. cbn [default from_option id].
    rewrite take_app_take.
    change (rev (e :: e' :: es')) with (rev (e' :: es') ++ [e])%list.
    now rewrite <- app_assoc.
Qed.

Lemma appendAll_lookup_other apiKey (entries : list UsageLog) logs keyHash :
  keyHash <> sha256Short apiKey ->
  appendAll apiKey entries logs !! keyHash = logs !! keyHash.
Proof.
  intros Hne. revert logs. unfold appendAll.
  induction entries as [| e es IH]; intros logs; simpl; [reflexivity |].
  rewrite IH. now apply push_lookup_other.
Qed.

Lemma extended_refl logs : extended logs logs.
Proof. intros keyHash. now left. Qed.

Lemma extended_trans logs1 logs2 logs3 :
  extended logs1 logs2 -> extended logs2 logs3 -> extended logs1 logs3.
Proof.
  intros H12 H23 keyHash.
  destruct (H23 keyHash) as [E23 | (new2 & Hne2 & E23)];
    destruct (H12 keyHash) as [E12 | (new1 & Hne1 & E12)]; rewrite E23.
  - left. exact E12.
  - right. exists new1. split; [exact Hne1 | exact E12].
  - right. exists new2. split; [exact Hne2 |]. now rewrite E12.
  - right. exists (new2 ++ new1)%list. split.
    + destruct new2; [congruence | discriminate].
    + rewrite E12. cbn [default from_option id].
      now rewrite take_app_take, <- app_assoc.
Qed.

Lemma push_extended apiKey log logs : extended logs (pushUsageLog apiKey log logs).
Proof.
  intros keyHash. destruct (String.eqb_spec apiKey "") as [-> | Hk]; [now left |].
  destruct (decide (keyHash = sha256Short apiKey)) as [-> | Hne].
  - right. exists [log]. split; [discriminate |]. now apply push_lookup.
  - left. now apply push_lookup_other.
Qed.

Lemma appendAll_evicts apiKey (oldest : UsageLog) (rest : list UsageLog) logs :
  apiKey <> "" -> length rest = 2000%nat -> logs !! sha256Short apiKey = None ->
  appendAll apiKey (oldest :: rest) logs !! sha256Short apiKey = Some (rev rest).
Proof.
  intros Hk Hlen Hnone.
  rewrite appendAll_lookup by (assumption || discriminate).
  rewrite Hnone. cbn [default from_option]. rewrite app_nil_r.
  change (rev (oldest :: rest)) with (rev rest ++ [oldest])%list.
  f_equal. apply take_app_length'. now rewrite length_rev.
Qed.

End LedgerFacts.

(* ================================================================== *)
(** * What a route may do to the world *)
(* ================================================================== *)

(** A relation between worlds that is reflexive and transitive, that every
    [allowed] outbound call, every timer and every ledger append respects, is
    respected by the helpers and by the routes. *)

Create HintDb preserve.

Section Preservation.

Context `{Platform}.

Variable R : World -> World -> Prop.
Variable allowed : Request -> Prop.

Hypothesis R_refl : forall w, R w w.
Hypothesis R_trans : forall w1 w2 w3, R w1 w2 -> R w2 w3 -> R w1 w3.
Hypothesis R_fetch : forall r w, allowed r -> R w (snd (fetch r w)).
Hypothesis R_sleep : forall ms w, R w (snd (sleep ms w)).
Hypothesis R_log : forall apiKey log w, R w (snd (logUsage apiKey log w)).

Lemma preserves_ret {A} (a : A) : preserves R (ret a).
Proof. intros w. apply R_refl. Qed.

Lemma preserves_throw {A} (e : string) : preserves R (@throw A e).
Proof. intros w. apply R_refl. Qed.

Lemma preserves_diverge {A} : preserves R (fun w => (@Diverge A, w)).
Proof. intros w. apply R_refl. Qed.

Lemma preserves_converted {A} (o : option A) : preserves R (converted o).
Proof. intros w. destruct o; apply R_refl. Qed.

Lemma preserves_throw_value {A} (v : value) : preserves R (@throw_value A v).
Proof. intros w. unfold throw_value. destruct (toString v); apply R_refl. Qed.

Lemma preserves_bind {A B} (m : M A) (k : A -> M B) :
  preserves R m -> (forall a, preserves R (k a)) -> preserves R (bind m k).
Proof.
  intros Hm Hk w. unfold bind. specialize (Hm w).
  destruct (m w) as [[a | e |] w1]; simpl in *; trivial.
  eapply R_trans; [exact Hm | apply Hk].
Qed.

Lemma preserves_try_catch {A} (m : M A) (h : string -> M A) :
  preserves R m -> (forall e, preserves R (h e)) -> preserves R (try_catch m h).
Proof.
  intros Hm Hh w. unfold try_catch. specialize (Hm w).
  destruct (m w) as [[a | e |] w1]; simpl in *; trivial.
  eapply R_trans; [exact Hm | apply Hh].
Qed.

Lemma preserves_fetch (r : Request) : allowed r -> preserves R (fetch r).
Proof. intros Hr w. now apply R_fetch. Qed.

Lemma preserves_sleep (ms : Z) : preserves R (sleep ms).
Proof. intros w. apply R_sleep. Qed.

Lemma preserves_logUsage apiKey log : preserves R (logUsage apiKey log).
Proof. intros w. apply R_log. Qed.

Lemma preserves_Date_now : preserves R Date_now.
Proof. intros w. apply R_refl. Qed.

Lemma preserves_nowUnix : preserves R nowUnix.
Proof. intros w. apply R_refl. Qed.

Local Hint Resolve preserves_fetch preserves_sleep preserves_logUsage
  preserves_Date_now preserves_nowUnix preserves_diverge : preserve.

(** one structural step of a preservation proof *)
Ltac preserve_step :=
  lazymatch goal with
  | |- preserves _ (ret _) => apply preserves_ret
  | |- preserves _ (throw _) => apply preserves_throw
  | |- preserves _ (throw_value _) => apply preserves_throw_value
  | |- preserves _ (converted _) => apply preserves_converted
  | |- preserves _ (bind _ _) => apply preserves_bind; [| intros ?]
  | |- preserves _ (try_catch _ _) => apply preserves_try_catch; [| intros ?]
  | |- preserves _ (guarded _ _) => unfold guarded
  | |- preserves _ (if ?c then _ else _) => destruct c
  | |- preserves _ (match ?x with _ => _ end) => destruct x
  | |- _ => solve [auto with preserve]
  end.

Ltac preserve := cbv zeta; repeat preserve_step.

Lemma preserves_fetchJson (r : Request) : allowed r -> preserves R (fetchJson r).
Proof. intros Hr. unfold fetchJson. preserve. Qed.

Local Hint Resolve preserves_fetchJson : preserve.

Lemma preserves_extFromMime_value (mime : value) : preserves R (extFromMime_value mime).
Proof. unfold extFromMime_value. preserve. Qed.

Local Hint Resolve preserves_extFromMime_value : preserve.

(** *** Uploads: every call carries a file, never a JSON document *)

Hypothesis allowed_file :
  forall method url apiKey name type content,
    allowed (mkRequest method url apiKey (FileBody name type content)).

Hypothesis allowed_nobody :
  forall method url apiKey, allowed (mkRequest method url apiKey NoBody).

Lemma preserves_kieUploadBuffer_loop apiKey name mime buffer candidates :
  preserves R (kieUploadBuffer_loop apiKey name mime buffer candidates).
Proof.
  induction candidates as [| url rest IH]; simpl.
  - apply preserves_throw.
  - unfold kieUploadBuffer_try. preserve.
Qed.

Local Hint Resolve preserves_kieUploadBuffer_loop : preserve.

Lemma preserves_kieUploadBuffer apiKey buffer filename mimeType :
  preserves R (kieUploadBuffer apiKey buffer filename mimeType).
Proof. unfold kieUploadBuffer. preserve. Qed.

Lemma preserves_kieRecordInfo apiKey taskId : preserves R (kieRecordInfo apiKey taskId).
Proof. unfold kieRecordInfo. preserve. Qed.

Lemma preserves_kieVeoRecordInfo apiKey taskId : preserves R (kieVeoRecordInfo apiKey taskId).
Proof. unfold kieVeoRecordInfo. preserve. Qed.

Lemma preserves_kieImageRecordInfo apiKey recordBase taskId :
  preserves R (kieImageRecordInfo apiKey recordBase taskId).
Proof. unfold kieImageRecordInfo. preserve. Qed.

Lemma preserves_kieCreateTask apiKey model input :
  allowed (mkRequest "POST" (KIE_API_BASE ++ "/api/v1/jobs/createTask") apiKey
             (JsonBody (VObj [("model", VStr model); ("input", input)]))) ->
  preserves R (kieCreateTask apiKey model input).
Proof. intros Hr. unfold kieCreateTask. preserve. Qed.

Local Hint Resolve preserves_kieUploadBuffer preserves_kieRecordInfo
  preserves_kieVeoRecordInfo preserves_kieImageRecordInfo preserves_kieCreateTask : preserve.

Lemma preserves_waitForKieImageResult fuel apiKey recordBase taskId :
  preserves R (waitForKieImageResult fuel apiKey recordBase taskId).
Proof.
  unfold waitForKieImageResult. apply preserves_bind; [auto with preserve |].
  intros start. induction fuel as [| fuel IH]; simpl.
  - apply preserves_diverge.
  - preserve.
Qed.

Lemma preserves_get_video req : preserves R (get_video req).
Proof. unfold get_video. preserve. Qed.

Lemma preserves_get_kling_video req : preserves R (get_kling_video req).
Proof. unfold get_kling_video, missing_bearer_kling. preserve. Qed.

(** the image-seed route: its one JSON submission carries 16:9 *)
Lemma preserves_post_image2video req :
  (forall r, carries_aspect "16:9" r -> allowed r) ->
  preserves R (post_image2video req).
Proof.
  intros Hallowed. unfold post_image2video, missing_bearer_kling. preserve.
  apply preserves_kieCreateTask. apply Hallowed.
  intros v [= <-]. reflexivity.
Qed.

(** *** The other routes, when every call is allowed *)

Hypothesis allowed_all : forall r, allowed r.

Local Hint Resolve allowed_all preserves_waitForKieImageResult : preserve.

Lemma preserves_kieVeoGenerate apiKey body : preserves R (kieVeoGenerate apiKey body).
Proof. unfold kieVeoGenerate. preserve. Qed.

Lemma preserves_kieImageGenerate apiKey body : preserves R (kieImageGenerate apiKey body).
Proof.
  unfold kieImageGenerate. induction image_candidates as [| c rest IH]; simpl.
  - apply preserves_throw.
  - unfold kieImageGenerate_try. preserve.
Qed.

Lemma preserves_fetchBinaryAsBase64 url : preserves R (fetchBinaryAsBase64 url).
Proof. unfold fetchBinaryAsBase64. preserve. Qed.

Local Hint Resolve preserves_kieVeoGenerate preserves_kieImageGenerate
  preserves_fetchBinaryAsBase64 : preserve.

Lemma preserves_upload_inline_images apiKey i0 images :
  preserves R (upload_inline_images apiKey i0 images).
Proof.
  revert i0. induction images as [| img rest IH]; intros i0; simpl; preserve.
Qed.

Lemma preserves_fetch_results urls : preserves R (fetch_results urls).
Proof. induction urls as [| u rest IH]; simpl; preserve. Qed.

Local Hint Resolve preserves_upload_inline_images preserves_fetch_results : preserve.

Lemma preserves_chat_loop apiKey req candidates :
  preserves R (chat_loop apiKey req candidates).
Proof.
  induction candidates as [| url rest IH]; simpl.
  - apply preserves_ret.
  - unfold chat_try. preserve.
Qed.

Local Hint Resolve preserves_chat_loop preserves_get_video preserves_get_kling_video
  preserves_post_image2video : preserve.

Lemma preserves_app fuel route req : preserves R (app fuel route req).
Proof.
  destruct route; simpl.
  - unfold post_videos. preserve.
  - auto with preserve.
  - unfold post_text2video, missing_bearer_kling. preserve.
  - auto with preserve.
  - auto with preserve.
  - auto with preserve.
  - unfold post_generateContent. preserve.
  - unfold post_chat_completions. preserve.
Qed.

End Preservation.

(* ================================================================== *)
(** * The usage ledger under the routes *)
(* ================================================================== *)

Section LedgerRoutes.

Context `{Platform}.

Lemma fetch_ledger r w : usageLogs (snd (fetch r w)) = usageLogs w.
Proof.
  unfold fetch. destruct (serve (calls w) (now w) r) as [[reason | resp] elapsed]; reflexivity.
Qed.

Lemma ledger_grows_fetch r w : ledger_grows w (snd (fetch r w)).
Proof.
  unfold ledger_grows, fetch. destruct (serve (calls w) (now w) r) as [[reason | resp] elapsed];
    simpl; constructor.
Qed.

Lemma routes_only_append fuel route req w :
  appended (usageLogs w) (usageLogs (snd (app fuel route req w))).
Proof.
  apply (preserves_app ledger_grows (fun _ => True)); trivial.
  - intros w0. constructor.
  - intros w1 w2 w3. apply appended_trans.
  - intros r w0 _. apply ledger_grows_fetch.
  - intros ms w0. constructor.
  - intros apiKey log w0. unfold ledger_grows, logUsage. simpl. constructor. constructor.
Qed.

Lemma routes_only_extend fuel route req w :
  extended (usageLogs w) (usageLogs (snd (app fuel route req w))).
Proof.
  apply (preserves_app (fun w w' => extended (usageLogs w) (usageLogs w')) (fun _ => True));
    trivial.
  - intros w0. apply extended_refl.
  - intros w1 w2 w3. apply extended_trans.
  - intros r w0 _. rewrite fetch_ledger. apply extended_refl.
  - intros ms w0. apply extended_refl.
  - intros apiKey log w0. apply push_extended.
Qed.

(** C9.  For a credential [apiKey], with [keyHash] its hash: an append puts
    the new entry in front of the sequence kept for [keyHash], cuts that
    sequence to 2000 entries and leaves the sequence of every other hash as
    it was; without a credential it does nothing.  Appending 2001 entries to
    a fresh hash leaves exactly the 2000 most recent ones, most recent
    first, the oldest gone, and again touches no other hash.  The bound of
    2000 survives every append.  Whatever a route does to the ledger is a
    sequence of appends, so that under every hash the sequence is afterwards
    what it was or new entries in front of what it was, cut to 2000. *)
Theorem usage_ledger_bounded_most_recent_first (apiKey : string) :
  apiKey <> "" ->
  (forall log logs,
     pushUsageLog apiKey log logs !! sha256Short apiKey
     = Some (take 2000 (log :: default [] (logs !! sha256Short apiKey)))) /\
  (forall log logs keyHash,
     keyHash <> sha256Short apiKey ->
     pushUsageLog apiKey log logs !! keyHash = logs !! keyHash) /\
  (forall log logs, pushUsageLog "" log logs = logs) /\
  (forall oldest rest logs,
     length rest = 2000%nat -> logs !! sha256Short apiKey = None ->
     appendAll apiKey (oldest :: rest) logs !! sha256Short apiKey = Some (rev rest) /\
     forall keyHash,
       keyHash <> sha256Short apiKey ->
       appendAll apiKey (oldest :: rest) logs !! keyHash = logs !! keyHash) /\
  (forall log logs, bounded logs -> bounded (pushUsageLog apiKey log logs)) /\
  (forall fuel route req w,
     appended (usageLogs w) (usageLogs (snd (app fuel route req w))) /\
     extended (usageLogs w) (usageLogs (snd (app fuel route req w)))).
Proof.
  intros Hk. split; [| split; [| split; [| split; [| split]]]].
  - intros log logs. now apply push_lookup.
  - intros log logs keyHash. apply push_lookup_other.
  - reflexivity.
  - intros oldest rest logs Hlen Hnone. split.
    + now apply appendAll_evicts.
    + intros keyHash. apply appendAll_lookup_other.
  - intros log logs. apply push_bounded.
  - intros. split; [apply routes_only_append | apply routes_only_extend].
Qed.

End LedgerRoutes.

Lemma usage_ledger_bounded_most_recent_first_witness :
  "key-1" <> "" /\
  @pushUsageLog offline_deployment "key-1" (sample_log 7) ∅ !! "#key-1"
    = Some (take 2000 [sample_log 7]) /\
  @pushUsageLog offline_deployment "key-1" (sample_log 7)
     {[ "#key-2" := [sample_log 1] ]} !! "#key-2"
    = Some [sample_log 1] /\
  @appendAll offline_deployment "key-1" (List.map sample_log (seq 0 2001)) ∅ !! "#key-1"
    = Some (rev (List.map sample_log (seq 1 2000))).
Proof.
  split; [discriminate |].
  destruct (@usage_ledger_bounded_most_recent_first offline_deployment "key-1")
    as (Hfront & Hother & _ & Hevict & _); [discriminate |].
  split; [| split].
  - exact (Hfront (sample_log 7) ∅).
  - rewrite (Hother (sample_log 7) {[ "#key-2" := [sample_log 1] ]} "#key-2")
      by discriminate.
    apply lookup_singleton_eq.
  - refine (proj1 (Hevict (sample_log 0) (List.map sample_log (seq 1 2000)) ∅ _ _)).
    + vm_compute. reflexivity.
    + reflexivity.
Defined.

(* ================================================================== *)
(** * Candidate probing *)
(* ================================================================== *)

Section Probing.

Context `{Platform}.

Lemma fetch_run (r : Request) (w : World) :
  fetch r w =
    (match outcome_of w r with
     | Rejected reason => Throw reason
     | Resolved resp => Ok resp
     end, after_call w r).
Proof.
  unfold fetch, outcome_of, after_call.
  destruct (serve (calls w) (now w) r) as [[reason | resp] elapsed]; reflexivity.
Qed.

Lemma calls_after_calls (rs : list Request) (w : World) :
  List.map snd (calls (after_calls w rs)) = (rev rs ++ List.map snd (calls w))%list.
Proof.
  revert w. induction rs as [| r rest IH]; intros w; simpl; [reflexivity |].
  rewrite IH. simpl. now rewrite <- app_assoc.
Qed.

Lemma after_calls_app (rs1 rs2 : list Request) (w : World) :
  after_calls w (rs1 ++ rs2) = after_calls (after_calls w rs1) rs2.
Proof. revert w. induction rs1 as [| r rest IH]; intros w; simpl; auto. Qed.

Lemma usageLogs_after_calls (rs : list Request) (w : World) :
  usageLogs (after_calls w rs) = usageLogs w.
Proof. revert w. induction rs as [| r rest IH]; intros w; simpl; [| rewrite IH]; reflexivity. Qed.

(** one turn of the upload loop is the verdict on the answer *)
Lemma kieUploadBuffer_try_run apiKey name mime content url w :
  kieUploadBuffer_try apiKey name mime content url w =
    (Ok (upload_verdict (outcome_of w (upload_request apiKey name mime content url))),
     after_call w (upload_request apiKey name mime content url)).
Proof.
  unfold kieUploadBuffer_try, try_catch, fetchJson, bind.
  fold (upload_request apiKey name mime content url).
  rewrite fetch_run. unfold upload_verdict.
  destruct (outcome_of w _) as [reason | resp]; simpl; [reflexivity |].
  destruct (ok resp); simpl; [| reflexivity].
  destruct (upload_fileUrl (body_json (body resp))); try reflexivity.
  destruct (String.eqb s ""); reflexivity.
Qed.

Lemma kieImageGenerate_try_run apiKey job c w :
  kieImageGenerate_try apiKey job c w =
    (Ok (option_map (fun t => mkImageTask t (rec c))
           (generate_verdict (outcome_of w (generate_request apiKey job c)))),
     after_call w (generate_request apiKey job c)).
Proof.
  unfold kieImageGenerate_try, try_catch, fetchJson, bind. fold (generate_request apiKey job c).
  rewrite fetch_run. unfold generate_verdict.
  destruct (outcome_of w _) as [reason | resp]; simpl; [reflexivity |].
  destruct (ok resp); simpl; [| reflexivity].
  destruct (truthy (taskId_of (body_json (body resp)))); reflexivity.
Qed.

Lemma upload_loop_first_accepted apiKey name mime content pre url post w fileUrl :
  all_skipped upload_verdict w (List.map (upload_request apiKey name mime content) pre) ->
  upload_verdict
    (outcome_of (after_calls w (List.map (upload_request apiKey name mime content) pre))
       (upload_request apiKey name mime content url)) = Some fileUrl ->
  kieUploadBuffer_loop apiKey name mime content (pre ++ url :: post) w =
    (Ok fileUrl,
     after_calls w (List.map (upload_request apiKey name mime content) (pre ++ [url]))).
Proof.
  revert w. induction pre as [| p pre IH]; intros w Hskip Hacc; simpl in *.
  - unfold bind. rewrite kieUploadBuffer_try_run, Hacc. reflexivity.
  - destruct Hskip as [Hp Hrest].
    unfold bind at 1. rewrite kieUploadBuffer_try_run, Hp.
    now apply IH.
Qed.

Lemma upload_loop_exhausted apiKey name mime content candidates w :
  all_skipped upload_verdict w (List.map (upload_request apiKey name mime content) candidates) ->
  kieUploadBuffer_loop apiKey name mime content candidates w =
    (Throw upload_failed_message,
     after_calls w (List.map (upload_request apiKey name mime content) candidates)).
Proof.
  revert w. induction candidates as [| p rest IH]; intros w Hskip; simpl in *; [reflexivity |].
  destruct Hskip as [Hp Hrest].
  unfold bind at 1. rewrite kieUploadBuffer_try_run, Hp. now apply IH.
Qed.

Lemma generate_loop_first_accepted apiKey job pre c post w t :
  all_skipped generate_verdict w (List.map (generate_request apiKey job) pre) ->
  generate_verdict
    (outcome_of (after_calls w (List.map (generate_request apiKey job) pre))
       (generate_request apiKey job c)) = Some t ->
  kieImageGenerate_loop apiKey job (pre ++ c :: post) w =
    (Ok (mkImageTask t (rec c)),
     after_calls w (List.map (generate_request apiKey job) (pre ++ [c]))).
Proof.
  revert w. induction pre as [| p pre IH]; intros w Hskip Hacc; simpl in *.
  - unfold bind. rewrite kieImageGenerate_try_run, Hacc. reflexivity.
  - destruct Hskip as [Hp Hrest].
    unfold bind at 1. rewrite kieImageGenerate_try_run, Hp.
    now apply IH.
Qed.

Lemma generate_loop_exhausted apiKey job candidates w :
  all_skipped generate_verdict w (List.map (generate_request apiKey job) candidates) ->
  kieImageGenerate_loop apiKey job candidates w =
    (Throw image_failed_message,
     after_calls w (List.map (generate_request apiKey job) candidates)).
Proof.
  revert w. induction candidates as [| p rest IH]; intros w Hskip; simpl in *; [reflexivity |].
  destruct Hskip as [Hp Hrest].
  unfold bind at 1. rewrite kieImageGenerate_try_run, Hp. now apply IH.
Qed.

(** an upload with a credential, content and a file name: the blob is built,
    which converts the type, and the candidates are tried *)
Lemma kieUploadBuffer_named apiKey content filename mimeType w :
  apiKey <> "" -> content <> [] -> filename <> "" ->
  kieUploadBuffer apiKey content filename mimeType w =
    match toString (or mimeType (VStr (detectImageMime (Some content)))) with
    | Some _ =>
        kieUploadBuffer_loop apiKey filename
          (or mimeType (VStr (detectImageMime (Some content)))) content upload_candidates w
    | None => (Throw cannot_convert, w)
    end.
Proof.
  intros Hk Hc Hf. unfold kieUploadBuffer.
  apply String.eqb_neq in Hk. rewrite Hk.
  destruct content as [| b0 content']; [congruence |].
  change (length (b0 :: content') =? 0)%nat with false. cbv iota.
  apply String.eqb_neq in Hf. rewrite Hf.
  unfold bind at 1. unfold ret at 1. unfold bind at 1.
  destruct (toString _); reflexivity.
Qed.

(** which answers a prober passes over *)
Lemma upload_verdict_none (o : Outcome) :
  upload_verdict o = None <->
  match o with
  | Rejected _ => True
  | Resolved resp =>
      ok resp = false \/
      forall fileUrl, fileUrl <> "" ->
        upload_fileUrl (body_json (body resp)) <> VStr fileUrl
  end.
Proof.
  unfold upload_verdict. destruct o as [reason | resp]; [tauto |].
  destruct (ok resp); [| tauto].
  destruct (upload_fileUrl (body_json (body resp))) eqn:E;
    try (split; [intros _; right; intros u _; discriminate | reflexivity]).
  destruct (String.eqb_spec s "") as [-> | Hne].
  - split; [intros _; right; intros u Hu; congruence | reflexivity].
  - split; [discriminate |]. intros [Hok | Hno]; [discriminate |].
    exfalso. now apply (Hno s).
Qed.

Lemma generate_verdict_none (o : Outcome) :
  generate_verdict o = None <->
  match o with
  | Rejected _ => True
  | Resolved resp =>
      ok resp = false \/ truthy (taskId_of (body_json (body resp))) = false
  end.
Proof.
  unfold generate_verdict. destruct o as [reason | resp]; [tauto |].
  destruct (ok resp), (truthy (taskId_of (body_json (body resp)))); simpl;
    intuition discriminate.
Qed.

End Probing.

Section ProbingClaim.

Context `{Platform}.

(** C3, as amended.  [kieUploadBuffer] and [kieImageGenerate] try their
    candidates in order.  When the answers to the candidates before [url]
    are all passed over and the answer to [url] is accepted, the function
    returns what that answer carries and has issued exactly the calls up to
    [url], in order, and none after it.  An answer is passed over when the
    call throws, when its status is not a success, and also when a success
    status comes without a hosted URL (a task id, for image generation).
    The one upload that never reaches its candidates is the one whose MIME
    type cannot be converted to text: the blob cannot be built, and the
    function throws before any call. *)
Theorem probing_stops_at_first_accepted :
  (forall apiKey content filename mimeType pre url post w fileUrl,
     apiKey <> "" -> content <> [] -> filename <> "" ->
     upload_candidates = (pre ++ url :: post)%list ->
     let mime := or mimeType (VStr (detectImageMime (Some content))) in
     let req := upload_request apiKey filename mime content in
     all_skipped upload_verdict w (List.map req pre) ->
     upload_verdict (outcome_of (after_calls w (List.map req pre)) (req url)) = Some fileUrl ->
     match toString mime with
     | Some _ =>
         exists w',
           kieUploadBuffer apiKey content filename mimeType w = (Ok fileUrl, w') /\
           List.map snd (calls w')
           = (rev (List.map req (pre ++ [url])) ++ List.map snd (calls w))%list
     | None =>
         kieUploadBuffer apiKey content filename mimeType w = (Throw cannot_convert, w)
     end) /\
  (forall apiKey job pre c post w t,
     image_candidates = (pre ++ c :: post)%list ->
     let req := generate_request apiKey job in
     all_skipped generate_verdict w (List.map req pre) ->
     generate_verdict (outcome_of (after_calls w (List.map req pre)) (req c)) = Some t ->
     exists w',
       kieImageGenerate apiKey job w = (Ok (mkImageTask t (rec c)), w') /\
       List.map snd (calls w')
       = (rev (List.map req (pre ++ [c])) ++ List.map snd (calls w))%list) /\
  (forall o,
     upload_verdict o = None <->
     match o with
     | Rejected _ => True
     | Resolved resp =>
         ok resp = false \/
         forall fileUrl, fileUrl <> "" ->
           upload_fileUrl (body_json (body resp)) <> VStr fileUrl
     end) /\
  (forall o,
     generate_verdict o = None <->
     match o with
     | Rejected _ => True
     | Resolved resp =>
         ok resp = false \/ truthy (taskId_of (body_json (body resp))) = false
     end).
Proof.
  split; [| split; [| split]].
  - intros apiKey content filename mimeType pre url post w fileUrl Hk Hc Hf Hcand mime req
      Hskip Hacc.
    rewrite (kieUploadBuffer_named apiKey content filename mimeType w Hk Hc Hf). fold mime.
    destruct (toString mime) as [type |]; [| reflexivity].
    exists (after_calls w (List.map req (pre ++ [url]))). split.
    + rewrite Hcand. now apply upload_loop_first_accepted.
    + apply calls_after_calls.
  - intros apiKey job pre c post w t Hcand req Hskip Hacc.
    exists (after_calls w (List.map req (pre ++ [c]))). split.
    + unfold kieImageGenerate. rewrite Hcand. now apply generate_loop_first_accepted.
    + apply calls_after_calls.
  - apply upload_verdict_none.
  - apply generate_verdict_none.
Qed.

End ProbingClaim.

Lemma probing_stops_at_first_accepted_witness :
  (exists w',
     @kieUploadBuffer second_route_works "key-1" png_bytes "cat.png" (VStr "image/png") world0
       = (Ok "https://cdn.kie.ai/f/1.png", w') /\
     List.map (fun c => req_url (snd c)) (calls w')
       = ["https://api.kie.ai/api/v1/file/upload"; "https://api.kie.ai/api/v1/files/upload"]) /\
  (exists w',
     @kieImageGenerate second_route_works "key-1" (VObj [("prompt", VStr "a cat")]) world0
       = (Ok (mkImageTask (VStr "img-1") "https://api.kie.ai/api/v1/image/record-info"), w') /\
     length (calls w') = 3%nat).
Proof.
  destruct (@probing_stops_at_first_accepted second_route_works) as (Hup & Hgen & _).
  split.
  - destruct (Hup "key-1" png_bytes "cat.png" (VStr "image/png")
                ["https://api.kie.ai/api/v1/files/upload"]
                "https://api.kie.ai/api/v1/file/upload"
                ["https://api.kie.ai/api/v1/upload"]
                world0 "https://cdn.kie.ai/f/1.png")
      as (w' & Hrun & Hcalls);
      try discriminate; try reflexivity.
    + vm_compute. split; reflexivity.
    + exists w'. split; [exact Hrun |].
      rewrite <- (map_map snd req_url), Hcalls. reflexivity.
  - destruct (Hgen "key-1" (VObj [("prompt", VStr "a cat")])
                [mkImageEndpoint "https://api.kie.ai/api/v1/gpt-image/generate"
                                 "https://api.kie.ai/api/v1/gpt-image/record-info";
                 mkImageEndpoint "https://api.kie.ai/api/v1/gpt-image/generate"
                                 "https://api.kie.ai/api/v1/gpt-image/recordInfo"]
                (mkImageEndpoint "https://api.kie.ai/api/v1/image/generate"
                                 "https://api.kie.ai/api/v1/image/record-info")
                [mkImageEndpoint "https://api.kie.ai/api/v1/images/generate"
                                 "https://api.kie.ai/api/v1/images/record-info"]
                world0 (VStr "img-1"))
      as (w' & Hrun & Hcalls);
      try reflexivity.
    + vm_compute. repeat split.
    + exists w'. split; [exact Hrun |].
      rewrite <- (length_map snd), Hcalls. reflexivity.
Defined.

(** C3 as the specification words it fails: the first upload candidate
    answers with a success status but no URL, and the second candidate is
    invoked after it. *)
Lemma probing_continues_after_success_status :
  (exists resp,
     @outcome_of first_route_empty world0
       (@upload_request "key-1" "cat.png" (VStr "image/png") png_bytes
          "https://api.kie.ai/api/v1/files/upload") = Resolved resp /\
     ok resp = true) /\
  (let run := @kieUploadBuffer first_route_empty "key-1" png_bytes "cat.png"
                (VStr "image/png") world0 in
   fst run = Ok "https://cdn.kie.ai/f/1.png" /\
   List.map (fun c => req_url (snd c)) (calls (snd run))
     = ["https://api.kie.ai/api/v1/file/upload"; "https://api.kie.ai/api/v1/files/upload"]).
Proof.
  split.
  - eexists. split; reflexivity.
  - split; reflexivity.
Qed.

(* ================================================================== *)
(** * The synchronous wait *)
(* ================================================================== *)

Section WaitLoop.

Context `{Platform}.

Variables (apiKey recordBase : string) (taskId : value) (id : string).

Hypothesis readable : toString taskId = Some id.

Lemma kieImageRecordInfo_run (w : World) :
  kieImageRecordInfo apiKey recordBase taskId w =
    (match outcome_of w (poll_request apiKey recordBase id) with
     | Rejected reason => Throw reason
     | Resolved resp =>
         if ok resp then Ok (body_json (body resp))
         else Throw (failure "KIE image record-info failed" (status resp)
                       (body_json (body resp)))
     end,
     after_call w (poll_request apiKey recordBase id)).
Proof.
  unfold kieImageRecordInfo. unfold bind at 1. rewrite readable. unfold converted, ret.
  unfold fetchJson, bind. fold (poll_request apiKey recordBase id).
  rewrite fetch_run.
  destruct (outcome_of w _) as [reason | resp]; simpl; [reflexivity |].
  destruct (ok resp); reflexivity.
Qed.

Lemma timer_delay_positive (ms : Z) : 1 <= timer_delay ms.
Proof.
  unfold timer_delay.
  destruct (Z.ltb_spec ms 1); simpl; [lia |].
  destruct (Z.ltb_spec 2147483647 ms); lia.
Qed.

Lemma timer_delay_in_range (ms : Z) : 1 <= ms <= 2147483647 -> timer_delay ms = ms.
Proof.
  intros Hr. unfold timer_delay.
  destruct (Z.ltb_spec ms 1); simpl; [lia |].
  destruct (Z.ltb_spec 2147483647 ms); lia.
Qed.

Lemma spaced_cons (delay t : Z) (times : list Z) :
  Forall (fun t' => t + delay <= t') times -> spaced delay times -> spaced delay (t :: times).
Proof.
  intros Hall Hsp. destruct times as [| t2 rest]; simpl; [trivial |].
  split; [now inversion Hall | exact Hsp].
Qed.

(** one turn of the loop, within the budget, on a record that is not pending *)
Lemma wait_turn_settles (start : Z) (fuel : nat) (w : World) (resp : Response) :
  now w - start < IMAGE_SYNC_MAX_WAIT_MS ->
  outcome_of w (poll_request apiKey recordBase id) = Resolved resp ->
  ok resp = true ->
  normalizeKieStatusToSimple (body_json (body resp)) <> Some "processing" ->
  waitForKieImageResult_loop (S fuel) apiKey recordBase taskId start w
  = (settled (body_json (body resp)), after_call w (poll_request apiKey recordBase id)).
Proof.
  intros Hin Hout Hok Hterm. simpl. unfold bind at 1. unfold Date_now at 1.
  destruct (Z.ltb_spec (now w - start) IMAGE_SYNC_MAX_WAIT_MS) as [_ | Hge]; [| lia].
  simpl. unfold bind at 1. rewrite kieImageRecordInfo_run, Hout, Hok.
  unfold settled, throw_value. unfold bind at 1.
  destruct (normalizeKieStatusToSimple (body_json (body resp))) as [st |] eqn:Hst;
    [| reflexivity].
  unfold converted, ret.
  destruct (normalize_range _ _ Hst) as [<- | [<- | [<- | []]]]; simpl.
  - reflexivity.
  - destruct (toString (failure_message _ _)); reflexivity.
  - congruence.
Qed.

(** one turn of the loop, within the budget, on a pending record *)
Lemma wait_turn_pending (start : Z) (fuel : nat) (w : World) (resp : Response) :
  now w - start < IMAGE_SYNC_MAX_WAIT_MS ->
  outcome_of w (poll_request apiKey recordBase id) = Resolved resp ->
  ok resp = true ->
  normalizeKieStatusToSimple (body_json (body resp)) = Some "processing" ->
  waitForKieImageResult_loop (S fuel) apiKey recordBase taskId start w
  = waitForKieImageResult_loop fuel apiKey recordBase taskId start
      {| now := now (after_call w (poll_request apiKey recordBase id))
                + timer_delay IMAGE_SYNC_POLL_MS;
         calls := calls (after_call w (poll_request apiKey recordBase id));
         usageLogs := usageLogs (after_call w (poll_request apiKey recordBase id)) |}.
Proof.
  intros Hin Hout Hok Hst. simpl. unfold bind at 1. unfold Date_now at 1.
  destruct (Z.ltb_spec (now w - start) IMAGE_SYNC_MAX_WAIT_MS) as [_ | Hge]; [| lia].
  simpl. unfold bind at 1. rewrite kieImageRecordInfo_run, Hout, Hok.
  unfold bind at 1. rewrite Hst. unfold converted, ret. simpl.
  unfold bind at 1. unfold sleep at 1. reflexivity.
Qed.

Lemma wait_loop_settles (start : Z) (json : value) (limit : Z) (n : nat) :
  pending_until (poll_request apiKey recordBase id) n limit ->
  settles_at (poll_request apiKey recordBase id) n json ->
  normalizeKieStatusToSimple json <> Some "processing" ->
  forall (j fuel : nat) (w : World),
    (length (calls w) + j = n)%nat ->
    now w - start + Z.of_nat j * (limit + timer_delay IMAGE_SYNC_POLL_MS)
      < IMAGE_SYNC_MAX_WAIT_MS ->
    0 <= limit ->
    (j < fuel)%nat ->
    exists w' new,
      waitForKieImageResult_loop fuel apiKey recordBase taskId start w = (settled json, w') /\
      calls w' = (new ++ calls w)%list /\
      length new = S j /\
      Forall (fun c => snd c = poll_request apiKey recordBase id) new /\
      usageLogs w' = usageLogs w.
Proof.
  intros Hpend Hsettle Hterm.
  pose proof (timer_delay_positive IMAGE_SYNC_POLL_MS) as Hd.
  induction j as [| j IH]; intros fuel w Hlen Hbudget Hlimit Hfuel;
    (destruct fuel as [| fuel]; [lia |]).
  - destruct (Hsettle (calls w) (now w)) as (resp & elapsed & Hserve & Hok & Hjson); [lia |].
    assert (Hout : outcome_of w (poll_request apiKey recordBase id) = Resolved resp)
      by (unfold outcome_of; now rewrite Hserve).
    rewrite (wait_turn_settles start fuel w resp); trivial; [| lia | now rewrite Hjson].
    rewrite Hjson.
    exists (after_call w (poll_request apiKey recordBase id)),
           [(now w, poll_request apiKey recordBase id)].
    split; [reflexivity |]. split; [reflexivity |]. split; [reflexivity |].
    split; [| reflexivity]. constructor; [reflexivity | constructor].
  - destruct (Hpend (calls w) (now w)) as (resp & elapsed & Hserve & Hok & Hst & Hel); [lia |].
    assert (Hout : outcome_of w (poll_request apiKey recordBase id) = Resolved resp)
      by (unfold outcome_of; now rewrite Hserve).
    rewrite (wait_turn_pending start fuel w resp); trivial; [| nia].
    set (w1 := after_call w (poll_request apiKey recordBase id)).
    set (w2 := {| now := now w1 + timer_delay IMAGE_SYNC_POLL_MS;
                  calls := calls w1;
                  usageLogs := usageLogs w1 |}).
    assert (Hnow1 : now w1 = now w + elapsed)
      by (unfold w1, after_call; cbn [now]; now rewrite Hserve).
    destruct (IH fuel w2) as (w' & new & Hrun & Hcalls & Hn & Hpolls & Hlogs).
    + unfold w2, w1. simpl. lia.
    + unfold w2. cbn [now]. rewrite Hnow1. nia.
    + exact Hlimit.
    + lia.
    + exists w', (new ++ [(now w, poll_request apiKey recordBase id)])%list.
      split; [exact Hrun |]. split; [| split; [| split]].
      * rewrite Hcalls. unfold w2, w1. simpl. now rewrite <- app_assoc.
      * rewrite length_app, Hn. simpl. lia.
      * apply Forall_app. split; [exact Hpolls |]. constructor; [reflexivity | constructor].
      * rewrite Hlogs. reflexivity.
Qed.

End WaitLoop.

Section Waiting.

Context `{Platform}.

Variables (apiKey recordBase : string) (taskId : value) (id : string).

Hypothesis readable : toString taskId = Some id.

Hypothesis pending : always_pending (poll_request apiKey recordBase id).

Lemma wait_loop_times_out (start : Z) (fuel : nat) (w : World) :
  (Z.to_nat (start + IMAGE_SYNC_MAX_WAIT_MS - now w) < fuel)%nat ->
  exists w' times,
    waitForKieImageResult_loop fuel apiKey recordBase taskId start w
      = (Throw timed_out_message, w') /\
    start + IMAGE_SYNC_MAX_WAIT_MS <= now w' /\
    now w <= now w' /\
    calls w' =
      (rev (List.map (fun t => (t, poll_request apiKey recordBase id)) times)
         ++ calls w)%list /\
    usageLogs w' = usageLogs w /\
    Forall (fun t => now w <= t < start + IMAGE_SYNC_MAX_WAIT_MS) times /\
    paced (poll_request apiKey recordBase id) (calls w) (now w) times (now w') /\
    spaced (timer_delay IMAGE_SYNC_POLL_MS) times /\
    (now w < start + IMAGE_SYNC_MAX_WAIT_MS -> hd_error times = Some (now w)).
Proof.
  revert w. induction fuel as [| fuel IH]; intros w Hfuel; [lia |].
  destruct (Z.lt_ge_cases (now w - start) IMAGE_SYNC_MAX_WAIT_MS) as [Hin | Hout].
  - destruct (pending (calls w) (now w)) as (resp & elapsed & Hserve & Hok & Hst & Hpos).
    assert (Hanswer : outcome_of w (poll_request apiKey recordBase id) = Resolved resp)
      by (unfold outcome_of; now rewrite Hserve).
    rewrite (wait_turn_pending apiKey recordBase taskId id readable start fuel w resp);
      trivial.
    set (w1 := after_call w (poll_request apiKey recordBase id)) in *.
    set (w2 := {| now := now w1 + timer_delay IMAGE_SYNC_POLL_MS;
                  calls := calls w1;
                  usageLogs := usageLogs w1 |}).
    pose proof (timer_delay_positive IMAGE_SYNC_POLL_MS) as Hd.
    assert (Hnow1 : now w1 = now w + elapsed)
      by (unfold w1, after_call; cbn [now]; now rewrite Hserve).
    assert (Hnow2 : now w + timer_delay IMAGE_SYNC_POLL_MS <= now w2)
      by (unfold w2; cbn [now]; lia).
    destruct (IH w2) as
      (w' & times & Hrun & Hend & Hmono' & Hcalls & Hlogs & Hall & Hpaced & Hsp & _).
    { lia. }
    exists w', (now w :: times). rewrite Hrun.
    split; [reflexivity |]. split; [exact Hend |]. split; [lia |].
    split; [| split; [| split; [| split; [| split]]]].
    + rewrite Hcalls. simpl. now rewrite <- app_assoc.
    + rewrite Hlogs. reflexivity.
    + constructor; [lia |]. eapply Forall_impl; [exact Hall |].
      intros t Ht. cbv beta in Ht. lia.
    + simpl. split; [reflexivity |]. exact Hpaced.
    + apply spaced_cons; [| exact Hsp].
      eapply Forall_impl; [exact Hall |]. intros t Ht. cbv beta in Ht. lia.
    + reflexivity.
  - exists w, []. simpl. unfold bind at 1. unfold Date_now at 1.
    destruct (Z.ltb_spec (now w - start) IMAGE_SYNC_MAX_WAIT_MS) as [Hlt | _]; [lia |].
    simpl. unfold throw.
    repeat split; try lia; constructor.
Qed.

(** C7, as amended.  Against a record fetcher that answers every poll with
    a pending record, the wait ends, for any sufficient fuel, by throwing
    the time-out error.  The loop reads the clock at the start and then,
    after each poll, when the answer has come and the timer of
    [IMAGE_SYNC_POLL_MS] has run: every reading within the budget
    [IMAGE_SYNC_MAX_WAIT_MS] is followed by a poll, and the first reading at
    or past the budget ends the loop with the error, so the error is raised
    once the budget has elapsed and not before.  Nothing but polls is sent
    and the ledger is untouched.  The time-out error and the error of a
    failed job are errors of one kind, told apart by their message alone: on
    a failed record the same wait throws, after that one poll, the
    upstream's error value as text (or [image generation failed] when the
    record names none), and this is the time-out message exactly when the
    upstream worded its error so. *)
Theorem wait_times_out_after_budget (w : World) :
  forall fuel, (Z.to_nat IMAGE_SYNC_MAX_WAIT_MS < fuel)%nat ->
  (exists w' times,
     waitForKieImageResult fuel apiKey recordBase taskId w = (Throw timed_out_message, w') /\
     now w + IMAGE_SYNC_MAX_WAIT_MS <= now w' /\
     calls w' =
       (rev (List.map (fun t => (t, poll_request apiKey recordBase id)) times)
          ++ calls w)%list /\
     usageLogs w' = usageLogs w /\
     Forall (fun t => now w <= t < now w + IMAGE_SYNC_MAX_WAIT_MS) times /\
     paced (poll_request apiKey recordBase id) (calls w) (now w) times (now w') /\
     spaced (timer_delay IMAGE_SYNC_POLL_MS) times /\
     (0 < IMAGE_SYNC_MAX_WAIT_MS -> hd_error times = Some (now w))) /\
  (forall apiKey' recordBase' taskId' id' w1 resp,
     toString taskId' = Some id' ->
     0 < IMAGE_SYNC_MAX_WAIT_MS ->
     outcome_of w1 (poll_request apiKey' recordBase' id') = Resolved resp ->
     ok resp = true ->
     normalizeKieStatusToSimple (body_json (body resp)) = Some "failed" ->
     let error := failure_message (body_json (body resp)) "image generation failed" in
     let message := default cannot_convert (toString error) in
     waitForKieImageResult fuel apiKey' recordBase' taskId' w1
     = (Throw message, after_call w1 (poll_request apiKey' recordBase' id')) /\
     (error = VStr "image generation failed" -> message <> timed_out_message) /\
     (message = timed_out_message <-> toString error = Some timed_out_message)).
Proof.
  intros fuel Hfuel. split.
  - destruct (wait_loop_times_out (now w) fuel w) as
      (w' & times & Hrun & Hend & _ & Hcalls & Hlogs & Hall & Hpaced & Hsp & Hfirst).
    { replace (now w + IMAGE_SYNC_MAX_WAIT_MS - now w) with IMAGE_SYNC_MAX_WAIT_MS by lia.
      exact Hfuel. }
    exists w', times. unfold waitForKieImageResult, bind. unfold Date_now at 1.
    rewrite Hrun. repeat split; trivial.
    intros Hpos. apply Hfirst. lia.
  - intros apiKey' recordBase' taskId' id' w1 resp Hid Hpos Hout Hok Hfailed error message.
    split; [| split].
    + destruct fuel as [| fuel']; [lia |].
      unfold waitForKieImageResult, bind. unfold Date_now at 1.
      rewrite (wait_turn_settles apiKey' recordBase' taskId' id' Hid (now w1) fuel' w1 resp);
        trivial; [| lia | rewrite Hfailed; discriminate].
      unfold settled. rewrite Hfailed. simpl. subst message error.
      destruct (toString (failure_message _ _)); reflexivity.
    + intros Hbare. subst message. rewrite Hbare. discriminate.
    + subst message. destruct (toString error) as [m |]; simpl.
      * split; [intros -> | intros [= ->]]; reflexivity.
      * split; discriminate.
Qed.

End Waiting.

Lemma wait_times_out_after_budget_witness :
  (exists w',
     @waitForKieImageResult image_jobs (Z.to_nat 6000) "key-1"
       "https://api.kie.ai/api/v1/image/record-info" (VStr "img-1") world0
       = (Throw timed_out_message, w') /\
     5000 <= now w' /\
     List.map fst (calls w') = [4080; 2040; 0]) /\
  (exists w',
     @waitForKieImageResult image_jobs (Z.to_nat 6000) "key-1"
       "https://api.kie.ai/api/v1/image/record-info" (VStr "img-2") world0
       = (Throw "image generation failed", w') /\
     List.map fst (calls w') = [0]).
Proof.
  destruct (@wait_times_out_after_budget image_jobs "key-1"
              "https://api.kie.ai/api/v1/image/record-info" (VStr "img-1") "img-1" eq_refl)
    with (w := world0) (fuel := Z.to_nat 6000)
    as ((w' & times & Hrun & Hend & Hcalls & _) & Hfailure).
  - intros history t. do 2 eexists. repeat split. vm_compute. discriminate.
  - vm_compute. lia.
  - split.
    + exists w'. split; [exact Hrun |]. split; [exact Hend |].
      assert (E : @waitForKieImageResult image_jobs (Z.to_nat 6000) "key-1"
                    "https://api.kie.ai/api/v1/image/record-info" (VStr "img-1") world0
                  = (Throw timed_out_message,
                     snd (@waitForKieImageResult image_jobs 10 "key-1"
                            "https://api.kie.ai/api/v1/image/record-info" (VStr "img-1")
                            world0)))
        by (vm_compute; reflexivity).
      rewrite E in Hrun. injection Hrun as <-. vm_compute. reflexivity.
    + destruct (Hfailure "key-1" "https://api.kie.ai/api/v1/image/record-info"
                  (VStr "img-2") "img-2" world0
                  (mkResponse 200 [] (JsonDoc bare_failure)))
        as [Hthrown _]; try reflexivity.
      eexists. split; [exact Hthrown | reflexivity].
Defined.

(** C7 as the specification words it fails: the time-out error is not an
    error distinct from that of a failed job.  A job whose record says
    [failed] and words its error as the server words a time-out makes the
    wait throw the very error of a time-out, after a single poll and with
    none of the budget of 5 s spent. *)
Lemma wait_failure_told_by_message_only :
  normalizeKieStatusToSimple failure_worded_as_time_out = Some "failed" /\
  (let run := @waitForKieImageResult image_jobs (Z.to_nat 6000) "key-1"
                "https://api.kie.ai/api/v1/image/record-info" (VStr "img-3") world0 in
   fst run = Throw timed_out_message /\
   List.map fst (calls (snd run)) = [0] /\
   now (snd run) = 40 /\
   now (snd run) < now world0 + @IMAGE_SYNC_MAX_WAIT_MS image_jobs).
Proof. vm_compute. repeat split. Qed.

(* ================================================================== *)
(** * The caller-facing routes *)
(* ================================================================== *)

Section Routes.

Context `{Platform}.

(** C8.  On every route of the compatibility layer a request without a
    bearer token (and, on the Gemini-style route, without a [key] query
    parameter) is answered 401 and leaves the world as it was: no upstream
    call, no ledger entry, no time spent. *)
Theorem missing_credential_rejected (fuel : nat) (route : Route) (req : Incoming)
    (w : World) :
  getBearerToken req = "" ->
  (route = PostGenerateContent -> get (query req) "key" = VUndef) ->
  exists content, app fuel route req w = (Ok (ReplyJson 401 content), w).
Proof.
  intros Hbearer Hkey.
  destruct route; simpl;
    unfold post_videos, get_video, post_text2video, post_image2video, get_kling_video,
      post_chat_completions, missing_bearer_kling;
    try (rewrite Hbearer; simpl; eexists; reflexivity).
  unfold post_generateContent, getApiKeyFromReq.
  rewrite Hbearer, (Hkey eq_refl). unfold bind. simpl. eexists. reflexivity.
Qed.

Lemma no_header_no_token (req : Incoming) :
  authorization req = None -> getBearerToken req = "".
Proof. intros Hnone. unfold getBearerToken. rewrite Hnone. reflexivity. Qed.

Lemma polish_empty_iff (text : string) :
  String.eqb (simplePromptPolish text) "" = String.eqb text "".
Proof.
  unfold simplePromptPolish. destruct (String.eqb text ""); reflexivity.
Qed.

(** C4, as amended.  A Gemini-style request that carries a credential, no
    inline image and no [responseModalities], and whose model name does not
    contain [image], is answered locally: one candidate with the single text
    part [simplePromptPolish prompt], no upstream call, no time spent, and
    one ledger entry of kind [text]. *)
Theorem text_only_generate_is_local (fuel : nat) (req : Incoming) (w : World)
    (apiKey : string) :
  let body := or (payload req) (VObj []) in
  let prompt := fst (extractGeminiTextAndInlineImages body) in
  getApiKeyFromReq req = Some apiKey -> apiKey <> "" ->
  snd (extractGeminiTextAndInlineImages body) = [] ->
  get (get body "generationConfig") "responseModalities" = VUndef ->
  includes (toLowerCase (param req)) "image" = false ->
  exists w',
    post_generateContent fuel req w
      = (Ok (ReplyJson 200 (text_candidate (simplePromptPolish prompt))), w') /\
    calls w' = calls w /\
    now w' = now w /\
    usageLogs w' =
      pushUsageLog apiKey
        (mkUsageLog (now w / 1000)
           ("local-prompt-polish:" ++
              (if String.eqb (param req) "" then "text" else param req))
           prompt 0 (generate_path (param req)) "text")
        (usageLogs w).
Proof.
  intros body prompt Hread Hkey Himages Hmod Hmodel.
  unfold post_generateContent. unfold bind at 1. rewrite Hread. unfold converted, ret.
  apply String.eqb_neq in Hkey. rewrite Hkey.
  fold body. destruct (extractGeminiTextAndInlineImages body) as [p images] eqn:E.
  simpl in Himages. subst images. subst prompt. cbn [fst].
  rewrite Hmod, Hmodel. simpl.
  assert (Htext : (if negb (String.eqb (simplePromptPolish p) "")
                   then simplePromptPolish p else p) = simplePromptPolish p).
  { rewrite polish_empty_iff. destruct (String.eqb_spec p "") as [-> | Hp]; reflexivity. }
  rewrite Htext.
  eexists. split.
  - unfold guarded, try_catch, bind, nowUnix, logUsage, ret. simpl. reflexivity.
  - repeat split.
Qed.

End Routes.

Lemma missing_credential_rejected_witness :
  exists content,
    @app offline_deployment 10 PostImage2Video
      (anonymous (VObj [("prompt", VStr "a cat"); ("image", VStr "iVBORw0KGgo=")])) world0
    = (Ok (ReplyJson 401 content), world0).
Proof.
  apply (@missing_credential_rejected offline_deployment); [reflexivity | discriminate].
Defined.

Lemma text_only_generate_is_local_witness :
  exists w',
    @post_generateContent offline_deployment 10 text_model_request world0
      = (Ok (ReplyJson 200 (text_candidate (@simplePromptPolish "a cat"))), w') /\
    calls w' = [] /\
    now w' = 0.
Proof.
  destruct (@text_only_generate_is_local offline_deployment 10 text_model_request world0
              "key-1")
    as (w' & Hrun & Hcalls & Hnow & _); try reflexivity.
  - discriminate.
  - exists w'. repeat split; assumption.
Defined.

(** C4 as the specification words it fails: a request with no inline image
    and no [responseModalities], addressed to a model whose name contains
    [image], goes upstream (here four generation attempts against an
    unreachable upstream) and is not answered with the local text. *)
Lemma image_model_goes_upstream :
  snd (extractGeminiTextAndInlineImages (payload image_model_request)) = [] /\
  get (get (payload image_model_request) "generationConfig") "responseModalities" = VUndef /\
  (let run := @post_generateContent offline_deployment 10 image_model_request world0 in
   length (calls (snd run)) = 4%nat /\
   fst run = Ok (ReplyJson 500 (obj1 "error" (VStr image_failed_message)))).
Proof. repeat split. Qed.

(* ================================================================== *)
(** * Aspect ratio on the vendor routes *)
(* ================================================================== *)

Section AspectRatio.

Context `{Platform}.

Lemma issued_only_refl (P : Request -> Prop) (w : World) : issued_only P w w.
Proof. exists []. split; [reflexivity | constructor]. Qed.

Lemma issued_only_trans (P : Request -> Prop) (w1 w2 w3 : World) :
  issued_only P w1 w2 -> issued_only P w2 w3 -> issued_only P w1 w3.
Proof.
  intros (new1 & E1 & F1) (new2 & E2 & F2). exists (new2 ++ new1)%list. split.
  - unfold issued in *. rewrite E2, E1. apply app_assoc.
  - apply Forall_app. split; assumption.
Qed.

Lemma issued_only_fetch (P : Request -> Prop) (r : Request) (w : World) :
  P r -> issued_only P w (snd (fetch r w)).
Proof.
  intros Hr. rewrite fetch_run. simpl. exists [(now w, r)]. split.
  - reflexivity.
  - constructor; [exact Hr | constructor].
Qed.

Lemma calls_kieCreateTask apiKey model input w :
  calls (snd (kieCreateTask apiKey model input w))
  = (now w, createTask_request apiKey model input) :: calls w.
Proof.
  unfold kieCreateTask, fetchJson, bind. fold (createTask_request apiKey model input).
  rewrite fetch_run.
  destruct (outcome_of w _) as [reason | resp]; simpl; [reflexivity |].
  destruct (ok resp); simpl; [| reflexivity].
  destruct (truthy (taskId_of (body_json (body resp)))); reflexivity.
Qed.

Lemma get_beside_aspect_ratio (k : string) (a : value) (fields : list (string * value)) :
  k <> "aspect_ratio" ->
  get (or (VObj (("aspect_ratio", a) :: fields)) (VObj [])) k
  = get (or (VObj fields) (VObj [])) k.
Proof.
  intros Hk. simpl. apply String.eqb_neq in Hk. now rewrite Hk.
Qed.

Lemma image2video_ignores_aspect_ratio (a : value) (req : Incoming) (w : World) :
  post_image2video (with_aspect_ratio a req) w = post_image2video req w.
Proof.
  unfold with_aspect_ratio. destruct (payload req) as [| | | | | | fields] eqn:E; trivial.
  unfold post_image2video, getBearerToken, text_field. cbn [authorization payload].
  rewrite E. rewrite !get_beside_aspect_ratio by discriminate. reflexivity.
Qed.

Lemma text2video_submission (req : Incoming) (w : World) (prompt ratio duration : string) :
  getBearerToken req <> "" ->
  text_field (or (payload req) (VObj [])) "prompt" = Some prompt ->
  mapAspectRatio (get (or (payload req) (VObj [])) "aspect_ratio") = Some ratio ->
  toString (or (get (or (payload req) (VObj [])) "duration") (VStr "5")) = Some duration ->
  calls (snd (post_text2video req w))
  = (now w, createTask_request (getBearerToken req) "kling-2.6/text-to-video"
              (text2video_input prompt ratio duration)) :: calls w.
Proof.
  intros Hk Hprompt Hratio Hduration. apply String.eqb_neq in Hk.
  unfold post_text2video. rewrite Hk. cbv zeta.
  unfold guarded, try_catch.
  unfold bind at 1. rewrite Hprompt. unfold converted at 1. unfold ret at 1.
  unfold bind at 1. rewrite Hratio. unfold converted at 1. unfold ret at 1.
  unfold bind at 1. rewrite Hduration. unfold converted at 1. unfold ret at 1.
  unfold bind at 1. fold (text2video_input prompt ratio duration).
  pose proof (calls_kieCreateTask (getBearerToken req) "kling-2.6/text-to-video"
                (text2video_input prompt ratio duration) w) as Hcalls.
  destruct (kieCreateTask _ _ _ w) as [[t | e |] w1]; simpl in *; exact Hcalls.
Qed.

Lemma text2video_unreadable_ratio (req : Incoming) (w : World) :
  getBearerToken req <> "" ->
  mapAspectRatio (get (or (payload req) (VObj [])) "aspect_ratio") = None ->
  post_text2video req w = (Ok (ReplyJson 500 (obj1 "message" (VStr cannot_convert))), w).
Proof.
  intros Hk Hratio. apply String.eqb_neq in Hk.
  unfold post_text2video. rewrite Hk. cbv zeta.
  unfold guarded, try_catch. unfold bind at 1.
  destruct (text_field _ "prompt") as [prompt |]; [| reflexivity].
  unfold converted at 1. unfold ret at 1. unfold bind at 1. rewrite Hratio. reflexivity.
Qed.

Lemma caller_ratio_kept (a : string) :
  In a caller_ratios -> mapAspectRatio (VStr a) = Some a.
Proof.
  unfold caller_ratios. simpl.
  intros [<- | [<- | [<- | [<- | [<- | []]]]]]; reflexivity.
Qed.

(** C6.  Every JSON job submission the image-seed route sends upstream
    carries the aspect ratio 16:9, and the route behaves the same whatever
    [aspect_ratio] the caller puts in the body.  The text-seed route, when
    the three fields it reads convert to text, submits one job whose aspect
    ratio is [mapAspectRatio] of the caller's [aspect_ratio] field; so a
    caller who asks for one of 16:9, 9:16, 1:1, 4:3 and 3:4 gets a job with
    that ratio; and when the caller's [aspect_ratio] cannot be converted to
    text the route replies 500 without submitting anything. *)
Theorem image2video_aspect_ratio_fixed :
  (forall req w,
     issued_only (carries_aspect "16:9") w (snd (post_image2video req w))) /\
  (forall a req w,
     post_image2video (with_aspect_ratio a req) w = post_image2video req w) /\
  (forall req w prompt ratio duration,
     getBearerToken req <> "" ->
     text_field (or (payload req) (VObj [])) "prompt" = Some prompt ->
     mapAspectRatio (get (or (payload req) (VObj [])) "aspect_ratio") = Some ratio ->
     toString (or (get (or (payload req) (VObj [])) "duration") (VStr "5")) = Some duration ->
     calls (snd (post_text2video req w))
     = (now w, createTask_request (getBearerToken req) "kling-2.6/text-to-video"
                 (text2video_input prompt ratio duration)) :: calls w) /\
  (forall a req w fields prompt duration,
     In a caller_ratios ->
     getBearerToken req <> "" ->
     payload req = VObj fields ->
     text_field (VObj fields) "prompt" = Some prompt ->
     toString (or (get (VObj fields) "duration") (VStr "5")) = Some duration ->
     calls (snd (post_text2video (with_aspect_ratio (VStr a) req) w))
     = (now w, createTask_request (getBearerToken req) "kling-2.6/text-to-video"
                 (text2video_input prompt a duration)) :: calls w) /\
  (forall req w,
     getBearerToken req <> "" ->
     mapAspectRatio (get (or (payload req) (VObj [])) "aspect_ratio") = None ->
     post_text2video req w
     = (Ok (ReplyJson 500 (obj1 "message" (VStr cannot_convert))), w)).
Proof.
  split; [| split; [| split; [| split]]].
  - intros req w.
    apply (preserves_post_image2video (issued_only (carries_aspect "16:9"))
             (carries_aspect "16:9")); trivial.
    + apply issued_only_refl.
    + apply issued_only_trans.
    + intros r w0. apply issued_only_fetch.
    + intros apiKey log w0. exists []. split; [reflexivity | constructor].
    + intros method url apiKey name type content v. discriminate.
  - apply image2video_ignores_aspect_ratio.
  - apply text2video_submission.
  - intros a req w fields prompt duration Ha Hk Hbody Hprompt Hduration.
    assert (Hsame : getBearerToken (with_aspect_ratio (VStr a) req) = getBearerToken req)
      by (unfold with_aspect_ratio; rewrite Hbody; reflexivity).
    rewrite <- Hsame.
    apply text2video_submission.
    + now rewrite Hsame.
    + unfold with_aspect_ratio. rewrite Hbody. cbn [payload].
      unfold text_field. rewrite get_beside_aspect_ratio by discriminate. exact Hprompt.
    + unfold with_aspect_ratio. rewrite Hbody. cbn [payload].
      change (get (or (VObj (("aspect_ratio", VStr a) :: fields)) (VObj [])) "aspect_ratio")
        with (VStr a).
      now apply caller_ratio_kept.
    + unfold with_aspect_ratio. rewrite Hbody. cbn [payload].
      rewrite get_beside_aspect_ratio by discriminate. exact Hduration.
  - apply text2video_unreadable_ratio.
Qed.

End AspectRatio.

Lemma image2video_aspect_ratio_fixed_witness :
  calls (snd (@post_text2video accepts_jobs portrait_request world0))
  = [(0, @createTask_request accepts_jobs "key-1" "kling-2.6/text-to-video"
           (text2video_input "a cat" "9:16" "5"))] /\
  calls (snd (@post_text2video accepts_jobs
                (with_aspect_ratio (VStr "4:3") portrait_request) world0))
  = [(0, @createTask_request accepts_jobs "key-1" "kling-2.6/text-to-video"
           (text2video_input "a cat" "4:3" "5"))] /\
  @post_text2video accepts_jobs (with_aspect_ratio no_text portrait_request) world0
  = (Ok (ReplyJson 500 (obj1 "message" (VStr cannot_convert))), world0) /\
  List.map (fun c => match req_body (snd c) with
                     | JsonBody v => get (get v "input") "aspect_ratio"
                     | _ => VUndef
                     end)
    (calls (snd (@post_image2video accepts_jobs
                   (with_aspect_ratio no_text portrait_request) world0)))
  = [VStr "16:9"; VUndef].
Proof.
  destruct (@image2video_aspect_ratio_fixed accepts_jobs)
    as (_ & Hignored & Htext & Hkept & Hrefused).
  split; [| split; [| split]].
  - apply (Htext portrait_request world0 "a cat" "9:16" "5");
      [vm_compute; discriminate | reflexivity | reflexivity | reflexivity].
  - apply (Hkept "4:3" portrait_request world0
             [("prompt", VStr "a cat"); ("aspect_ratio", VStr "9:16");
              ("duration", VStr "5"); ("image", VStr "iVBORw0KGgo=")] "a cat" "5");
      [simpl; tauto | vm_compute; discriminate | reflexivity | reflexivity | reflexivity].
  - apply (Hrefused (with_aspect_ratio no_text portrait_request) world0);
      [vm_compute; discriminate | reflexivity].
  - rewrite (Hignored no_text portrait_request world0). vm_compute. reflexivity.
Defined.

(* ================================================================== *)
(** * Further properties: the pure helpers *)
(* ================================================================== *)

Section PureHelpers.

Lemma prefix_split (a s : string) :
  String.prefix a s = true -> exists t, s = a ++ t.
Proof.
  revert s. induction a as [| c a IH]; intros s Hp.
  - exists s. reflexivity.
  - destruct s as [| d s]; simpl in Hp; [discriminate |].
    destruct (ascii_dec c d) as [-> | Hne]; [| discriminate].
    destruct (IH s Hp) as [t ->]. exists t. reflexivity.
Qed.

Lemma prefix_append (a t : string) : String.prefix a (a ++ t) = true.
Proof.
  induction a as [| c a IH]; simpl; [destruct t; reflexivity |].
  destruct (ascii_dec c c); [exact IH | congruence].
Qed.

Lemma prefix_comparable (a b s : string) :
  String.prefix a s = true -> String.prefix b s = true ->
  String.prefix a b = true \/ String.prefix b a = true.
Proof.
  revert b s. induction a as [| c a IH]; intros b s Ha Hb.
  - left. destruct b; reflexivity.
  - destruct b as [| d b]; [right; reflexivity |].
    destruct s as [| e s]; simpl in Ha, Hb; [discriminate |].
    destruct (ascii_dec c e) as [Hce | ]; [subst c | discriminate].
    destruct (ascii_dec d e) as [Hde | ]; [subst d | discriminate].
    simpl. destruct (ascii_dec e e); [| congruence]. eauto.
Qed.

Lemma before_question_prefix (s : string) : String.prefix (before_question s) s = true.
Proof.
  induction s as [| c s IH]; simpl; [reflexivity |].
  destruct (Ascii.eqb c "?"); simpl; [reflexivity |].
  destruct (ascii_dec c c); [exact IH | congruence].
Qed.

Lemma prefix_of_prefix (a b s : string) :
  String.prefix a b = true -> String.prefix b s = true -> String.prefix a s = true.
Proof.
  intros Hab Hbs.
  destruct (prefix_split _ _ Hab) as [t ->].
  destruct (prefix_split _ _ Hbs) as [u ->].
  clear. induction a as [| c a IH].
  - change (("" ++ t) ++ u) with (t ++ u). destruct (t ++ u); reflexivity.
  - change ((String c a ++ t) ++ u) with (String c ((a ++ t) ++ u)). simpl.
    destruct (ascii_dec c c); [exact IH | congruence].
Qed.

Lemma prefix_refl (p : string) : String.prefix p p = true.
Proof.
  induction p as [| c p IH]; simpl; [reflexivity |].
  destruct (ascii_dec c c); [exact IH | congruence].
Qed.

(** a path under one of the stripped prefixes begins with that prefix *)
Lemma under_prefix_starts (pathname p : string) :
  under_prefix pathname p = true -> String.prefix p pathname = true.
Proof.
  unfold under_prefix, startsWith. intros Hu. apply orb_prop in Hu as [He | Hs].
  - apply String.eqb_eq in He. subst. apply prefix_refl.
  - apply (prefix_of_prefix p (p ++ "/") pathname); [apply prefix_append | exact Hs].
Qed.

Lemma stripped_prefix_not_api (p s : string) :
  In p STRIP_API_PREFIXES -> String.prefix p s = true -> String.prefix "/api/" s = false.
Proof.
  intros Hin Hp. destruct (String.prefix "/api/" s) eqn:Hapi; [| reflexivity].
  destruct (prefix_comparable _ _ _ Hp Hapi) as [H1 | H1];
    unfold STRIP_API_PREFIXES in Hin; simpl in Hin;
    repeat (destruct Hin as [<- | Hin]; [vm_compute in H1; discriminate |]);
    contradiction.
Qed.

Lemma strip_api_prefix_cases (url : string) :
  strip_api_prefix url = url \/
  exists p t,
    url = "/api/" ++ t /\ strip_api_prefix url = "/" ++ t /\
    In p STRIP_API_PREFIXES /\ String.prefix p ("/" ++ t) = true.
Proof.
  unfold strip_api_prefix, startsWith.
  destruct (negb (String.eqb url "") && String.prefix "/api/" url) eqn:Hapi; [| now left].
  apply andb_prop in Hapi as [_ Hapi].
  destruct (prefix_split _ _ Hapi) as [t ->].
  change (slice_from 4 ("/api/" ++ t)) with ("/" ++ t). cbv zeta.
  destruct (negb (String.eqb (before_question ("/" ++ t)) "/health")
            && negb (String.prefix "/proxy/" (before_question ("/" ++ t)))
            && existsb (under_prefix (before_question ("/" ++ t))) STRIP_API_PREFIXES)
    eqn:Hgo; [| now left].
  apply andb_prop in Hgo as [_ Hex].
  apply existsb_exists in Hex as (p & Hin & Hunder).
  right. exists p, t. repeat split; trivial.
  apply (prefix_of_prefix p (before_question ("/" ++ t))).
  - now apply under_prefix_starts.
  - apply before_question_prefix.
Qed.

(** X1.  The rewrite in front of the routes either leaves the URL alone or
    removes exactly the leading [/api], query string included in what is
    kept; a rewritten URL begins with one of the stripped prefixes; and
    rewriting a second time changes nothing. *)
Theorem strip_api_prefix_idempotent (url : string) :
  (strip_api_prefix url = url \/ url = "/api" ++ strip_api_prefix url) /\
  (strip_api_prefix url <> url ->
   exists p, In p STRIP_API_PREFIXES /\ startsWith (strip_api_prefix url) p = true) /\
  strip_api_prefix (strip_api_prefix url) = strip_api_prefix url.
Proof.
  destruct (strip_api_prefix_cases url) as [Hsame | (p & t & -> & Hres & Hin & Hp)].
  - rewrite !Hsame. repeat split; [now left | congruence].
  - rewrite Hres. repeat split.
    + now right.
    + intros _. exists p. split; assumption.
    + pose proof (stripped_prefix_not_api p _ Hin Hp) as Hno.
      unfold strip_api_prefix, startsWith. rewrite Hno.
      rewrite andb_false_r. reflexivity.
Qed.

Lemma strip_api_prefix_idempotent_witness :
  strip_api_prefix "/api/v1/videos?x=1" <> "/api/v1/videos?x=1" /\
  exists p, In p STRIP_API_PREFIXES /\
            startsWith (strip_api_prefix "/api/v1/videos?x=1") p = true.
Proof.
  assert (Hne : strip_api_prefix "/api/v1/videos?x=1" <> "/api/v1/videos?x=1")
    by (vm_compute; discriminate).
  split; [exact Hne |].
  exact (proj1 (proj2 (strip_api_prefix_idempotent "/api/v1/videos?x=1")) Hne).
Defined.

Example api_prefix_stripped :
  strip_api_prefix "/api/v1/videos?x=1" = "/v1/videos?x=1" /\
  strip_api_prefix "/api/health" = "/api/health" /\
  strip_api_prefix "/api/proxy/log/self" = "/api/proxy/log/self" /\
  strip_api_prefix "/api/v1beta/models/m:generateContent?key=k"
    = "/v1beta/models/m:generateContent?key=k" /\
  strip_api_prefix "/api/v10/x" = "/api/v10/x" /\
  strip_api_prefix "/v1/videos" = "/v1/videos".
Proof. repeat split. Qed.

Lemma mapAspectRatio_range (v : value) (ratio : string) :
  mapAspectRatio v = Some ratio -> In ratio aspect_ratios.
Proof.
  unfold mapAspectRatio, aspect_ratios.
  destruct (toString (or v (VStr ""))) as [text |]; [| discriminate].
  cbv zeta. generalize (trim text). intros t [= <-].
  destruct (String.eqb t ""); [simpl; tauto |].
  destruct (String.eqb_spec t "16:9") as [-> | _]; [simpl; tauto |].
  destruct (String.eqb_spec t "9:16") as [-> | _]; [simpl; tauto |].
  destruct (String.eqb_spec t "1:1") as [-> | _]; [simpl; tauto |].
  destruct (String.eqb_spec t "4:3") as [-> | _]; [simpl; tauto |].
  destruct (String.eqb_spec t "3:4") as [-> | _]; [simpl; tauto |].
  cbn [orb]. destruct (String.eqb (toLowerCase t) "auto"); simpl; tauto.
Qed.

(** X2.  [mapAspectRatio] throws exactly when its argument cannot be
    converted to text.  Otherwise it gives one of the six aspect ratios, and
    mapping its own result again changes nothing. *)
Theorem mapAspectRatio_in_enumeration (v : value) :
  (mapAspectRatio v = None <-> toString (or v (VStr "")) = None) /\
  (forall ratio,
     mapAspectRatio v = Some ratio ->
     In ratio aspect_ratios /\ mapAspectRatio (VStr ratio) = Some ratio).
Proof.
  split.
  - unfold mapAspectRatio. destruct (toString (or v (VStr ""))); split; congruence.
  - intros ratio Hmapped.
    pose proof (mapAspectRatio_range v ratio Hmapped) as Hin. split; [exact Hin |].
    unfold aspect_ratios in Hin.
    destruct Hin as [<- | [<- | [<- | [<- | [<- | [<- | []]]]]]]; vm_compute; reflexivity.
Qed.

Lemma mapAspectRatio_in_enumeration_witness :
  mapAspectRatio no_text = None /\
  In "Auto" aspect_ratios /\ mapAspectRatio (VStr "Auto") = Some "Auto".
Proof.
  split.
  - apply (proj1 (mapAspectRatio_in_enumeration no_text)). reflexivity.
  - apply (proj2 (mapAspectRatio_in_enumeration (VStr " auto ")) "Auto"). reflexivity.
Defined.

Lemma detectImageMime_range (b : option (list byte)) :
  In (detectImageMime b) sniffed_mimes.
Proof.
  unfold detectImageMime, sniffed_mimes. destruct b as [b |]; [| simpl; tauto].
  destruct (length b <? 4)%nat; [simpl; tauto |].
  destruct b as [| b0 [| b1 [| b2 [| b3 rest]]]]; try (simpl; tauto).
  repeat match goal with
         | |- context [if ?c then _ else _] => destruct c
         end; simpl; tauto.
Qed.

(** X3.  Whatever the bytes, the MIME type sniffed from a buffer is one of
    the four image types, and the file extension derived from it is an image
    extension, never [bin]. *)
Theorem sniffed_mime_has_image_extension (b : option (list byte)) :
  In (detectImageMime b) sniffed_mimes /\
  In (extFromMime (detectImageMime b)) image_extensions /\
  extFromMime (detectImageMime b) <> "bin".
Proof.
  pose proof (detectImageMime_range b) as Hin. split; [exact Hin |].
  unfold sniffed_mimes in Hin. simpl in Hin.
  destruct Hin as [<- | [<- | [<- | [<- | []]]]];
    (split; [vm_compute; tauto | vm_compute; discriminate]).
Qed.

Lemma lower_ascii_idempotent (c : ascii) : lower_ascii (lower_ascii c) = lower_ascii c.
Proof. destruct c as [[] [] [] [] [] [] [] []]; reflexivity. Qed.

(** lowering an ASCII letter never gives one of the bytes the two special
    letters are written with *)
Lemma lower_ascii_keeps (n : nat) (c : ascii) :
  In n [132; 170; 176; 196; 226]%nat -> byte_is (lower_ascii c) n = byte_is c n.
Proof.
  simpl. intros [<- | [<- | [<- | [<- | [<- | []]]]]];
    destruct c as [[] [] [] [] [] [] [] []]; reflexivity.
Qed.

Lemma toLowerCase_plain (a : ascii) (t : string) :
  special_letter (String a t) = false ->
  toLowerCase (String a t) = String (lower_ascii a) (toLowerCase t).
Proof.
  destruct t as [| b [| c r]]; simpl; trivial.
  - intros ->. reflexivity.
  - intros Hs. apply orb_false_elim in Hs as [-> ->]. reflexivity.
Qed.

Lemma toLowerCase_ordinary (a : ascii) (t : string) :
  byte_is a 196 = false -> byte_is a 226 = false ->
  toLowerCase (String a t) = String (lower_ascii a) (toLowerCase t).
Proof.
  intros H196 H226. apply toLowerCase_plain.
  destruct t as [| b [| c r]]; simpl; trivial;
    unfold is_dotted_capital_i, is_kelvin_sign; now rewrite ?H196, ?H226.
Qed.

(** the first byte of a lowered string, when it is one of the bytes the
    special letters continue with, was the first byte before *)
Lemma toLowerCase_head (n : nat) (s : string) :
  In n [132; 170; 176]%nat ->
  match toLowerCase s with
  | String x _ => byte_is x n
  | EmptyString => false
  end
  = match s with
    | String a _ => byte_is a n
    | EmptyString => false
    end.
Proof.
  intros Hn. destruct s as [| a t]; [reflexivity |].
  assert (Hkeep : byte_is (lower_ascii a) n = byte_is a n)
    by (apply lower_ascii_keeps; simpl in *; tauto).
  destruct (special_letter (String a t)) eqn:Hs.
  - destruct t as [| b [| c r]]; simpl in Hs; try discriminate.
    + unfold toLowerCase. rewrite Hs.
      unfold is_dotted_capital_i in Hs. apply andb_prop in Hs as [Ha _].
      apply Nat.eqb_eq in Ha. unfold byte_is. rewrite Ha.
      simpl in Hn. destruct Hn as [<- | [<- | [<- | []]]]; reflexivity.
    + simpl. destruct (is_dotted_capital_i a b) eqn:Hd.
      * unfold is_dotted_capital_i in Hd. apply andb_prop in Hd as [Ha _].
        apply Nat.eqb_eq in Ha. unfold byte_is. rewrite Ha.
        simpl in Hn. destruct Hn as [<- | [<- | [<- | []]]]; reflexivity.
      * simpl in Hs. rewrite Hs.
        unfold is_kelvin_sign in Hs. apply andb_prop in Hs as [Hab _].
        apply andb_prop in Hab as [Ha _].
        apply Nat.eqb_eq in Ha. unfold byte_is. rewrite Ha.
        simpl in Hn. destruct Hn as [<- | [<- | [<- | []]]]; reflexivity.
  - rewrite (toLowerCase_plain a t Hs). exact Hkeep.
Qed.

(** where no special letter begins, none begins after lowering *)
Lemma special_letter_lowered (a : ascii) (t : string) :
  special_letter (String a t) = false ->
  special_letter (String (lower_ascii a) (toLowerCase t)) = false.
Proof.
  intros Hs.
  assert (H196 : byte_is (lower_ascii a) 196 = byte_is a 196)
    by (apply lower_ascii_keeps; simpl; tauto).
  assert (H226 : byte_is (lower_ascii a) 226 = byte_is a 226)
    by (apply lower_ascii_keeps; simpl; tauto).
  pose proof (toLowerCase_head 176 t ltac:(simpl; tauto)) as H176.
  pose proof (toLowerCase_head 132 t ltac:(simpl; tauto)) as H132.
  destruct t as [| b t']; [reflexivity |].
  assert (Hdot : is_dotted_capital_i a b = false).
  { destruct t' as [| c r]; simpl in Hs; [exact Hs |].
    now apply orb_false_elim in Hs as [-> _]. }
  destruct (toLowerCase (String b t')) as [| b' u] eqn:Hlow; [reflexivity |].
  assert (Hdot' : is_dotted_capital_i (lower_ascii a) b' = false).
  { unfold is_dotted_capital_i in *. now rewrite H196, H176. }
  destruct u as [| c' u']; simpl; [exact Hdot' |].
  rewrite Hdot'. simpl.
  unfold is_kelvin_sign. rewrite H226, H132.
  destruct (byte_is a 226) eqn:Ha; [| reflexivity].
  destruct (byte_is b 132) eqn:Hb; [| reflexivity]. simpl.
  (* the second byte is kept, so the third one is the head of the lowered rest *)
  assert (Hb196 : byte_is b 196 = false)
    by (unfold byte_is in *; apply Nat.eqb_eq in Hb; rewrite Hb; reflexivity).
  assert (Hb226 : byte_is b 226 = false)
    by (unfold byte_is in *; apply Nat.eqb_eq in Hb; rewrite Hb; reflexivity).
  rewrite (toLowerCase_ordinary b t' Hb196 Hb226) in Hlow.
  injection Hlow as _ Hu.
  pose proof (toLowerCase_head 170 t' ltac:(simpl; tauto)) as H170.
  rewrite Hu in H170. rewrite H170.
  destruct t' as [| c r]; [reflexivity |].
  simpl in Hs. rewrite Hdot in Hs. simpl in Hs.
  unfold is_kelvin_sign in Hs. now rewrite Ha, Hb in Hs.
Qed.

Lemma toLowerCase_dotted (a b : ascii) (r : string) :
  is_dotted_capital_i a b = true ->
  toLowerCase (String a (String b r))
  = String "i" (String (ascii_of_nat 204) (String (ascii_of_nat 135) (toLowerCase r))).
Proof.
  intros Hd. destruct r as [| c r]; simpl; rewrite Hd; reflexivity.
Qed.

Lemma toLowerCase_kelvin (a b c : ascii) (r : string) :
  is_kelvin_sign a b c = true ->
  toLowerCase (String a (String b (String c r))) = String "k" (toLowerCase r).
Proof.
  intros Hk. simpl.
  assert (Hd : is_dotted_capital_i a b = false).
  { unfold is_kelvin_sign in Hk. apply andb_prop in Hk as [Hab _].
    apply andb_prop in Hab as [Ha _]. unfold is_dotted_capital_i, byte_is in *.
    apply Nat.eqb_eq in Ha. rewrite Ha. reflexivity. }
  rewrite Hd, Hk. reflexivity.
Qed.

Lemma toLowerCase_idempotent_upto (n : nat) (s : string) :
  (String.length s <= n)%nat -> toLowerCase (toLowerCase s) = toLowerCase s.
Proof.
  revert s. induction n as [| n IH]; intros s Hlen.
  - destruct s; [reflexivity | simpl in Hlen; lia].
  - destruct s as [| a t]; [reflexivity |].
    destruct (special_letter (String a t)) eqn:Hs.
    + destruct t as [| b r]; [discriminate |].
      destruct (is_dotted_capital_i a b) eqn:Hd.
      * rewrite (toLowerCase_dotted a b r Hd).
        rewrite !toLowerCase_ordinary by reflexivity.
        rewrite IH by (simpl in Hlen; lia). reflexivity.
      * destruct r as [| c r]; simpl in Hs; [congruence |].
        rewrite Hd in Hs. simpl in Hs.
        rewrite (toLowerCase_kelvin a b c r Hs).
        rewrite toLowerCase_ordinary by reflexivity.
        rewrite IH by (simpl in Hlen; lia). reflexivity.
    + rewrite (toLowerCase_plain a t Hs).
      rewrite (toLowerCase_plain _ _ (special_letter_lowered a t Hs)).
      rewrite lower_ascii_idempotent, IH by (simpl in Hlen; lia). reflexivity.
Qed.

Lemma toLowerCase_idempotent (s : string) : toLowerCase (toLowerCase s) = toLowerCase s.
Proof. now apply (toLowerCase_idempotent_upto (String.length s)). Qed.

Lemma toLowerCase_empty (s : string) :
  String.eqb (toLowerCase s) "" = String.eqb s "".
Proof.
  destruct s as [| a [| b [| c r]]]; simpl; trivial.
  - destruct (is_dotted_capital_i a b); reflexivity.
  - destruct (is_dotted_capital_i a b); [reflexivity |].
    destruct (is_kelvin_sign a b c); reflexivity.
Qed.

Lemma normalize_by_state (json json' : value) :
  successFlag_of json = successFlag_of json' -> state_of json = state_of json' ->
  normalizeKieStatusToSimple json = normalizeKieStatusToSimple json'.
Proof. intros Hf Hs. unfold normalizeKieStatusToSimple. now rewrite Hf, Hs. Qed.

Lemma state_of_text (s : string) :
  option_map toLowerCase (toString (or (VStr s) (VStr "")))
  = option_map toLowerCase (toString (or (VStr (toLowerCase s)) (VStr ""))).
Proof.
  unfold or. simpl. rewrite toLowerCase_empty.
  destruct (String.eqb s ""); simpl; [reflexivity |].
  now rewrite toLowerCase_idempotent.
Qed.

(** X4.  The text state is matched whatever its letter case: a record and
    the same record with its [state] text lower-cased normalise alike, both
    when the state sits under [data] and when it sits on the record itself.
    The normalizer throws exactly when the text state cannot be converted
    to text, and otherwise gives one of the three states. *)
Theorem normalize_ignores_letter_case (s : string) (rest : list (string * value)) :
  normalizeKieStatusToSimple (VObj [("data", VObj (("state", VStr s) :: rest))])
  = normalizeKieStatusToSimple
      (VObj [("data", VObj (("state", VStr (toLowerCase s)) :: rest))]) /\
  normalizeKieStatusToSimple (VObj (("state", VStr s) :: rest))
  = normalizeKieStatusToSimple (VObj (("state", VStr (toLowerCase s)) :: rest)) /\
  (forall json,
     normalizeKieStatusToSimple json = None
     <-> toString (or (stateRaw_of json) (VStr "")) = None) /\
  (forall json st, normalizeKieStatusToSimple json = Some st -> In st simple_states).
Proof.
  split; [| split; [| split]].
  - apply normalize_by_state; [reflexivity |].
    unfold state_of, stateRaw_of. simpl. apply state_of_text.
  - apply normalize_by_state.
    + unfold successFlag_of, coalesce. simpl.
      destruct (nullish (assoc "data" rest)); reflexivity.
    + unfold state_of, stateRaw_of, coalesce. simpl.
      destruct (nullish (assoc "data" rest)); simpl; [| reflexivity].
      apply state_of_text.
  - intros json. unfold normalizeKieStatusToSimple, state_of.
    destruct (toString (or (stateRaw_of json) (VStr ""))); simpl; split; congruence.
  - apply normalize_range.
Qed.

Lemma normalize_ignores_letter_case_witness :
  normalizeKieStatusToSimple unreadable_state = None /\
  In "failed" simple_states.
Proof.
  destruct (normalize_ignores_letter_case "" []) as (_ & _ & Hthrows & Hrange).
  split.
  - apply (proj2 (Hthrows unreadable_state)). reflexivity.
  - apply (Hrange (VObj [("status", VStr "FAILED")])). reflexivity.
Defined.

(** X5.  The synchronous wait and the poll routes read the same result: when
    [completed_urls] gives a non-empty list, its first URL is the one
    [extractFirstResultUrl] finds; and it gives the empty list only when
    [extractFirstResultUrl] finds nothing usable. *)
Theorem wait_and_poll_read_same_url (json : value) :
  (forall u more, completed_urls json = u :: more -> extractFirstResultUrl json = u) /\
  (completed_urls json = [] -> truthy (extractFirstResultUrl json) = false).
Proof.
  assert (Hfallback :
    (forall u more,
       (if truthy (extractFirstResultUrl json) then [extractFirstResultUrl json] else [])
       = u :: more -> extractFirstResultUrl json = u) /\
    ((if truthy (extractFirstResultUrl json) then [extractFirstResultUrl json] else [])
     = [] -> truthy (extractFirstResultUrl json) = false)).
  { destruct (truthy (extractFirstResultUrl json)); split; try discriminate; trivial.
    intros u more [= <- _]. reflexivity. }
  assert (Hyes : forall a b, nullish a = true -> coalesce a b = b)
    by (intros a b Ha; unfold coalesce; now rewrite Ha).
  assert (Hno : forall a b, nullish a = false -> coalesce a b = a)
    by (intros a b Ha; unfold coalesce; now rewrite Ha).
  unfold completed_urls.
  destruct (nullish (get json "data")) eqn:Hdata.
  { rewrite (Hyes _ _ Hdata). exact Hfallback. }
  rewrite (Hno _ _ Hdata).
  destruct (nullish (get (get json "data") "response")) eqn:Hresp.
  { rewrite (Hyes _ _ Hresp). exact Hfallback. }
  rewrite (Hno _ _ Hresp).
  assert (Hfirst : forall u more,
            or (get (get (get json "data") "response") "resultUrls")
               (or (get (get (get json "data") "response") "result_urls") (VArr []))
            = VArr (u :: more) ->
            extractFirstResultUrl json = u).
  { intros u more Hurls. unfold extractFirstResultUrl.
    rewrite !(Hno _ _ Hdata), !(Hno _ _ Hresp).
    unfold or in Hurls |- *.
    destruct (truthy (get (get (get json "data") "response") "resultUrls"));
      [rewrite Hurls; reflexivity |].
    destruct (truthy (get (get (get json "data") "response") "result_urls"));
      [rewrite Hurls; reflexivity |].
    discriminate. }
  destruct (or (get (get (get json "data") "response") "resultUrls")
              (or (get (get (get json "data") "response") "result_urls") (VArr [])))
    as [| | | | | [| u more] |] eqn:Hurls; try exact Hfallback.
  split; [| discriminate].
  intros u' more' [= <- <-]. now apply (Hfirst u more).
Qed.

Lemma wait_and_poll_read_same_url_witness :
  extractFirstResultUrl structured_result = VStr "https://a/1.png" /\
  completed_urls nested_result = [VStr "https://a/3.png"] /\
  truthy (extractFirstResultUrl queued_record) = false.
Proof.
  refine (conj _ (conj _ _)).
  - apply (proj1 (wait_and_poll_read_same_url structured_result)
             (VStr "https://a/1.png") [VStr "https://a/2.png"]).
    reflexivity.
  - pose proof (proj1 (wait_and_poll_read_same_url nested_result)
                  (VStr "https://a/3.png") [] eq_refl) as Hsame.
    rewrite <- Hsame. reflexivity.
  - apply (proj2 (wait_and_poll_read_same_url queued_record)). reflexivity.
Defined.

Lemma substring_full (s : string) : substring 0 (String.length s) s = s.
Proof. induction s as [| c s IH]; simpl; [reflexivity | now rewrite IH]. Qed.

Lemma trimStart_no_space (s : string) : starts_with_space s = false -> trimStart s = s.
Proof.
  destruct s as [| a [| b [| c r]]]; simpl; trivial.
  - intros ->. reflexivity.
  - intros Hs. apply orb_false_elim in Hs as [-> ->]. reflexivity.
  - intros Hs. apply orb_false_elim in Hs as [Hs ->].
    apply orb_false_elim in Hs as [-> ->]. reflexivity.
Qed.

Lemma somewhere_here (starts : string -> bool) (s : string) :
  somewhere starts s = false -> starts s = false.
Proof. destruct s; simpl; intros Hs; now apply orb_false_elim in Hs. Qed.

Lemma somewhere_later (starts : string -> bool) (c : ascii) (s : string) :
  somewhere starts (String c s) = false -> somewhere starts s = false.
Proof. simpl. intros Hs. now apply orb_false_elim in Hs. Qed.

Lemma trimEnd_no_space (s : string) : has_space s = false -> trimEnd s = s.
Proof.
  induction s as [| c s IH]; [reflexivity |].
  intros Hs. simpl trimEnd. unfold blank.
  rewrite (trimStart_no_space _ (somewhere_here _ _ Hs)). simpl.
  now rewrite (IH (somewhere_later _ _ _ Hs)).
Qed.

Lemma trim_no_space (s : string) : has_space s = false -> trim s = s.
Proof.
  intros Hs. unfold trim.
  rewrite (trimStart_no_space s (somewhere_here _ _ Hs)).
  now apply trimEnd_no_space.
Qed.

Lemma line_terminator_is_space (s : string) :
  starts_with_space s = false -> starts_with_line_terminator s = false.
Proof.
  assert (H1 : forall a, is_space1 a = false -> is_line_terminator1 a = false).
  { intros a. unfold is_space1, is_line_terminator1, byte_is. intros Hs.
    destruct (Nat.eqb_spec (nat_of_ascii a) 10) as [E | _];
      [rewrite E in Hs; discriminate Hs |].
    destruct (Nat.eqb_spec (nat_of_ascii a) 13) as [E | _];
      [rewrite E in Hs; discriminate Hs |].
    reflexivity. }
  assert (H3 : forall a b c, is_space3 a b c = false -> is_line_terminator3 a b c = false).
  { intros a b c. unfold is_space3, is_line_terminator3, byte_is. intros Hs.
    destruct (Nat.eqb_spec (nat_of_ascii a) 226) as [Ea | _]; [| reflexivity].
    destruct (Nat.eqb_spec (nat_of_ascii b) 128) as [Eb | _]; [| reflexivity].
    rewrite Ea, Eb in Hs.
    destruct (Nat.eqb_spec (nat_of_ascii c) 168) as [E | _];
      [rewrite E in Hs; discriminate Hs |].
    destruct (Nat.eqb_spec (nat_of_ascii c) 169) as [E | _];
      [rewrite E in Hs; discriminate Hs |].
    reflexivity. }
  destruct s as [| a [| b [| c r]]]; simpl; trivial.
  - apply H1.
  - intros Hs. apply orb_false_elim in Hs as [Ha _]. now apply H1.
  - intros Hs. apply orb_false_elim in Hs as [Hs Hc].
    apply orb_false_elim in Hs as [Ha _].
    now rewrite (H1 a Ha), (H3 a b c Hc).
Qed.

Lemma no_space_no_line_terminator (s : string) :
  has_space s = false -> has_line_terminator s = false.
Proof.
  induction s as [| c s IH]; intros Hs.
  - reflexivity.
  - unfold has_line_terminator.
    change (somewhere starts_with_line_terminator (String c s))
      with (starts_with_line_terminator (String c s)
            || somewhere starts_with_line_terminator s).
    rewrite (line_terminator_is_space _ (somewhere_here _ _ Hs)).
    apply (IH (somewhere_later _ _ _ Hs)).
Qed.

Lemma space_starts_with_space (a : ascii) (s : string) :
  is_space1 a = true -> starts_with_space (String a s) = true.
Proof. intros Ha. destruct s as [| b [| c r]]; simpl; now rewrite Ha. Qed.

(** X6.  The credential the server sends upstream as [Bearer <key>] is read
    back unchanged from a header of that form: for a non-empty key that
    holds no white space (any of the white space characters of ECMAScript,
    the no-break space among them), [getBearerToken] and [getApiKeyFromReq]
    return the key, the latter without reading the query. *)
Theorem bearer_header_round_trip (key : string) (q : value) (p : string) (b : value)
    (fs : list UploadedFile) :
  key <> "" -> has_space key = false ->
  getBearerToken (mkIncoming (Some ("Bearer " ++ key)) q p b fs) = key /\
  getApiKeyFromReq (mkIncoming (Some ("Bearer " ++ key)) q p b fs) = Some key.
Proof.
  intros Hne Hs.
  assert (Hb : getBearerToken (mkIncoming (Some ("Bearer " ++ key)) q p b fs) = key).
  { unfold getBearerToken. cbn [authorization default from_option id].
    change (substring 0 6 ("Bearer " ++ key)) with "Bearer".
    change (toLowerCase "Bearer") with "bearer".
    change (String.eqb "bearer" "bearer") with true. cbv iota.
    change (String.length ("Bearer " ++ key) - 6)%nat with (S (String.length key)).
    change (substring 6 (S (String.length key)) ("Bearer " ++ key))
      with (String " "%char (substring 0 (String.length key) key)).
    rewrite substring_full.
    rewrite (space_starts_with_space " "%char key eq_refl).
    change (trimStart (String " "%char key)) with (trimStart key).
    rewrite (trimStart_no_space key (somewhere_here _ _ Hs)).
    rewrite (no_space_no_line_terminator key Hs).
    now apply trim_no_space. }
  split; [exact Hb |].
  unfold getApiKeyFromReq. rewrite Hb.
  apply String.eqb_neq in Hne. now rewrite Hne.
Qed.

Lemma bearer_header_round_trip_witness :
  getBearerToken (mkIncoming (Some "Bearer sk-live-42") (VObj []) "" VNull []) = "sk-live-42" /\
  getApiKeyFromReq (mkIncoming (Some "Bearer sk-live-42") (VObj []) "" VNull [])
  = Some "sk-live-42".
Proof.
  apply (bearer_header_round_trip "sk-live-42"); [discriminate | reflexivity].
Defined.

(** a key that ends in a no-break space is outside the round trip: the
    space is white space and is trimmed away *)
Example bearer_key_with_no_break_space :
  has_space ("sk-123" ++ nbsp) = true /\
  getBearerToken (mkIncoming (Some ("Bearer sk-123" ++ nbsp)) (VObj []) "" VNull [])
  = "sk-123".
Proof. split; reflexivity. Qed.

(** X7.  Every inline image taken from a Gemini-style body carries data and
    a MIME type (both truthy), so none reaches the upload without content or
    without a type. *)
Theorem extracted_inline_images_complete (body : value) :
  Forall (fun img => truthy (data img) = true /\ truthy (mime img) = true)
    (snd (extractGeminiTextAndInlineImages body)).
Proof.
  unfold extractGeminiTextAndInlineImages. cbn [snd].
  apply Forall_flat_map. apply Forall_forall. intros part _.
  unfold part_image.
  match goal with |- context [truthy (get ?i "data")] => set (inline := i) end.
  destruct (truthy (get inline "data")) eqn:Hd; constructor; [| constructor].
  cbn [data mime]. split; [exact Hd |].
  unfold or. destruct (truthy (get inline "mime_type")) eqn:Hm; [exact Hm | reflexivity].
Qed.

End PureHelpers.

(* ================================================================== *)
(** * Further properties: the upstream client *)
(* ================================================================== *)

Section UpstreamClient.

Context `{Platform}.

(** X8.  [kieUploadBuffer] refuses an empty credential, an empty buffer and
    a MIME type that cannot be converted to text before any call is made;
    and when the answers of all three upload candidates are passed over it
    throws the upload error after exactly three calls, one per candidate, in
    order. *)
Theorem upload_refused_or_exhausted :
  (forall content filename mimeType w,
     kieUploadBuffer "" content filename mimeType w = (Throw "Missing APIKey", w)) /\
  (forall apiKey filename mimeType w,
     apiKey <> "" ->
     kieUploadBuffer apiKey [] filename mimeType w = (Throw "Empty upload", w)) /\
  (forall apiKey content filename mimeType w,
     apiKey <> "" -> content <> [] -> filename <> "" ->
     let mime := or mimeType (VStr (detectImageMime (Some content))) in
     let req := upload_request apiKey filename mime content in
     all_skipped upload_verdict w (List.map req upload_candidates) ->
     match toString mime with
     | Some _ =>
         exists w',
           kieUploadBuffer apiKey content filename mimeType w
           = (Throw upload_failed_message, w') /\
           List.map snd (calls w')
           = (rev (List.map req upload_candidates) ++ List.map snd (calls w))%list /\
           length (calls w') = (3 + length (calls w))%nat /\
           usageLogs w' = usageLogs w
     | None =>
         kieUploadBuffer apiKey content filename mimeType w = (Throw cannot_convert, w)
     end).
Proof.
  split; [| split].
  - reflexivity.
  - intros apiKey filename mimeType w Hk. unfold kieUploadBuffer.
    apply String.eqb_neq in Hk. now rewrite Hk.
  - intros apiKey content filename mimeType w Hk Hc Hf mime req Hskip.
    rewrite (kieUploadBuffer_named apiKey content filename mimeType w Hk Hc Hf). fold mime.
    destruct (toString mime) as [type |]; [| reflexivity].
    exists (after_calls w (List.map req upload_candidates)).
    assert (Hcalls : List.map snd (calls (after_calls w (List.map req upload_candidates)))
                     = (rev (List.map req upload_candidates) ++ List.map snd (calls w))%list)
      by apply calls_after_calls.
    split; [| split; [| split]].
    + now apply upload_loop_exhausted.
    + exact Hcalls.
    + apply (f_equal (@length Request)) in Hcalls.
      rewrite length_map, length_app, length_rev, !length_map in Hcalls.
      exact Hcalls.
    + apply usageLogs_after_calls.
Qed.

(** X9.  When the answers of all four image-generation candidates are passed
    over, [kieImageGenerate] throws its error after exactly four calls, one
    per candidate, in order. *)
Theorem image_generate_exhausted (apiKey : string) (job : value) (w : World) :
  all_skipped generate_verdict w (List.map (generate_request apiKey job) image_candidates) ->
  exists w',
    kieImageGenerate apiKey job w = (Throw image_failed_message, w') /\
    List.map snd (calls w')
    = (rev (List.map (generate_request apiKey job) image_candidates)
         ++ List.map snd (calls w))%list /\
    length (calls w') = (4 + length (calls w))%nat /\
    usageLogs w' = usageLogs w.
Proof.
  intros Hskip.
  exists (after_calls w (List.map (generate_request apiKey job) image_candidates)).
  assert (Hcalls :
    List.map snd (calls (after_calls w (List.map (generate_request apiKey job) image_candidates)))
    = (rev (List.map (generate_request apiKey job) image_candidates)
         ++ List.map snd (calls w))%list) by apply calls_after_calls.
  split; [| split; [| split]].
  - unfold kieImageGenerate. now apply generate_loop_exhausted.
  - exact Hcalls.
  - apply (f_equal (@length Request)) in Hcalls.
    rewrite length_map, length_app, length_rev, !length_map in Hcalls.
    exact Hcalls.
  - apply usageLogs_after_calls.
Qed.

Lemma kieCreateTask_run apiKey model input w :
  kieCreateTask apiKey model input w =
    (match outcome_of w (createTask_request apiKey model input) with
     | Rejected reason => Throw reason
     | Resolved resp =>
         if ok resp then
           if truthy (taskId_of (body_json (body resp)))
           then Ok (taskId_of (body_json (body resp)))
           else Throw ("KIE createTask: missing taskId: "
                       ++ JSON_stringify (body_json (body resp)))
         else Throw (failure "KIE createTask failed" (status resp) (body_json (body resp)))
     end,
     after_call w (createTask_request apiKey model input)).
Proof.
  unfold kieCreateTask, fetchJson, bind. fold (createTask_request apiKey model input).
  rewrite fetch_run.
  destruct (outcome_of w _) as [reason | resp]; simpl; [reflexivity |].
  destruct (ok resp); simpl; [| reflexivity].
  destruct (truthy (taskId_of (body_json (body resp)))); reflexivity.
Qed.

(** X10.  [kieCreateTask] makes exactly one call, the job submission, whatever
    comes back; it never runs out of fuel; and when it returns a task id,
    the answer had a success status and the id is truthy and is the first
    truthy one among [data.taskId], [data.task_id], [taskId], [task_id]. *)
Theorem createTask_one_call (apiKey model : string) (input : value) (w : World) :
  snd (kieCreateTask apiKey model input w)
    = after_call w (createTask_request apiKey model input) /\
  fst (kieCreateTask apiKey model input w) <> Diverge /\
  (forall t,
     fst (kieCreateTask apiKey model input w) = Ok t ->
     truthy t = true /\
     exists resp,
       outcome_of w (createTask_request apiKey model input) = Resolved resp /\
       ok resp = true /\ t = taskId_of (body_json (body resp))).
Proof.
  rewrite kieCreateTask_run. cbn [fst snd]. split; [reflexivity |].
  destruct (outcome_of w _) as [reason | resp]; [split; [discriminate | intros t [=]] |].
  destruct (ok resp) eqn:Hok; [| split; [discriminate | intros t [=]]].
  destruct (truthy (taskId_of (body_json (body resp)))) eqn:Ht;
    [| split; [discriminate | intros t [=]]].
  split; [discriminate |]. intros t [= <-]. split; [exact Ht |].
  exists resp. repeat split. exact Hok.
Qed.

End UpstreamClient.

Lemma upload_refused_or_exhausted_witness :
  (exists w',
     @kieUploadBuffer offline_deployment "key-1" png_bytes "cat.png" (VStr "image/png") world0
       = (Throw upload_failed_message, w') /\
     length (calls w') = 3%nat) /\
  @kieUploadBuffer offline_deployment "key-1" png_bytes "cat.png" (VArr [no_text]) world0
  = (Throw cannot_convert, world0).
Proof.
  destruct (@upload_refused_or_exhausted offline_deployment) as (_ & _ & Hall).
  split.
  - destruct (Hall "key-1" png_bytes "cat.png" (VStr "image/png") world0)
      as (w' & Hrun & _ & Hlen & _); try discriminate.
    + vm_compute. tauto.
    + exists w'. split; [exact Hrun | exact Hlen].
  - apply (Hall "key-1" png_bytes "cat.png" (VArr [no_text]) world0); try discriminate.
    vm_compute. tauto.
Defined.

Lemma image_generate_exhausted_witness :
  exists w',
    @kieImageGenerate offline_deployment "key-1" (VObj [("prompt", VStr "a cat")]) world0
      = (Throw image_failed_message, w') /\
    length (calls w') = 4%nat.
Proof.
  destruct (@image_generate_exhausted offline_deployment "key-1"
              (VObj [("prompt", VStr "a cat")]) world0)
    as (w' & Hrun & _ & Hlen & _).
  - vm_compute. tauto.
  - exists w'. split; [exact Hrun | exact Hlen].
Defined.

Lemma createTask_one_call_witness :
  truthy (VStr "task-9") = true /\
  exists resp,
    @outcome_of accepts_jobs world0
      (@createTask_request accepts_jobs "key-1" "kling-2.6/text-to-video" (VObj []))
    = Resolved resp /\
    ok resp = true /\ VStr "task-9" = taskId_of (body_json (body resp)).
Proof.
  apply (proj2 (proj2 (@createTask_one_call accepts_jobs "key-1" "kling-2.6/text-to-video"
                         (VObj []) world0))).
  reflexivity.
Defined.

(* ================================================================== *)
(** * Further properties: what the routes return *)
(* ================================================================== *)

Create HintDb halt.

Section Totality.

Context `{Platform}.

Lemma halts_ret {A} (a : A) : halts (ret a).
Proof. intros w. discriminate. Qed.

Lemma halts_throw {A} (e : string) : halts (@throw A e).
Proof. intros w. discriminate. Qed.

Lemma halts_converted {A} (o : option A) : halts (converted o).
Proof. intros w. destruct o; discriminate. Qed.

Lemma halts_throw_value {A} (v : value) : halts (@throw_value A v).
Proof. intros w. unfold throw_value. destruct (toString v); discriminate. Qed.

Lemma halts_bind {A B} (m : M A) (k : A -> M B) :
  halts m -> (forall a, halts (k a)) -> halts (bind m k).
Proof.
  intros Hm Hk w. unfold bind. specialize (Hm w).
  destruct (m w) as [[a | e |] w1]; simpl in *; [apply Hk | discriminate | congruence].
Qed.

Lemma halts_try_catch {A} (m : M A) (h : string -> M A) :
  halts m -> (forall e, halts (h e)) -> halts (try_catch m h).
Proof.
  intros Hm Hh w. unfold try_catch. specialize (Hm w).
  destruct (m w) as [[a | e |] w1]; simpl in *; [discriminate | apply Hh | congruence].
Qed.

Lemma halts_fetch (r : Request) : halts (fetch r).
Proof. intros w. rewrite fetch_run. simpl. destruct (outcome_of w r); discriminate. Qed.

Lemma halts_sleep (ms : Z) : halts (sleep ms).
Proof. intros w. discriminate. Qed.

Lemma halts_logUsage apiKey log : halts (logUsage apiKey log).
Proof. intros w. discriminate. Qed.

Lemma halts_Date_now : halts Date_now.
Proof. intros w. discriminate. Qed.

Lemma halts_nowUnix : halts nowUnix.
Proof. intros w. discriminate. Qed.

Local Hint Resolve halts_fetch halts_sleep halts_logUsage halts_Date_now halts_nowUnix : halt.

Ltac halt_step :=
  lazymatch goal with
  | |- halts (ret _) => apply halts_ret
  | |- halts (throw _) => apply halts_throw
  | |- halts (throw_value _) => apply halts_throw_value
  | |- halts (converted _) => apply halts_converted
  | |- halts (bind _ _) => apply halts_bind; [| intros ?]
  | |- halts (try_catch _ _) => apply halts_try_catch; [| intros ?]
  | |- halts (guarded _ _) => unfold guarded
  | |- halts (if ?c then _ else _) => destruct c
  | |- halts (match ?x with _ => _ end) => destruct x
  | |- _ => solve [auto with halt]
  end.

Ltac halt := cbv zeta; repeat halt_step.

Lemma halts_fetchJson (r : Request) : halts (fetchJson r).
Proof. unfold fetchJson. halt. Qed.

Local Hint Resolve halts_fetchJson : halt.

Lemma halts_extFromMime_value (mime : value) : halts (extFromMime_value mime).
Proof. unfold extFromMime_value. halt. Qed.

Local Hint Resolve halts_extFromMime_value : halt.

Lemma halts_kieUploadBuffer_loop apiKey name mime content candidates :
  halts (kieUploadBuffer_loop apiKey name mime content candidates).
Proof.
  induction candidates as [| url rest IH]; simpl.
  - apply halts_throw.
  - unfold kieUploadBuffer_try. halt.
Qed.

Local Hint Resolve halts_kieUploadBuffer_loop : halt.

Lemma halts_kieUploadBuffer apiKey content filename mimeType :
  halts (kieUploadBuffer apiKey content filename mimeType).
Proof. unfold kieUploadBuffer. halt. Qed.

Lemma halts_kieCreateTask apiKey model input : halts (kieCreateTask apiKey model input).
Proof. unfold kieCreateTask. halt. Qed.

Lemma halts_kieRecordInfo apiKey taskId : halts (kieRecordInfo apiKey taskId).
Proof. unfold kieRecordInfo. halt. Qed.

Lemma halts_kieVeoRecordInfo apiKey taskId : halts (kieVeoRecordInfo apiKey taskId).
Proof. unfold kieVeoRecordInfo. halt. Qed.

Lemma halts_kieVeoGenerate apiKey job : halts (kieVeoGenerate apiKey job).
Proof. unfold kieVeoGenerate. halt. Qed.

Local Hint Resolve halts_kieUploadBuffer halts_kieCreateTask halts_kieRecordInfo
  halts_kieVeoRecordInfo halts_kieVeoGenerate : halt.

Lemma halts_chat_loop apiKey req candidates : halts (chat_loop apiKey req candidates).
Proof.
  induction candidates as [| url rest IH]; simpl.
  - apply halts_ret.
  - unfold chat_try. halt.
Qed.

Lemma halts_token_info_loop apiKey candidates : halts (token_info_loop apiKey candidates).
Proof.
  induction candidates as [| url rest IH]; simpl.
  - apply halts_ret.
  - unfold token_info_try. halt.
Qed.

Lemma guarded_replies (k : string) (m : M Reply) (w : World) :
  halts m -> exists reply, fst (guarded k m w) = Ok reply.
Proof.
  intros Hm. unfold guarded, try_catch. specialize (Hm w).
  destruct (m w) as [[reply | e |] w1]; simpl in *; [eauto | eauto | congruence].
Qed.

Lemma guarded_never_throws (k : string) (m : M Reply) (w : World) (e : string) :
  fst (guarded k m w) <> Throw e.
Proof.
  unfold guarded, try_catch. destruct (m w) as [[reply | e' |] w1]; simpl; discriminate.
Qed.

Lemma chat_try_returns apiKey req url w :
  exists o, fst (chat_try apiKey req url w) = Ok o.
Proof.
  unfold chat_try, try_catch, bind. rewrite fetch_run.
  destruct (outcome_of w _) as [reason | resp]; simpl; [eauto |].
  destruct (status resp =? 404); simpl; [eauto |].
  destruct (toString _); simpl; eauto.
Qed.

Lemma chat_loop_replies apiKey req candidates w :
  exists reply, fst (chat_loop apiKey req candidates w) = Ok reply.
Proof.
  revert w. induction candidates as [| url rest IH]; intros w; simpl; [eauto |].
  unfold bind. destruct (chat_try_returns apiKey req url w) as [o Ho].
  destruct (chat_try apiKey req url w) as [r w1]. simpl in Ho. subst r.
  destruct o as [reply |]; simpl; eauto.
Qed.

Lemma ok_not_throw {A} (r : Result A) :
  (exists a, r = Ok a) -> forall e, r <> Throw e.
Proof. intros [a ->] e. discriminate. Qed.

(** [POST /v1/videos] on a body it cannot read: the exception of the read
    escapes the handler, and nothing has been done *)
Lemma post_videos_unreadable (req : Incoming) (w : World) :
  getBearerToken req <> "" -> videos_body_readable (payload req) = false ->
  post_videos req w
  = (Throw (if nullish (payload req) then cannot_read (payload req) "model"
            else cannot_convert), w).
Proof.
  intros Hk Hbody. apply String.eqb_neq in Hk.
  unfold post_videos. rewrite Hk.
  unfold videos_body_readable in Hbody.
  destruct (nullish (payload req)); [reflexivity |].
  simpl in Hbody.
  unfold bind at 1.
  destruct (text_field (payload req) "model"); [| reflexivity].
  unfold converted at 1. unfold ret at 1. unfold bind at 1.
  destruct (text_field (payload req) "prompt"); [| reflexivity].
  unfold converted at 1. unfold ret at 1. unfold bind at 1.
  destruct (text_field (payload req) "seconds"); [| reflexivity].
  unfold converted at 1. unfold ret at 1. unfold bind at 1.
  destruct (text_field (payload req) "size"); [| reflexivity].
  unfold converted at 1. unfold ret at 1. unfold bind at 1.
  destruct (text_field (payload req) "resolution"); [| reflexivity].
  discriminate Hbody.
Qed.

(** [POST /v1/videos] on a body it can read: all that follows is inside the
    [try] *)
Lemma post_videos_readable (req : Incoming) :
  getBearerToken req <> "" -> videos_body_readable (payload req) = true ->
  exists model prompt seconds size resolution m,
    post_videos req = guarded "error" m /\
    halts m /\
    text_field (payload req) "model" = Some model /\
    text_field (payload req) "prompt" = Some prompt /\
    text_field (payload req) "seconds" = Some seconds /\
    text_field (payload req) "size" = Some size /\
    text_field (payload req) "resolution" = Some resolution.
Proof.
  intros Hk Hbody. apply String.eqb_neq in Hk.
  unfold videos_body_readable in Hbody. apply andb_prop in Hbody as [Hthere Hfields].
  apply negb_true_iff in Hthere. simpl in Hfields.
  unfold post_videos. rewrite Hk, Hthere.
  destruct (text_field (payload req) "model") as [model |]; [| discriminate].
  destruct (text_field (payload req) "prompt") as [prompt |]; [| discriminate].
  destruct (text_field (payload req) "seconds") as [seconds |]; [| discriminate].
  destruct (text_field (payload req) "size") as [size |]; [| discriminate].
  destruct (text_field (payload req) "resolution") as [resolution |]; [| discriminate].
  exists model, prompt, seconds, size, resolution. eexists.
  split; [reflexivity |]. split; [| repeat split]. halt.
Qed.

Lemma route_replies (fuel : nat) (route : Route) (req : Incoming) (w : World) :
  route <> PostGenerateContent ->
  (route = PostVideos ->
   getBearerToken req = "" \/ videos_body_readable (payload req) = true) ->
  exists reply, fst (app fuel route req w) = Ok reply.
Proof.
  intros Hroute Hvideos. destruct route; simpl; try congruence.
  - destruct (String.eqb_spec (getBearerToken req) "") as [Hk | Hk].
    + unfold post_videos. rewrite Hk. simpl. eauto.
    + destruct (Hvideos eq_refl) as [Hnone | Hbody]; [contradiction |].
      destruct (post_videos_readable req Hk Hbody) as (? & ? & ? & ? & ? & m & -> & Hm & _).
      now apply guarded_replies.
  - unfold get_video. destruct (String.eqb (getBearerToken req) ""); [simpl; eauto |].
    cbv zeta. apply guarded_replies. halt.
  - unfold post_text2video. destruct (String.eqb (getBearerToken req) ""); [simpl; eauto |].
    cbv zeta. apply guarded_replies. halt.
  - unfold get_kling_video. destruct (String.eqb (getBearerToken req) ""); [simpl; eauto |].
    cbv zeta. apply guarded_replies. halt.
  - unfold post_image2video. destruct (String.eqb (getBearerToken req) ""); [simpl; eauto |].
    cbv zeta. apply guarded_replies. halt.
  - unfold get_kling_video. destruct (String.eqb (getBearerToken req) ""); [simpl; eauto |].
    cbv zeta. apply guarded_replies. halt.
  - unfold post_chat_completions.
    destruct (String.eqb (getBearerToken req) ""); [simpl; eauto |].
    apply chat_loop_replies.
Qed.

(** X11.  An exception escapes a handler in two places only, both of them a
    conversion made before the [try].  [POST /v1/videos], called with a
    credential, throws without doing anything when its body is not there
    or one of its five fields cannot be converted to text, and otherwise
    replies.  The Gemini-style route throws without doing anything when it
    has to read the [key] of the query and cannot convert it, and otherwise
    never ends with an exception (its wait is bounded by fuel here).  Every
    other route ends with a reply, whatever the request and the upstream. *)
Theorem routes_reply_unless_unreadable (fuel : nat) (route : Route) (req : Incoming)
    (w : World) :
  (route <> PostVideos -> route <> PostGenerateContent ->
   exists reply, fst (app fuel route req w) = Ok reply) /\
  (route = PostVideos ->
   if String.eqb (getBearerToken req) "" || videos_body_readable (payload req)
   then exists reply, fst (app fuel route req w) = Ok reply
   else app fuel route req w
        = (Throw (if nullish (payload req) then cannot_read (payload req) "model"
                  else cannot_convert), w)) /\
  (route = PostGenerateContent ->
   match getApiKeyFromReq req with
   | Some _ => forall e, fst (app fuel route req w) <> Throw e
   | None => app fuel route req w = (Throw cannot_convert, w)
   end).
Proof.
  split; [| split].
  - intros Hv Hg. apply route_replies; [exact Hg | contradiction].
  - intros ->.
    destruct (String.eqb_spec (getBearerToken req) "") as [Hk | Hk]; simpl.
    + apply (route_replies fuel PostVideos req w); [discriminate | now left].
    + destruct (videos_body_readable (payload req)) eqn:Hbody.
      * apply (route_replies fuel PostVideos req w); [discriminate | now right].
      * now apply post_videos_unreadable.
  - intros ->. simpl. unfold post_generateContent. unfold bind at 1.
    destruct (getApiKeyFromReq req) as [apiKey |]; [| reflexivity].
    unfold converted, ret. intros e.
    destruct (String.eqb apiKey ""); [simpl; discriminate |].
    destruct (extractGeminiTextAndInlineImages _) as [prompt images].
    apply guarded_never_throws.
Qed.

End Totality.

Lemma routes_reply_unless_unreadable_witness :
  (exists reply,
     fst (@app offline_deployment 10 PostImage2Video portrait_request world0) = Ok reply) /\
  @app offline_deployment 10 PostVideos (bearer "key-1" (VObj [("model", no_text)])) world0
  = (Throw cannot_convert, world0) /\
  @app offline_deployment 10 PostGenerateContent
    (mkIncoming None (VObj [("key", no_text)]) "gemini-2.5-flash" (VObj []) []) world0
  = (Throw cannot_convert, world0).
Proof.
  destruct (@routes_reply_unless_unreadable offline_deployment 10 PostImage2Video
              portrait_request world0) as (Hother & _ & _).
  destruct (@routes_reply_unless_unreadable offline_deployment 10 PostVideos
              (bearer "key-1" (VObj [("model", no_text)])) world0) as (_ & Hvideos & _).
  destruct (@routes_reply_unless_unreadable offline_deployment 10 PostGenerateContent
              (mkIncoming None (VObj [("key", no_text)]) "gemini-2.5-flash" (VObj []) [])
              world0) as (_ & _ & Hgenerate).
  split; [| split].
  - apply Hother; discriminate.
  - exact (Hvideos eq_refl).
  - exact (Hgenerate eq_refl).
Defined.

(* ================================================================== *)
(** * Further properties: usage is logged when a job is accepted *)
(* ================================================================== *)

Section CreateRoutes.

Context `{Platform}.

Lemma quiet_of_parts {A} (m : M A) :
  halts m -> preserves (fun w w' => usageLogs w' = usageLogs w) m -> quiet m.
Proof. intros Hh Hp w. split; [apply Hh | apply Hp]. Qed.

Lemma same_ledger_fetch (r : Request) (w : World) :
  usageLogs (snd (fetch r w)) = usageLogs w.
Proof. rewrite fetch_run. reflexivity. Qed.

Lemma quiet_kieCreateTask apiKey model input : quiet (kieCreateTask apiKey model input).
Proof.
  apply quiet_of_parts; [apply halts_kieCreateTask |].
  apply (preserves_kieCreateTask _ (fun _ => True)); trivial.
  - intros w1 w2 w3 H12 H23. congruence.
  - intros r w _. apply same_ledger_fetch.
Qed.

Lemma quiet_kieUploadBuffer apiKey content filename mimeType :
  quiet (kieUploadBuffer apiKey content filename mimeType).
Proof.
  apply quiet_of_parts; [apply halts_kieUploadBuffer |].
  apply (preserves_kieUploadBuffer _ (fun _ => True)); trivial.
  - intros w1 w2 w3 H12 H23. congruence.
  - intros r w _. apply same_ledger_fetch.
Qed.

Lemma quiet_kieVeoGenerate apiKey job : quiet (kieVeoGenerate apiKey job).
Proof.
  apply quiet_of_parts; [apply halts_kieVeoGenerate |].
  apply (preserves_kieVeoGenerate _ (fun _ => True)); trivial.
  - intros w1 w2 w3 H12 H23. congruence.
  - intros r w _. apply same_ledger_fetch.
Qed.

Lemma quiet_ret {A} (a : A) : quiet (ret a).
Proof. intros w. split; [discriminate | reflexivity]. Qed.

Lemma quiet_bind {A B} (m : M A) (k : A -> M B) :
  quiet m -> (forall a, quiet (k a)) -> quiet (bind m k).
Proof.
  intros Hm Hk w. unfold bind. destruct (Hm w) as [Hd Hl].
  destruct (m w) as [[a | e |] w1]; simpl in *; [| split; [discriminate | exact Hl] | congruence].
  destruct (Hk a w1) as [Hd' Hl']. split; [exact Hd' | congruence].
Qed.

Lemma accepting_bind apiKey w0 {A} (m : M A) (k : A -> M Reply) :
  quiet m -> (forall a, accepting apiKey w0 (k a)) -> accepting apiKey w0 (bind m k).
Proof.
  intros Hm Hk w Hw. unfold bind. destruct (Hm w) as [Hd Hl].
  destruct (m w) as [[a | e |] w1]; simpl in *; [| congruence | congruence].
  apply Hk. congruence.
Qed.

Lemma accepting_log apiKey w0 (entry : Z -> UsageLog) (content : value) :
  (forall t, kind (entry t) = "create") ->
  accepting apiKey w0
    (bind nowUnix (fun t => bind (logUsage apiKey (entry t))
                              (fun _ => ret (ReplyJson 200 content)))).
Proof.
  intros Hkind w Hw. unfold bind, nowUnix, logUsage, ret. simpl.
  left. split; [reflexivity |]. exists (entry (now w / 1000)).
  split; [apply Hkind | now rewrite Hw].
Qed.

Lemma accepting_ret apiKey w0 (code : Z) (content : value) :
  code <> 200 -> accepting apiKey w0 (ret (ReplyJson code content)).
Proof. intros Hc w Hw. simpl. right. split; assumption. Qed.

Lemma accepting_guarded apiKey w0 (k : string) (m : M Reply) :
  accepting apiKey w0 m -> accepting apiKey w0 (guarded k m).
Proof.
  intros Hm w Hw. specialize (Hm w Hw). unfold guarded, try_catch.
  destruct (m w) as [[reply | e |] w1]; simpl in *; trivial.
  right. split; [discriminate | exact Hm].
Qed.

Lemma quiet_converted {A} (o : option A) : quiet (converted o).
Proof. intros w. destruct o; split; (discriminate || reflexivity). Qed.

Lemma accepting_throw apiKey w0 (e : string) : accepting apiKey w0 (throw e).
Proof. intros w Hw. exact Hw. Qed.

Lemma create_routes_accepting (fuel : nat) (route : Route) (req : Incoming) (w0 : World) :
  route = PostVideos \/ route = PostText2Video \/ route = PostImage2Video ->
  accepting (getBearerToken req) w0 (app fuel route req).
Proof.
  intros [-> | [-> | ->]]; simpl.
  - unfold post_videos.
    destruct (String.eqb (getBearerToken req) ""); [now apply accepting_ret |].
    destruct (nullish (payload req)); [apply accepting_throw |].
    do 5 (apply accepting_bind; [apply quiet_converted | intros ?]).
    cbv zeta. apply accepting_guarded.
    destruct (isVeoModel _).
    { apply accepting_bind; [apply quiet_converted | intros aspectRatio].
      apply accepting_bind; [apply quiet_kieVeoGenerate | intros taskId].
      apply (accepting_log _ _ (fun t => mkUsageLog t _ _ _ _ _)). reflexivity. }
    destruct (isSoraModel _); [| now apply accepting_ret].
    apply accepting_bind; [apply quiet_converted | intros aspect_ratio].
    apply accepting_bind.
    { destruct (files req) as [| f fs]; [apply quiet_ret |].
      apply quiet_bind; [apply quiet_kieUploadBuffer | intros u; apply quiet_ret]. }
    intros input. apply accepting_bind; [apply quiet_kieCreateTask | intros taskId].
    apply (accepting_log _ _ (fun t => mkUsageLog t _ _ _ _ _)). reflexivity.
  - unfold post_text2video, missing_bearer_kling.
    destruct (String.eqb (getBearerToken req) ""); [now apply accepting_ret |].
    cbv zeta. apply accepting_guarded.
    do 3 (apply accepting_bind; [apply quiet_converted | intros ?]).
    apply accepting_bind; [apply quiet_kieCreateTask | intros taskId].
    apply (accepting_log _ _ (fun t => mkUsageLog t _ _ _ _ _)). reflexivity.
  - unfold post_image2video, missing_bearer_kling.
    destruct (String.eqb (getBearerToken req) ""); [now apply accepting_ret |].
    cbv zeta. apply accepting_guarded.
    do 3 (apply accepting_bind; [apply quiet_converted | intros ?]).
    destruct (String.eqb _ ""); [now apply accepting_ret |].
    apply accepting_bind; [apply quiet_kieUploadBuffer | intros fileUrl].
    apply accepting_bind; [apply quiet_kieCreateTask | intros taskId].
    apply (accepting_log _ _ (fun t => mkUsageLog t _ _ _ _ _)). reflexivity.
Qed.

(** X12.  On the three job-creating routes the usage ledger follows the
    reply: a 200 reply comes with exactly one new entry of kind [create]
    pushed for the caller's credential, and any other reply (401, 400, 500)
    leaves the ledger as it was.  The one request that gets no reply is the
    one whose body [POST /v1/videos] cannot read: the handler throws, and
    the world is as it was. *)
Theorem usage_logged_iff_job_accepted (fuel : nat) (route : Route) (req : Incoming)
    (w : World) :
  route = PostVideos \/ route = PostText2Video \/ route = PostImage2Video ->
  match app fuel route req w with
  | (Ok (ReplyJson code content), w') =>
      (code = 200 ->
       exists log, kind log = "create" /\
                   usageLogs w' = pushUsageLog (getBearerToken req) log (usageLogs w)) /\
      (code <> 200 -> usageLogs w' = usageLogs w)
  | (Ok (ReplyStream _ _ _), _) => False
  | (Throw _, w') =>
      route = PostVideos /\ getBearerToken req <> "" /\
      videos_body_readable (payload req) = false /\ w' = w
  | (Diverge, _) => False
  end.
Proof.
  intros Hroute.
  pose proof (create_routes_accepting fuel route req w Hroute w eq_refl) as Hacc.
  assert (Hreplies :
            (route = PostVideos ->
             getBearerToken req = "" \/ videos_body_readable (payload req) = true) ->
            exists reply, fst (app fuel route req w) = Ok reply).
  { apply route_replies. destruct Hroute as [-> | [-> | ->]]; discriminate. }
  destruct (String.eqb_spec (getBearerToken req) "") as [Hk | Hk];
    [| destruct (videos_body_readable (payload req)) eqn:Hbody].
  1, 2: destruct Hreplies as [reply Hreply]; [tauto |];
    destruct (app fuel route req w) as [r w']; simpl in Hreply; subst r;
    destruct reply as [code content | code hdrs content]; simpl in Hacc; [| contradiction];
    destruct Hacc as [[Hc Hlog] | [Hc Hsame]]; split; intros Hcode; trivial; congruence.
  destruct Hroute as [-> | Hother].
  - simpl. rewrite (post_videos_unreadable req w Hk Hbody). repeat split; assumption.
  - destruct Hreplies as [reply Hreply];
      [intros ->; destruct Hother as [Ho | Ho]; discriminate Ho |].
    destruct (app fuel route req w) as [r w']; simpl in Hreply; subst r.
    destruct reply as [code content | code hdrs content]; simpl in Hacc; [| contradiction].
    destruct Hacc as [[Hc Hlog] | [Hc Hsame]]; split; intros Hcode; trivial; congruence.
Qed.

End CreateRoutes.

Lemma usage_logged_iff_job_accepted_witness :
  (exists content w',
     @app accepts_jobs 10 PostImage2Video portrait_request world0
       = (Ok (ReplyJson 200 content), w') /\
     exists log, kind log = "create" /\
                 usageLogs w' = @pushUsageLog accepts_jobs "key-1" log ∅) /\
  getBearerToken (bearer "key-1" (VObj [("prompt", no_text)])) <> "" /\
  videos_body_readable (VObj [("prompt", no_text)]) = false.
Proof.
  pose proof (@usage_logged_iff_job_accepted accepts_jobs 10 PostImage2Video
                portrait_request world0 (or_intror (or_intror eq_refl))) as Haccepted.
  pose proof (@usage_logged_iff_job_accepted accepts_jobs 10 PostVideos
                (bearer "key-1" (VObj [("prompt", no_text)])) world0 (or_introl eq_refl))
    as Hthrown.
  split.
  - destruct (@app accepts_jobs 10 PostImage2Video portrait_request world0)
      as [[[code content | code hdrs content] | e |] w'] eqn:Hrun;
      try (vm_compute in Hrun; discriminate).
    assert (Hcode : code = 200) by (vm_compute in Hrun; congruence).
    subst code. exists content, w'. split; [reflexivity |].
    exact (proj1 Haccepted eq_refl).
  - destruct (@app accepts_jobs 10 PostVideos
                (bearer "key-1" (VObj [("prompt", no_text)])) world0)
      as [[[code content | code hdrs content] | e |] w'] eqn:Hrun;
      try (vm_compute in Hrun; discriminate).
    destruct Hthrown as (_ & Hk & Hbody & _). split; assumption.
Defined.

(* ================================================================== *)
(** * Further properties: the poll routes *)
(* ================================================================== *)

Section PollRoutes.

Context `{Platform}.

Lemma kieRecordInfo_run apiKey taskId w :
  kieRecordInfo apiKey taskId w =
    (match outcome_of w (record_request apiKey taskId) with
     | Rejected reason => Throw reason
     | Resolved resp =>
         if ok resp then Ok (body_json (body resp))
         else Throw (failure "KIE recordInfo failed" (status resp) (body_json (body resp)))
     end,
     after_call w (record_request apiKey taskId)).
Proof.
  unfold kieRecordInfo, fetchJson, bind. fold (record_request apiKey taskId).
  rewrite fetch_run.
  destruct (outcome_of w _) as [reason | resp]; simpl; [reflexivity |].
  destruct (ok resp); reflexivity.
Qed.

Lemma kieVeoRecordInfo_run apiKey taskId w :
  kieVeoRecordInfo apiKey taskId w =
    (match outcome_of w (veo_record_request apiKey taskId) with
     | Rejected reason => Throw reason
     | Resolved resp =>
         if ok resp then Ok (body_json (body resp))
         else Throw (failure "KIE Veo record-info failed" (status resp)
                       (body_json (body resp)))
     end,
     after_call w (veo_record_request apiKey taskId)).
Proof.
  unfold kieVeoRecordInfo, fetchJson, bind. fold (veo_record_request apiKey taskId).
  rewrite fetch_run.
  destruct (outcome_of w _) as [reason | resp]; simpl; [reflexivity |].
  destruct (ok resp); reflexivity.
Qed.

(** the reply code of a poll, read off the upstream's answer *)
Ltac poll_cases :=
  repeat match goal with
         | |- context [if ?c then _ else _] => destruct c
         end; simpl; repeat split; eauto.

(** X13.  A poll route called with a credential makes exactly one upstream
    call, the record lookup for the task (the Veo lookup when the id on the
    video route begins with [veo], whatever its letter case), spends only
    that call's time and writes nothing to the ledger.  It replies 200 when
    the lookup answers with a success status and the route can read the
    record, and 500 otherwise: when the call fails, when the status is not
    a success, and when the record has a text state that cannot be
    converted to text. *)
Theorem poll_routes_poll_once (fuel : nat) (route : Route) (req : Incoming) (w : World) :
  route = GetVideo \/ route = GetText2Video \/ route = GetImage2Video ->
  getBearerToken req <> "" ->
  let lookup := poll_route_request route (getBearerToken req) (param req) in
  snd (app fuel route req w) = after_call w lookup /\
  exists code content,
    fst (app fuel route req w) = Ok (ReplyJson code content) /\
    match outcome_of w lookup with
    | Resolved resp =>
        if ok resp && record_readable route (param req) (body_json (body resp))
        then code = 200 else code = 500
    | Rejected _ => code = 500
    end.
Proof.
  intros Hroute Hk lookup. apply String.eqb_neq in Hk. subst lookup.
  destruct Hroute as [-> | [-> | ->]]; simpl.
  - unfold get_video. rewrite Hk. cbv zeta. unfold guarded, try_catch.
    destruct (startsWith (toLowerCase (param req)) "veo").
    + unfold bind. rewrite kieVeoRecordInfo_run.
      destruct (outcome_of w _) as [reason | resp]; simpl; [eauto |].
      destruct (ok resp); simpl; [| eauto]. poll_cases.
    + unfold bind. rewrite kieRecordInfo_run.
      destruct (outcome_of w _) as [reason | resp]; simpl; [eauto |].
      destruct (ok resp); simpl; [| eauto].
      destruct (normalizeKieStatusToSimple _); simpl; [| eauto]. poll_cases.
  - unfold get_kling_video, missing_bearer_kling. rewrite Hk. cbv zeta.
    unfold guarded, try_catch, bind. rewrite kieRecordInfo_run.
    destruct (outcome_of w _) as [reason | resp]; simpl; [eauto |].
    destruct (ok resp); simpl; [| eauto].
    destruct (normalizeKieStatusToSimple _); simpl; [| eauto]. poll_cases.
  - unfold get_kling_video, missing_bearer_kling. rewrite Hk. cbv zeta.
    unfold guarded, try_catch, bind. rewrite kieRecordInfo_run.
    destruct (outcome_of w _) as [reason | resp]; simpl; [eauto |].
    destruct (ok resp); simpl; [| eauto].
    destruct (normalizeKieStatusToSimple _); simpl; [| eauto]. poll_cases.
Qed.

(** X14.  The vendor poll route translates the record it looked up: a record
    that normalises to [completed] is reported as [succeed] with the URL of
    [extractFirstResultUrl] as the one video, a [failed] record as [failed]
    with the upstream's message, and any other record that normalises as
    [processing]; a record whose text state cannot be converted makes the
    normalizer throw, and the reply is 500 with the message of that
    TypeError. *)
Theorem kling_poll_reports_normalized_status (req : Incoming) (w : World) (resp : Response) :
  getBearerToken req <> "" ->
  outcome_of w (record_request (getBearerToken req) (param req)) = Resolved resp ->
  ok resp = true ->
  let json := body_json (body resp) in
  match normalizeKieStatusToSimple json with
  | Some st =>
      exists data,
        fst (get_kling_video req w) = Ok (ReplyJson 200 (obj1 "data" data)) /\
        (st = "completed" ->
         data = VObj [("task_status", VStr "succeed");
                      ("task_result",
                       obj1 "videos" (VArr [obj1 "url" (extractFirstResultUrl json)]))]) /\
        (st = "failed" ->
         data = VObj [("task_status", VStr "failed");
                      ("task_status_msg", failure_message json "failed")]) /\
        (st = "processing" ->
         data = obj1 "task_status" (VStr "processing"))
  | None =>
      fst (get_kling_video req w) = Ok (ReplyJson 500 (obj1 "message" (VStr cannot_convert)))
  end.
Proof.
  intros Hk Hout Hok json. apply String.eqb_neq in Hk.
  unfold get_kling_video. rewrite Hk. cbv zeta.
  unfold guarded, try_catch, bind. rewrite kieRecordInfo_run, Hout, Hok. fold json.
  destruct (normalizeKieStatusToSimple json) as [st |] eqn:Hst; [| reflexivity].
  destruct (normalize_range json st Hst) as [<- | [<- | [<- | []]]]; simpl;
    eexists; (split; [reflexivity |]); repeat split; intros; (reflexivity || discriminate).
Qed.

End PollRoutes.

Lemma poll_routes_poll_once_witness :
  length (calls (snd (@app poll_desk 10 GetVideo (poll_of "task-9") world0))) = 1%nat /\
  exists content,
    fst (@app poll_desk 10 GetVideo (poll_of "task-9") world0) = Ok (ReplyJson 200 content).
Proof.
  destruct (@poll_routes_poll_once poll_desk 10 GetVideo (poll_of "task-9") world0)
    as (Hworld & code & content & Hreply & Hcode).
  - left. reflexivity.
  - vm_compute. discriminate.
  - split; [rewrite Hworld; reflexivity |].
    exists content. rewrite Hreply. vm_compute in Hcode. now rewrite Hcode.
Defined.

Lemma kling_poll_reports_normalized_status_witness :
  fst (@get_kling_video poll_desk (poll_of "task-9") world0)
  = Ok (ReplyJson 200
          (obj1 "data"
             (VObj [("task_status", VStr "succeed");
                    ("task_result",
                     obj1 "videos" (VArr [obj1 "url" (VStr "https://a/9.mp4")]))]))) /\
  fst (@get_kling_video poll_desk (poll_of "task-5") world0)
  = Ok (ReplyJson 500 (obj1 "message" (VStr cannot_convert))).
Proof.
  split.
  - destruct (@kling_poll_reports_normalized_status poll_desk (poll_of "task-9") world0
                (mkResponse 200 []
                   (JsonDoc (VObj [("data", VObj [("state", VStr "success");
                                                  ("resultUrls",
                                                   VArr [VStr "https://a/9.mp4"])])]))))
      as (data & Hreply & Hdone & _).
    + vm_compute. discriminate.
    + reflexivity.
    + reflexivity.
    + rewrite Hreply, Hdone by reflexivity. reflexivity.
  - apply (@kling_poll_reports_normalized_status poll_desk (poll_of "task-5") world0
             (mkResponse 200 [] (JsonDoc unreadable_state))).
    + vm_compute. discriminate.
    + reflexivity.
    + reflexivity.
Defined.

(* ================================================================== *)
(** * Further properties: the wait that ends before its budget *)
(* ================================================================== *)

Section WaitSettles.

Context `{Platform}.

Variables (apiKey recordBase : string) (taskId : value).

(** X15.  Take a task id with the text [id].  When the record fetcher
    answers pending for the first [k] polls and then a completed record, and
    [k] rounds of polling fit in the budget, the wait returns the URLs of
    that record after exactly [k + 1] polls, all of them record lookups, and
    leaves the ledger alone. *)
Theorem wait_returns_urls_after_pending (k fuel : nat) (limit : Z) (json : value)
    (w : World) (id : string) :
  toString taskId = Some id ->
  pending_until (poll_request apiKey recordBase id) (length (calls w) + k) limit ->
  settles_at (poll_request apiKey recordBase id) (length (calls w) + k) json ->
  normalizeKieStatusToSimple json = Some "completed" ->
  0 <= limit ->
  Z.of_nat k * (limit + timer_delay IMAGE_SYNC_POLL_MS) < IMAGE_SYNC_MAX_WAIT_MS ->
  (k < fuel)%nat ->
  exists w' new,
    waitForKieImageResult fuel apiKey recordBase taskId w = (Ok (completed_urls json), w') /\
    calls w' = (new ++ calls w)%list /\
    length new = S k /\
    Forall (fun c => snd c = poll_request apiKey recordBase id) new /\
    usageLogs w' = usageLogs w.
Proof.
  intros Hid Hpend Hsettle Hdone Hlimit Hbudget Hfuel.
  destruct (wait_loop_settles apiKey recordBase taskId id Hid (now w) json limit
              (length (calls w) + k) Hpend Hsettle)
    with (j := k) (fuel := fuel) (w := w)
    as (w' & new & Hrun & Hrest); trivial; try lia.
  { rewrite Hdone. discriminate. }
  exists w', new. split; [| exact Hrest].
  unfold waitForKieImageResult, bind. unfold Date_now at 1.
  rewrite Hrun. unfold settled. rewrite Hdone. reflexivity.
Qed.

(** X16.  Take a task id with the text [id].  When the record fetcher
    answers pending for the first [k] polls and then a failed record, and
    [k] rounds of polling fit in the budget, the wait throws after exactly
    [k + 1] polls.  The error is built from the upstream's error value
    ([data.errorMessage], else [data.message], else [msg], else the text
    [image generation failed]): its message is that value converted to
    text, and when the value cannot be converted the TypeError of the
    conversion is thrown in its place.  A task id that cannot be converted
    to text makes the first lookup throw that TypeError before anything is
    sent. *)
Theorem wait_throws_upstream_failure (k fuel : nat) (limit : Z) (json : value)
    (w : World) :
  (forall id,
     toString taskId = Some id ->
     pending_until (poll_request apiKey recordBase id) (length (calls w) + k) limit ->
     settles_at (poll_request apiKey recordBase id) (length (calls w) + k) json ->
     normalizeKieStatusToSimple json = Some "failed" ->
     0 <= limit ->
     Z.of_nat k * (limit + timer_delay IMAGE_SYNC_POLL_MS) < IMAGE_SYNC_MAX_WAIT_MS ->
     (k < fuel)%nat ->
     exists w' new,
       waitForKieImageResult fuel apiKey recordBase taskId w
       = (Throw (default cannot_convert
                   (toString (failure_message json "image generation failed"))), w') /\
       calls w' = (new ++ calls w)%list /\
       length new = S k /\
       usageLogs w' = usageLogs w) /\
  (toString taskId = None ->
   0 < IMAGE_SYNC_MAX_WAIT_MS -> (0 < fuel)%nat ->
   waitForKieImageResult fuel apiKey recordBase taskId w = (Throw cannot_convert, w)).
Proof.
  split.
  - intros id Hid Hpend Hsettle Hfailed Hlimit Hbudget Hfuel.
    destruct (wait_loop_settles apiKey recordBase taskId id Hid (now w) json limit
                (length (calls w) + k) Hpend Hsettle)
      with (j := k) (fuel := fuel) (w := w)
      as (w' & new & Hrun & Hcalls & Hn & _ & Hlogs); trivial; try lia.
    { rewrite Hfailed. discriminate. }
    exists w', new. split; [| repeat split; assumption].
    unfold waitForKieImageResult, bind. unfold Date_now at 1.
    rewrite Hrun. unfold settled. rewrite Hfailed. simpl.
    destruct (toString (failure_message json "image generation failed")); reflexivity.
  - intros Hid Hpos Hfuel. destruct fuel as [| fuel']; [lia |].
    unfold waitForKieImageResult, bind. unfold Date_now at 1. simpl.
    unfold bind at 1. unfold Date_now at 1.
    destruct (Z.ltb_spec (now w - now w) IMAGE_SYNC_MAX_WAIT_MS) as [_ | Hge]; [| lia].
    simpl. unfold bind at 1. unfold kieImageRecordInfo. unfold bind at 1.
    rewrite Hid. reflexivity.
Qed.

End WaitSettles.

Lemma wait_returns_urls_after_pending_witness :
  exists w',
    @waitForKieImageResult (settles_after 3 structured_result) 10 "key-1"
      "https://api.kie.ai/api/v1/image/record-info" (VStr "img-1") world0
    = (Ok [VStr "https://a/1.png"; VStr "https://a/2.png"], w') /\
    length (calls w') = 4%nat.
Proof.
  destruct (@wait_returns_urls_after_pending (settles_after 3 structured_result) "key-1"
              "https://api.kie.ai/api/v1/image/record-info" (VStr "img-1")
              3%nat 10%nat 40 structured_result world0 "img-1")
    as (w' & new & Hrun & Hcalls & Hn & _).
  - reflexivity.
  - intros history t Hlen. simpl in Hlen.
    apply Nat.ltb_lt in Hlen. do 2 eexists. simpl. rewrite Hlen.
    repeat split; try reflexivity; lia.
  - intros history t Hlen. simpl in Hlen. do 2 eexists. simpl. rewrite Hlen.
    repeat split.
  - reflexivity.
  - lia.
  - vm_compute. reflexivity.
  - lia.
  - exists w'. split; [exact Hrun |]. rewrite Hcalls, length_app, Hn. reflexivity.
Defined.

Lemma wait_throws_upstream_failure_witness :
  (exists w',
     @waitForKieImageResult (settles_after 1 failed_record) 10 "key-1"
       "https://api.kie.ai/api/v1/image/record-info" (VStr "img-1") world0
     = (Throw "content policy", w') /\
     length (calls w') = 2%nat) /\
  (exists w',
     @waitForKieImageResult (settles_after 0 unspeakable_failure) 10 "key-1"
       "https://api.kie.ai/api/v1/image/record-info" (VStr "img-1") world0
     = (Throw cannot_convert, w') /\
     length (calls w') = 1%nat) /\
  @waitForKieImageResult (settles_after 1 failed_record) 10 "key-1"
    "https://api.kie.ai/api/v1/image/record-info" no_text world0
  = (Throw cannot_convert, world0).
Proof.
  split; [| split].
  - destruct (@wait_throws_upstream_failure (settles_after 1 failed_record) "key-1"
                "https://api.kie.ai/api/v1/image/record-info" (VStr "img-1")
                1%nat 10%nat 40 failed_record world0) as [Hfails _].
    destruct (Hfails "img-1") as (w' & new & Hrun & Hcalls & Hn & _).
    + reflexivity.
    + intros history t Hlen. simpl in Hlen.
      apply Nat.ltb_lt in Hlen. do 2 eexists. simpl. rewrite Hlen.
      repeat split; try reflexivity; lia.
    + intros history t Hlen. simpl in Hlen. do 2 eexists. simpl. rewrite Hlen.
      repeat split.
    + reflexivity.
    + lia.
    + vm_compute. reflexivity.
    + lia.
    + exists w'. split; [exact Hrun |]. rewrite Hcalls, length_app, Hn. reflexivity.
  - destruct (@wait_throws_upstream_failure (settles_after 0 unspeakable_failure) "key-1"
                "https://api.kie.ai/api/v1/image/record-info" (VStr "img-1")
                0%nat 10%nat 40 unspeakable_failure world0) as [Hfails _].
    destruct (Hfails "img-1") as (w' & new & Hrun & Hcalls & Hn & _).
    + reflexivity.
    + intros history t Hlen. simpl in Hlen. lia.
    + intros history t Hlen. simpl in Hlen. do 2 eexists. simpl.
      apply length_zero_iff_nil in Hlen. subst history. repeat split.
    + reflexivity.
    + lia.
    + vm_compute. reflexivity.
    + lia.
    + exists w'. split; [exact Hrun |]. rewrite Hcalls, length_app, Hn. reflexivity.
  - apply (@wait_throws_upstream_failure (settles_after 1 failed_record) "key-1"
             "https://api.kie.ai/api/v1/image/record-info" no_text
             1%nat 10%nat 40 failed_record world0).
    + reflexivity.
    + vm_compute. reflexivity.
    + lia.
Defined.

(* ================================================================== *)
(** * Further properties: the Gemini-style reply *)
(* ================================================================== *)

Section GeminiReply.

Context `{Platform}.

Lemma four_bind {A} (m : M A) (k : A -> M Reply) :
  (forall a, at_most_four_images (k a)) -> at_most_four_images (bind m k).
Proof.
  intros Hk w reply w'. unfold bind.
  destruct (m w) as [[a | e |] w1]; [apply Hk | discriminate | discriminate].
Qed.

Lemma four_try_catch (m : M Reply) (h : string -> M Reply) :
  at_most_four_images m -> (forall e, at_most_four_images (h e)) ->
  at_most_four_images (try_catch m h).
Proof.
  intros Hm Hh w reply w'. unfold try_catch. specialize (Hm w).
  destruct (m w) as [[a | e |] w1]; [apply Hm | apply Hh | discriminate].
Qed.

Lemma four_ret (reply : Reply) :
  (length (reply_images reply) <= 4)%nat -> at_most_four_images (ret reply).
Proof. intros Hr w reply' w' [= <- _]. exact Hr. Qed.

Lemma fetch_results_length (urls : list value) (w : World) (parts : list value)
    (w' : World) :
  fetch_results urls w = (Ok parts, w') -> length parts = length urls.
Proof.
  revert w parts w'. induction urls as [| u rest IH]; intros w parts w'; simpl.
  - intros [= <- _]. reflexivity.
  - unfold bind at 1. destruct (fetchBinaryAsBase64 u w) as [[file | e |] w1]; try discriminate.
    unfold bind at 1. destruct (fetch_results rest w1) as [[ps | e |] w2] eqn:Hrest;
      try discriminate.
    intros [= <- _]. simpl. f_equal. now apply (IH w1 ps w2).
Qed.

Lemma clamped_slice (n : option Z) (urls : list value) :
  (length (match match n with
                 | Some k => Some (Z.min 4 (Z.max 1 k))
                 | None => None
                 end with
           | Some k => take (Z.to_nat k) urls
           | None => []
           end) <= 4)%nat.
Proof.
  destruct n as [k |]; simpl; [| lia].
  rewrite length_take. lia.
Qed.

(** X17.  Whatever the request asks for and whatever the upstream returns, a
    reply of the Gemini-style route holds at most four inline images. *)
Theorem generate_reply_at_most_four_images (fuel : nat) (req : Incoming) (w : World)
    (reply : Reply) (w' : World) :
  post_generateContent fuel req w = (Ok reply, w') ->
  (length (reply_images reply) <= 4)%nat.
Proof.
  revert w reply w'. change (at_most_four_images (post_generateContent fuel req)).
  unfold post_generateContent.
  apply four_bind. intros apiKey.
  destruct (String.eqb apiKey ""); [apply four_ret; simpl; lia |].
  destruct (extractGeminiTextAndInlineImages _) as [prompt images]. cbv zeta.
  unfold guarded. apply four_try_catch; [| intros e; apply four_ret; simpl; lia].
  destruct (negb _ && _).
  - apply four_bind. intros t. apply four_bind. intros _. apply four_ret. simpl. lia.
  - apply four_bind. intros count.
    apply four_bind. intros filesUrl. apply four_bind. intros task.
    apply four_bind. intros t. apply four_bind. intros _.
    apply four_bind. intros urls.
    intros w reply w'. unfold bind.
    match goal with
    | |- context [fetch_results ?wanted w] =>
        pose proof (clamped_slice count urls) as Hwanted;
        destruct (fetch_results wanted w) as [[parts | e |] w1] eqn:Hfetch;
        try discriminate
    end.
    apply fetch_results_length in Hfetch.
    intros [= <- _]. simpl.
    etransitivity; [apply List.filter_length_le |]. rewrite Hfetch. exact Hwanted.
Qed.

End GeminiReply.

Lemma generate_reply_at_most_four_images_witness :
  exists reply w',
    @post_generateContent image_studio 10 ten_images_request world0 = (Ok reply, w') /\
    (length (reply_images reply) <= 4)%nat /\
    length (calls w') = 6%nat.
Proof.
  destruct (@post_generateContent image_studio 10 ten_images_request world0)
    as [[reply | e |] w'] eqn:Hrun; try (vm_compute in Hrun; discriminate).
  exists reply, w'. split; [reflexivity |]. split.
  - apply (@generate_reply_at_most_four_images image_studio 10 ten_images_request world0
             reply w' Hrun).
  - vm_compute in Hrun. injection Hrun as _ <-. reflexivity.
Defined.

(* ================================================================== *)
(** * Further properties: the chat proxy and the credit route *)
(* ================================================================== *)

Section ChatAndCredit.

Context `{Platform}.

(** one turn of the chat loop: the answer is forwarded when it is not a 404
    and the model name converts, and passed over otherwise *)
Lemma chat_try_run apiKey req url w :
  chat_try apiKey req url w =
    match chat_verdict (outcome_of w (chat_upstream_request apiKey req url)),
          chat_model_name req with
    | Some resp, Some name =>
        let w1 := after_call w (chat_upstream_request apiKey req url) in
        (Ok (Some (ReplyStream (status resp) (without_encoding (headers resp)) (body resp))),
         {| now := now w1;
            calls := calls w1;
            usageLogs :=
              pushUsageLog apiKey
                (mkUsageLog (now w1 / 1000) name "(chat)" 0 "/v1/chat/completions" "chat")
                (usageLogs w1) |})
    | _, _ => (Ok None, after_call w (chat_upstream_request apiKey req url))
    end.
Proof.
  unfold chat_try, try_catch, bind, chat_verdict, chat_model_name.
  fold (chat_upstream_request apiKey req url).
  rewrite fetch_run.
  destruct (outcome_of w _) as [reason | resp]; simpl; [reflexivity |].
  destruct (status resp =? 404); [reflexivity |].
  destruct (toString _); reflexivity.
Qed.

Lemma chat_loop_first_forwarded apiKey req pre url post w resp name :
  all_skipped chat_verdict w (List.map (chat_upstream_request apiKey req) pre) ->
  chat_verdict
    (outcome_of (after_calls w (List.map (chat_upstream_request apiKey req) pre))
       (chat_upstream_request apiKey req url)) = Some resp ->
  chat_model_name req = Some name ->
  let w1 := after_calls w (List.map (chat_upstream_request apiKey req) (pre ++ [url])) in
  chat_loop apiKey req (pre ++ url :: post) w =
    (Ok (ReplyStream (status resp) (without_encoding (headers resp)) (body resp)),
     {| now := now w1;
        calls := calls w1;
        usageLogs :=
          pushUsageLog apiKey
            (mkUsageLog (now w1 / 1000) name "(chat)" 0 "/v1/chat/completions" "chat")
            (usageLogs w) |}).
Proof.
  intros Hskip Hacc Hname. revert w Hskip Hacc.
  induction pre as [| p pre IH]; intros w Hskip Hacc; simpl in *.
  - unfold bind. rewrite chat_try_run, Hacc, Hname. reflexivity.
  - destruct Hskip as [Hp Hrest].
    unfold bind at 1. rewrite chat_try_run, Hp.
    rewrite (IH _ Hrest Hacc). reflexivity.
Qed.

Lemma chat_loop_exhausted apiKey req candidates w :
  all_skipped chat_verdict w (List.map (chat_upstream_request apiKey req) candidates)
  \/ chat_model_name req = None ->
  chat_loop apiKey req candidates w =
    (Ok (ReplyJson 502 (obj1 "error" (VStr chat_unavailable))),
     after_calls w (List.map (chat_upstream_request apiKey req) candidates)).
Proof.
  revert w. induction candidates as [| p rest IH]; intros w Hskip; simpl in *; [reflexivity |].
  unfold bind at 1. rewrite chat_try_run.
  destruct Hskip as [[Hp Hrest] | Hname].
  - rewrite Hp. apply IH. now left.
  - rewrite Hname.
    destruct (chat_verdict _); apply IH; now right.
Qed.

(** X18.  With a credential the chat proxy tries its two candidates in
    order.  An answer is passed over when the call throws or the status is
    404.  When the model name of the body converts to text, the first
    answer that is not passed over is forwarded as it came, status and body
    unchanged and the headers without [content-encoding], after exactly the
    calls up to that candidate, and one ledger entry of kind [chat] carrying
    the model name is pushed.  When both answers are passed over, or when
    the model name cannot be converted (the conversion throws inside the
    [try] once an answer has come, so each candidate is given up in turn),
    the reply is 502 after exactly two calls and the ledger is untouched. *)
Theorem chat_proxy_forwards_or_502 (req : Incoming) (w : World) :
  getBearerToken req <> "" ->
  let call := chat_upstream_request (getBearerToken req) req in
  (forall pre url post resp name,
     chat_candidates = (pre ++ url :: post)%list ->
     all_skipped chat_verdict w (List.map call pre) ->
     chat_verdict (outcome_of (after_calls w (List.map call pre)) (call url)) = Some resp ->
     chat_model_name req = Some name ->
     exists w',
       post_chat_completions req w
       = (Ok (ReplyStream (status resp) (without_encoding (headers resp)) (body resp)), w') /\
       List.map snd (calls w')
       = (rev (List.map call (pre ++ [url])) ++ List.map snd (calls w))%list /\
       usageLogs w'
       = pushUsageLog (getBearerToken req)
           (mkUsageLog (now w' / 1000) name "(chat)" 0 "/v1/chat/completions" "chat")
           (usageLogs w)) /\
  (all_skipped chat_verdict w (List.map call chat_candidates)
   \/ chat_model_name req = None ->
   exists w',
     post_chat_completions req w
     = (Ok (ReplyJson 502 (obj1 "error" (VStr chat_unavailable))), w') /\
     List.map snd (calls w')
     = (rev (List.map call chat_candidates) ++ List.map snd (calls w))%list /\
     length (calls w') = (2 + length (calls w))%nat /\
     usageLogs w' = usageLogs w) /\
  (forall hdrs, Forall (fun kv => toLowerCase (fst kv) <> "content-encoding")
                  (without_encoding hdrs)).
Proof.
  intros Hk call. apply String.eqb_neq in Hk.
  split; [| split].
  - intros pre url post resp name Hcand Hskip Hacc Hname.
    unfold post_chat_completions. rewrite Hk, Hcand.
    rewrite (chat_loop_first_forwarded _ req pre url post w resp name Hskip Hacc Hname).
    eexists. split; [reflexivity |]. cbn [calls now usageLogs]. split; [| reflexivity].
    apply calls_after_calls.
  - intros Hskip.
    unfold post_chat_completions. rewrite Hk.
    rewrite (chat_loop_exhausted _ req chat_candidates w Hskip).
    eexists. split; [reflexivity |].
    pose proof (calls_after_calls (List.map call chat_candidates) w) as Hcalls.
    split; [exact Hcalls |]. split; [| apply usageLogs_after_calls].
    apply (f_equal (@length Request)) in Hcalls.
    rewrite length_map, length_app, length_rev, !length_map in Hcalls. exact Hcalls.
  - intros hdrs. apply List.Forall_forall. intros kv Hin.
    apply filter_In in Hin as [_ Hkeep].
    apply negb_true_iff, String.eqb_neq in Hkeep. exact Hkeep.
Qed.

Lemma token_info_try_run apiKey url w :
  token_info_try apiKey url w =
    (Ok (option_map credit_reply (credit_verdict (outcome_of w (credit_request apiKey url)))),
     after_call w (credit_request apiKey url)).
Proof.
  unfold token_info_try, try_catch, fetchJson, bind. rewrite fetch_run.
  unfold credit_verdict.
  destruct (outcome_of w _) as [reason | resp]; simpl; [reflexivity |].
  destruct (ok resp); reflexivity.
Qed.

Lemma token_info_loop_first apiKey pre url post w json :
  all_skipped credit_verdict w (List.map (credit_request apiKey) pre) ->
  credit_verdict
    (outcome_of (after_calls w (List.map (credit_request apiKey) pre))
       (credit_request apiKey url)) = Some json ->
  token_info_loop apiKey (pre ++ url :: post) w =
    (Ok (credit_reply json),
     after_calls w (List.map (credit_request apiKey) (pre ++ [url]))).
Proof.
  revert w. induction pre as [| p pre IH]; intros w Hskip Hacc; simpl in *.
  - unfold bind. rewrite token_info_try_run, Hacc. reflexivity.
  - destruct Hskip as [Hp Hrest].
    unfold bind at 1. rewrite token_info_try_run, Hp. now apply IH.
Qed.

Lemma token_info_loop_exhausted apiKey candidates w :
  all_skipped credit_verdict w (List.map (credit_request apiKey) candidates) ->
  token_info_loop apiKey candidates w =
    (Ok credit_unreachable, after_calls w (List.map (credit_request apiKey) candidates)).
Proof.
  revert w. induction candidates as [| p rest IH]; intros w Hskip; simpl in *; [reflexivity |].
  destruct Hskip as [Hp Hrest].
  unfold bind at 1. rewrite token_info_try_run, Hp. now apply IH.
Qed.

Lemma coalesce_defined (a b : value) : b <> VUndef -> coalesce a b <> VUndef.
Proof. unfold coalesce. destruct a; simpl; trivial; discriminate. Qed.

(** X19.  The credit route, unlike the upload prober, stops at the first
    candidate that answers with a success status whatever the document
    holds: the reply is 200 with [credit] and [used] read from that document,
    each [null] rather than missing when the document names none.  When
    every candidate throws or answers without success the reply is 502 after
    exactly three calls.  Without a credential it is 401 and no call is made;
    the ledger is never written. *)
Theorem credit_route_first_success (req : Incoming) (w : World) :
  (getBearerToken req = "" ->
   exists content, get_token_info req w = (Ok (ReplyJson 401 content), w)) /\
  (forall pre url post json,
     getBearerToken req <> "" ->
     credit_candidates = (pre ++ url :: post)%list ->
     all_skipped credit_verdict w (List.map (credit_request (getBearerToken req)) pre) ->
     credit_verdict
       (outcome_of (after_calls w (List.map (credit_request (getBearerToken req)) pre))
          (credit_request (getBearerToken req) url)) = Some json ->
     exists w',
       get_token_info req w = (Ok (credit_reply json), w') /\
       length (calls w') = (length pre + 1 + length (calls w))%nat /\
       usageLogs w' = usageLogs w /\
       credit_of json <> VUndef /\ used_of json <> VUndef) /\
  (getBearerToken req <> "" ->
   all_skipped credit_verdict w
     (List.map (credit_request (getBearerToken req)) credit_candidates) ->
   exists w',
     get_token_info req w = (Ok credit_unreachable, w') /\
     length (calls w') = (3 + length (calls w))%nat /\
     usageLogs w' = usageLogs w).
Proof.
  split; [| split].
  - intros Hk. unfold get_token_info. rewrite Hk. simpl. eexists. reflexivity.
  - intros pre url post json Hk Hcand Hskip Hacc. apply String.eqb_neq in Hk.
    eexists. split; [| split; [| split; [| split]]].
    + unfold get_token_info. rewrite Hk, Hcand.
      now apply token_info_loop_first.
    + pose proof (calls_after_calls
                    (List.map (credit_request (getBearerToken req)) (pre ++ [url])) w) as Hc.
      apply (f_equal (@length Request)) in Hc.
      rewrite length_map, length_app, length_rev, !length_map, length_app in Hc.
      simpl in Hc. exact Hc.
    + apply usageLogs_after_calls.
    + unfold credit_of. cbv zeta. repeat apply coalesce_defined. discriminate.
    + unfold used_of. cbv zeta. repeat apply coalesce_defined. discriminate.
  - intros Hk Hskip. apply String.eqb_neq in Hk.
    eexists. split; [| split].
    + unfold get_token_info. rewrite Hk. now apply token_info_loop_exhausted.
    + pose proof (calls_after_calls
                    (List.map (credit_request (getBearerToken req)) credit_candidates) w) as Hc.
      apply (f_equal (@length Request)) in Hc.
      rewrite length_map, length_app, length_rev, !length_map in Hc. exact Hc.
    + apply usageLogs_after_calls.
Qed.

End ChatAndCredit.

Lemma chat_proxy_forwards_or_502_witness :
  (exists w',
     @post_chat_completions chat_desk chat_request_example world0
     = (Ok (ReplyStream 200 [("content-type", "text/event-stream")] (Raw png_bytes)), w') /\
     length (calls w') = 2%nat /\
     length (default [] (usageLogs w' !! "#key-1")) = 1%nat) /\
  (exists w',
     @post_chat_completions chat_desk (bearer "key-1" (VObj [("model", no_text)])) world0
     = (Ok (ReplyJson 502 (obj1 "error" (VStr (@chat_unavailable)))), w') /\
     length (calls w') = 2%nat /\
     usageLogs w' = ∅).
Proof.
  split.
  - destruct (@chat_proxy_forwards_or_502 chat_desk chat_request_example world0)
      as (Hforward & _ & _); [vm_compute; discriminate |].
    destruct (Hforward ["https://api.kie.ai/v1/chat/completions"]
                "https://api.kie.ai/api/v1/chat/completions" []
                (mkResponse 200 [("content-encoding", "gzip");
                                 ("content-type", "text/event-stream")] (Raw png_bytes))
                "gpt-4o")
      as (w' & Hrun & Hcalls & Hlogs); try reflexivity.
    + vm_compute. tauto.
    + exists w'. split; [exact Hrun |]. split.
      * rewrite <- (length_map snd), Hcalls. reflexivity.
      * rewrite Hlogs. vm_compute. reflexivity.
  - destruct (@chat_proxy_forwards_or_502 chat_desk
                (bearer "key-1" (VObj [("model", no_text)])) world0)
      as (_ & Hgiven_up & _); [vm_compute; discriminate |].
    destruct Hgiven_up as (w' & Hrun & _ & Hlen & Hlogs); [right; reflexivity |].
    exists w'. split; [exact Hrun |]. split; [exact Hlen | exact Hlogs].
Defined.

Lemma credit_route_first_success_witness :
  exists w',
    @get_token_info credit_desk (poll_of "") world0
    = (Ok (ReplyJson 200
             (VObj [("success", VBool true);
                    ("data", VObj [("credit", VNull); ("used", VNull)])])), w') /\
    length (calls w') = 1%nat.
Proof.
  destruct (@credit_route_first_success credit_desk (poll_of "") world0) as (_ & Hfirst & _).
  destruct (Hfirst [] "https://api.kie.ai/api/v1/chat/credit"
              ["https://api.kie.ai/api/v1/user/credits"; "https://api.kie.ai/api/v1/user/credit"]
              (VObj [("code", VNum 200)]))
    as (w' & Hrun & Hlen & _).
  - vm_compute. discriminate.
  - reflexivity.
  - exact I.
  - reflexivity.
  - exists w'. split; [exact Hrun | exact Hlen].
Defined.

(* ================================================================== *)
(** * Further properties: the market model of the OpenAI-style route *)
(* ================================================================== *)

Section MarketModel.

(** X20.  The market model chosen for a Sora request depends only on whether
    the lower-cased name contains [pro] or [all]: the four exact names the
    code compares with first decide nothing on their own, and an [all] model
    is sent to the same market model as a [pro] one.  The result is one of
    four names, the kind following the presence of a reference image. *)
Theorem mapSoraMarketModel_by_substring (model : string) (isImageToVideo : bool) :
  mapSoraMarketModel model isImageToVideo =
    ((if includes (toLowerCase model) "pro" || includes (toLowerCase model) "all"
      then "sora-2-pro/" else "sora-2/")
     ++ (if isImageToVideo then "image-to-video" else "text-to-video"))%string.
Proof.
  unfold mapSoraMarketModel. cbv zeta.
  generalize (toLowerCase model) as m. intros m.
  destruct (String.eqb_spec m "sora-2-pro") as [-> | _]; [destruct isImageToVideo; reflexivity |].
  destruct (String.eqb_spec m "sora_2_pro") as [-> | _]; [destruct isImageToVideo; reflexivity |].
  destruct (includes m "pro") eqn:Hpro; [reflexivity |].
  destruct (String.eqb_spec m "sora-2-all") as [-> | _]; [destruct isImageToVideo; reflexivity |].
  destruct (String.eqb_spec m "sora_2_all") as [-> | _]; [destruct isImageToVideo; reflexivity |].
  destruct (includes m "all"); reflexivity.
Qed.

End MarketModel.
